(** * Screenshot scheduler: a shallow embedding of the scheduling core

    The development follows the two programs of the repository:

    - [Cli]    : [schedule-screenshot.js], the standalone scheduler with its
                 dual-timer guard ([scheduleWithPeriodicChecks]), its
                 argument handling ([main]) and its exact-time capture
                 routine;
    - [Server] : [server.js], the HTTP facade with the in-memory job
                 registry, the capture routines and the screenshot listing.

    Time is a count of milliseconds since the epoch, an integer of [Z] (a
    JavaScript [Date] holds an integral number of milliseconds, exactly
    representable in a double).  An invalid [Date] (time value [NaN]) is
    [None].  The timer primitives of the runtime ([setTimeout],
    [setInterval], node-schedule) are outside the repository: a handler is
    modelled by what it does when the runtime runs it, and the runtime by
    the events it delivers.  A timer that the program sets is recorded with
    the delay the program gave it; the runtime takes delays from 1 to
    2^31 - 1 ms (about 24.8 days) and waits 1 ms for any other
    ([Js.timer_delay]), and it may run a callback later than it is due, never
    earlier.  Writing to the console does not fail; writing to the log file
    of the standalone scheduler may, and the error is thrown where [log] is
    called: in [main] and in the capture routines every call of [log] is a
    place where an error can arise, and for the handlers of the guard such
    an error is an input of the process, which ends it. *)

From Stdlib Require Import ZArith Lia Bool List Ascii String Permutation Sorted.
From stdpp Require Import base option list strings pretty gmap.
Import ListNotations.

Local Open Scope Z_scope.

(** ** JavaScript values that reach the program *)

Module Js.

(** A value of a parsed JSON body.  [JUndefined] is an absent property.  An
    object or array is kept as what its conversion to a primitive yields,
    which is all [new Date(v)] looks at: the string of its [toString], or
    [None] when the conversion throws (an object of JSON has no method of
    its own, so one whose [toString] property is not callable, such as
    an object with a number for [toString], has no primitive value). *)
Inductive value :=
| JUndefined
| JNull
| JBool (b : bool)
| JNum (n : Z)
| JStr (s : string)
| JObj (repr : option string).

(** [!v] is [negb (truthy v)]. *)
Definition truthy (v : value) : bool :=
  match v with
  | JUndefined | JNull => false
  | JBool b => b
  | JNum n => negb (n =? 0)
  | JStr s => negb (String.eqb s "")
  | JObj _ => true
  end.

(** The range of time values of a [Date]: 8.64e15 ms around the epoch. *)
Definition MAX_TIME : Z := 8640000000000000.

Definition TimeClip (t : Z) : option Z :=
  if (Z.abs t <=? MAX_TIME) then Some t else None.

(** The message of the [TypeError] that [new Date(v)] throws when [v]
    has no primitive value, [None] when the conversion succeeds. *)
Definition toPrimitive_error (v : value) : option string :=
  match v with
  | JObj None => Some "Cannot convert object to primitive value"%string
  | _ => None
  end.

Section Date.
(** [Date.parse], the parser of the runtime: [None] is [NaN]. *)
Variable parse : string -> option Z.

(** [new Date(v).getTime()] for a value that has a primitive value,
    [None] for an invalid date. *)
Definition newDate (v : value) : option Z :=
  match v with
  | JUndefined => None
  | JNull => Some 0
  | JBool b => Some (if b then 1 else 0)
  | JNum n => TimeClip n
  | JStr s => parse s
  | JObj (Some repr) => parse repr
  | JObj None => None
  end.
End Date.

(** The delay of a timer of the runtime.  [setTimeout] and [setInterval]
    of Node take a delay from 1 to [TIMEOUT_MAX] = 2^31 - 1 ms (about 24.8
    days); a delay outside of this range is set to 1. *)
Definition TIMEOUT_MAX : Z := 2147483647.

Definition timer_delay (ms : Z) : Z :=
  if (1 <=? ms) && (ms <=? TIMEOUT_MAX) then ms else 1.

End Js.

(** ** Strings and paths *)

Module Str.

(** [s.startsWith(p)] and [s.endsWith(p)]. *)
Definition startsWith (s p : string) : bool := String.prefix p s.

Definition endsWith (s p : string) : bool :=
  (String.length p <=? String.length s)%nat &&
  String.eqb (String.substring (String.length s - String.length p) (String.length p) s) p.

End Str.

(** The POSIX flavour of Node's [path] module, as far as [join] goes: the
    arguments are glued with a slash and the result is normalised segment by
    segment.  [resolve_segments] is the normalised path before it is printed:
    whether it is absolute, and its segments. *)
Module Path.

Definition slash : ascii := "/"%char.

(** The pieces between the slashes of [s]; never empty. *)
Fixpoint split (s : string) : list string :=
  match s with
  | EmptyString => [EmptyString]
  | String c s' =>
      if Ascii.eqb c slash then EmptyString :: split s'
      else match split s' with
           | [] => [String c EmptyString]
           | seg :: segs => String c seg :: segs
           end
  end.

(** [normalizeString]: [res] is the stack of segments kept so far, the last
    one first.  An empty segment and [.] are dropped, [..] removes the last
    segment kept unless there is none or it is [..] itself, in which case it
    is kept only when the path may climb above its root. *)
Fixpoint normalizeString (allowAboveRoot : bool) (segs res : list string) : list string :=
  match segs with
  | [] => res
  | seg :: rest =>
      if String.eqb seg "" || String.eqb seg "." then
        normalizeString allowAboveRoot rest res
      else if String.eqb seg ".." then
        match res with
        | last :: res' =>
            if String.eqb last ".."
            then normalizeString allowAboveRoot rest
                   (if allowAboveRoot then ".."%string :: res else res)
            else normalizeString allowAboveRoot rest res'
        | [] =>
            normalizeString allowAboveRoot rest
              (if allowAboveRoot then [".."%string] else [])
        end
      else normalizeString allowAboveRoot rest (seg :: res)
  end.

Definition isAbsolute (p : string) : bool :=
  match p with
  | String c _ => Ascii.eqb c slash
  | EmptyString => false
  end.

Definition trailingSeparator (p : string) : bool := Str.endsWith p "/".

Record resolved := Resolved { absolute : bool; segments : list string }.

Definition resolve_segments (p : string) : resolved :=
  Resolved (isAbsolute p)
           (rev (normalizeString (negb (isAbsolute p)) (split p) [])).

Definition print (trailing : bool) (r : resolved) : string :=
  let body := String.concat "/" (segments r) in
  match segments r with
  | [] => if absolute r then "/" else if trailing then "./" else "."
  | _ :: _ => (if absolute r then "/" else "") +:+ body +:+ (if trailing then "/" else "")
  end%string.

(** [path.normalize(p)]. *)
Definition normalize (p : string) : string :=
  if String.eqb p "" then "."%string
  else print (trailingSeparator p) (resolve_segments p).

Definition glue (a b : string) : string :=
  if String.eqb a "" then b
  else if String.eqb b "" then a
  else (a +:+ "/" +:+ b)%string.

(** [path.join(a, b)]. *)
Definition join (a b : string) : string := normalize (glue a b).

(** A path lies within a directory when both are absolute alike and the
    segments of the directory begin the segments of the path. *)
Definition within (dir p : resolved) : Prop :=
  absolute p = absolute dir /\ exists rest, segments p = segments dir ++ rest.

End Path.

(** ** Capture routines: effects and exceptions

    A capture is a sequence of calls into the browser-automation engine and
    the file system.  Each call may throw; which ones do is the business of
    the outside world, given here as [throws].  A routine is a computation
    over the store of its local variables and the trace of what it did,
    ending in a value or in a thrown error. *)
Module Capture.

(** The places where the routines of the standalone scheduler call
    [log(message)], which appends the line to the log file with
    [fs.appendFileSync] and throws when the file cannot be written.  (The
    service writes to the console only.) *)
Inductive log_site :=
| LogStart                     (* first statement of the routine, before the try *)
| LogNavigating
| LogRetry                     (* in the catch block of the first navigation *)
| LogNoLanguage                (* in the catch block of the language block *)
| LogNoExchange                (* in the catch block of the exchange block *)
| LogScrolling
| LogWaiting                   (* before the wait for the target *)
| LogCapturing
| LogSaved
| LogAutoOpenError             (* in the catch block of the auto-open block *)
| LogError.                    (* first statement of the routine's catch block *)

Inductive call_site :=
| EnsureDir                    (* the block of fs.existsSync / fs.mkdirSync *)
| Launch                       (* chromium.launch *)
| NewContext | NewPage
| GotoPrimary | GotoFallback   (* page.goto, first and second attempt *)
| Settle                       (* page.waitForTimeout(2000) *)
| SwitchLanguage               (* the body of the language try block *)
| SelectExchange               (* the body of the exchange try block *)
| Scroll (i : nat) | ScrollDelay (i : nat) | ScrollSettle
| Overlay | OverlayRender
| Screenshot (filepath : string)
| Close                        (* browser.close() at the end of the try block *)
| CloseAfterError              (* browser.close() in the catch block *)
| AutoOpen (filepath : string) (* the body of the auto-open try block *)
| Log (l : log_site).

(** A timer is recorded with the delay that the program gives it; the
    runtime waits [Js.timer_delay] of it. *)
Inductive effect :=
| Call (c : call_site)
| SetTimeout (ms : Z).         (* await new Promise(r => setTimeout(r, ms)) *)

Record env := Env {
  throws : call_site -> option string;   (* the message of the error thrown *)
  readyAt : Z;                           (* the clock once the page is ready *)
  stamp : string                         (* new Date().toISOString() with dashes *)
}.

Record store := Store {
  browser : bool;                        (* [browser] has been assigned *)
  trace : list effect
}.

Inductive res (A : Type) :=
| Ok (a : A)
| Throw (message : string).
Arguments Ok {A} a.
Arguments Throw {A} message.

Definition M (A : Type) : Type := env -> store -> res A * store.

Definition ret {A} (a : A) : M A := fun _ st => (Ok a, st).

Definition bind {A B} (m : M A) (k : A -> M B) : M B :=
  fun e st =>
    match m e st with
    | (Ok a, st') => k a e st'
    | (Throw message, st') => (Throw message, st')
    end.

Definition throw {A} (message : string) : M A := fun _ st => (Throw message, st).

Definition try_catch {A} (m : M A) (handler : string -> M A) : M A :=
  fun e st =>
    match m e st with
    | (Ok a, st') => (Ok a, st')
    | (Throw message, st') => handler message e st'
    end.

Definition emit (x : effect) : M unit :=
  fun _ st => (Ok tt, Store (browser st) (trace st ++ [x])).

Definition call (c : call_site) : M unit :=
  fun e st =>
    let st' := Store (browser st) (trace st ++ [Call c]) in
    match throws e c with
    | Some message => (Throw message, st')
    | None => (Ok tt, st')
    end.

Definition assign_browser : M unit :=
  fun _ st => (Ok tt, Store true (trace st)).

Definition read_browser : M bool := fun _ st => (Ok (browser st), st).
Definition read_clock : M Z := fun e st => (Ok (readyAt e), st).
Definition read_stamp : M string := fun e st => (Ok (stamp e), st).

Declare Scope capture_scope.
Delimit Scope capture_scope with capture.
Notation "x <- m ;; k" := (bind m (fun x => k))
  (at level 100, m at next level, right associativity) : capture_scope.
Notation "m ;; k" := (bind m (fun _ => k))
  (at level 100, right associativity) : capture_scope.

Local Open Scope capture_scope.

(** [for (let i = 0; i < n; i++) { scrollBy; waitForTimeout }] from [i]. *)
Fixpoint scroll_loop (i n : nat) : M unit :=
  match n with
  | O => ret tt
  | S n' => call (Scroll i) ;; call (ScrollDelay i) ;; scroll_loop (S i) n'
  end.

(** The steps of the service's routines up to the ready page: directory,
    browser, navigation with its one retry, the two best-effort adaptations,
    the scrolling. *)
Definition prepare (scrollCount : nat) : M unit :=
  call EnsureDir ;;
  call Launch ;; assign_browser ;;
  call NewContext ;; call NewPage ;;
  try_catch (call GotoPrimary) (fun _ => call GotoFallback) ;;
  call Settle ;;
  try_catch (call SwitchLanguage) (fun _ => ret tt) ;;
  try_catch (call SelectExchange) (fun _ => ret tt) ;;
  (if (0 <? scrollCount)%nat
   then scroll_loop 0 scrollCount ;; call ScrollSettle
   else ret tt).

(** [if (msUntilTarget > 0) await new Promise(... setTimeout ...)]. *)
Definition wait_for_target (targetDate : Z) : M unit :=
  now <- read_clock ;;
  let msUntilTarget := targetDate - now in
  if 0 <? msUntilTarget then emit (SetTimeout msUntilTarget) else ret tt.

Definition screenshot_name (timestamp : string) : string :=
  ("screenshot-" +:+ timestamp +:+ ".png")%string.

(** Overlay, file name, screenshot, close: the result is the pair of the
    file path and the file name. *)
Definition shoot (screenshotPath : string) : M (string * string) :=
  call Overlay ;; call OverlayRender ;;
  timestamp <- read_stamp ;;
  let filename := screenshot_name timestamp in
  let filepath := Path.join screenshotPath filename in
  call (Screenshot filepath) ;;
  call Close ;;
  ret (filepath, filename).

(** [if (browser) await browser.close()] of the catch blocks. *)
Definition close_if_open : M unit :=
  b <- read_browser ;;
  if b then call CloseAfterError else ret tt.

Definition start : store := Store false [].

(** The call sites that no inner try block covers: what they throw reaches
    the catch block of the routine.  (The first navigation is covered by the
    retry, the two adaptations and the auto-open by try blocks of their own;
    the first log line stands before the routine's try, the log line and the
    close of the catch block after it.  A log line in the catch block of an
    inner try is covered by no try of its own.) *)
Definition fatal (c : call_site) : bool :=
  match c with
  | GotoPrimary | SwitchLanguage | SelectExchange | CloseAfterError | AutoOpen _ => false
  | Log LogStart | Log LogError => false
  | _ => true
  end.

(** A computation is faithful when it only adds to the trace, throws what a
    fatal call of its own threw, and throws nothing but what one of its calls
    threw. *)
Definition faithful {A} (m : M A) : Prop :=
  forall e st, exists new,
    trace (snd (m e st)) = trace st ++ new /\
    (forall c message, In (Call c) new -> fatal c = true ->
       throws e c = Some message -> fst (m e st) = Throw message) /\
    (forall message, fst (m e st) = Throw message ->
       exists c, In (Call c) new /\ throws e c = Some message).

Definition returns {A} (P : A -> Prop) (m : M A) : Prop :=
  forall e st a, fst (m e st) = Ok a -> P a.

(** The structured result of the service's routines. *)
Record CaptureResult := {
  success : bool;
  filepath : option string;
  filename : option string;
  error : option string
}.

Definition succeeded (filepath filename : string) : CaptureResult :=
  {| success := true; filepath := Some filepath; filename := Some filename; error := None |}.

Definition failed (message : string) : CaptureResult :=
  {| success := false; filepath := None; filename := None; error := Some message |}.

End Capture.

(** ** The standalone scheduler, [schedule-screenshot.js] *)

Module Cli.

Definition PROCESS_DURATION_MS : Z := 15000.
Definition checkInterval : Z := 1000.

(** Which of the two mechanisms started the preparation. *)
Inductive trigger := ByInterval | ByBackup.

Inductive log_line :=
| Countdown (minutes seconds : Z)
| StartingPreparation (seconds : Z)
| BackupTimerTriggered
| Completed
| FatalError (message : string)
| InterruptedByUser
| TerminatedBySignal.

(** The variables [scheduleWithPeriodicChecks] closes over, with what its
    handlers did so far.  [intervalId] is [true] while the interval is
    installed, [backupTimer] is the delay of the backup [setTimeout] while it
    is pending.  [prewarms] lists the calls of [takeScreenshotAtExactTime],
    newest first, each with its trigger and the time of the call. *)
Record guard := Guard {
  targetDate : Z;
  earlyStartTime : Z;
  hasExecuted : bool;
  intervalId : bool;
  backupTimer : option Z;
  prewarms : list (trigger * Z);
  logged : list (Z * log_line);
  exited : option Z
}.

Definition log (now : Z) (l : log_line) (g : guard) : guard :=
  Guard (targetDate g) (earlyStartTime g) (hasExecuted g) (intervalId g)
        (backupTimer g) (prewarms g) ((now, l) :: logged g) (exited g).

(** [hasExecuted = true; clearInterval(intervalId);] followed by the call
    of [takeScreenshotAtExactTime(targetDate)]. *)
Definition fire (by_ : trigger) (now : Z) (g : guard) : guard :=
  Guard (targetDate g) (earlyStartTime g) true false
        (backupTimer g) ((by_, now) :: prewarms g) (logged g) (exited g).

Definition backup_consumed (g : guard) : guard :=
  Guard (targetDate g) (earlyStartTime g) (hasExecuted g) (intervalId g)
        None (prewarms g) (logged g) (exited g).

Definition exit (code : Z) (g : guard) : guard :=
  Guard (targetDate g) (earlyStartTime g) (hasExecuted g) (intervalId g)
        (backupTimer g) (prewarms g) (logged g) (Some code).

(** [scheduleWithPeriodicChecks(targetDate)], called at time [now]: the
    interval is installed, and the backup timer only when the early start
    is still ahead. *)
Definition scheduleWithPeriodicChecks (target now : Z) : guard :=
  let early := target - PROCESS_DURATION_MS in
  let msUntilEarlyStart := early - now in
  {| targetDate := target;
     earlyStartTime := early;
     hasExecuted := false;
     intervalId := true;
     backupTimer := if 0 <? msUntilEarlyStart then Some msUntilEarlyStart else None;
     prewarms := [];
     logged := [];
     exited := None |}.

(** The body of the [setInterval] callback, run at time [now]. *)
Definition on_interval (now : Z) (g : guard) : guard :=
  let diff := targetDate g - now in
  let g1 :=
    if (Z.rem (diff / 1000) 30 =? 0) && (0 <? diff)
    then log now (Countdown (diff / 1000 / 60) (Z.rem (diff / 1000) 60)) g
    else g in
  if (earlyStartTime g1 <=? now) && negb (hasExecuted g1)
  then log now (StartingPreparation ((targetDate g1 - now) / 1000))
           (fire ByInterval now g1)
  else g1.

(** The body of the backup [setTimeout] callback, run at time [now]. *)
Definition on_backup (now : Z) (g : guard) : guard :=
  if negb (hasExecuted g)
  then fire ByBackup now (log now BackupTimerTriggered g)
  else g.

(** What the runtime can deliver to the handlers of the guard: a tick of
    the interval, the expiry of the backup timer, and the settling of the
    awaited capture ([None] resolved, [Some message] rejected), after which
    the process exits.  The handlers are modelled for log lines that are
    written; the signals of the operating system, which go to the handlers of
    the process, and a log file that cannot be written are inputs of the
    process, see [input] below. *)
Inductive event :=
| Tick (now : Z)
| BackupFires (now : Z)
| CaptureSettles (now : Z) (error : option string).

Definition step (e : event) (g : guard) : guard :=
  match exited g with
  | Some _ => g
  | None =>
    match e with
    | Tick now => if intervalId g then on_interval now g else g
    | BackupFires now =>
        match backupTimer g with
        | Some _ => on_backup now (backup_consumed g)
        | None => g
        end
    | CaptureSettles now error =>
        match prewarms g with
        | [] => g
        | _ :: _ =>
            match error with
            | None => exit 0 (log now Completed g)
            | Some message => exit 1 (log now (FatalError message) g)
            end
        end
    end
  end.

Definition time_of (e : event) : Z :=
  match e with
  | Tick now | BackupFires now | CaptureSettles now _ => now
  end.

Definition run (es : list event) (g : guard) : guard :=
  fold_left (fun g e => step e g) es g.

(** *** The process, its signals and its log file

    [process.on('SIGINT', ...)] and [process.on('SIGTERM', ...)]: the
    handler writes a line to the log and exits with status 0, whatever the
    guard has done so far.  A handler of the guard that cannot write a line
    to the log throws where it calls [log]: before the call of the capture
    routine when the line is one of those that come before it, and in any
    case in an asynchronous callback whose rejection nothing handles, so that
    the runtime ends the process with status 1. *)
Inductive signal := SIGINT | SIGTERM.

Inductive input :=
| Deliver (e : event)
| Signal (now : Z) (s : signal)
| LogFails (now : Z).

Definition on_signal (now : Z) (s : signal) (g : guard) : guard :=
  exit 0 (log now (match s with
                   | SIGINT => InterruptedByUser
                   | SIGTERM => TerminatedBySignal
                   end) g).

Definition process_step (i : input) (g : guard) : guard :=
  match i with
  | Deliver e => step e g
  | Signal now s =>
      match exited g with
      | Some _ => g
      | None => on_signal now s g
      end
  | LogFails now =>
      match exited g with
      | Some _ => g
      | None => exit 1 g
      end
  end.

Definition process_run (inputs : list input) (g : guard) : guard :=
  fold_left (fun g i => process_step i g) inputs g.

(** The events among the inputs that reach the guard: those before the
    first signal or failure. *)
Fixpoint delivered (inputs : list input) : list event :=
  match inputs with
  | [] => []
  | Deliver e :: rest => e :: delivered rest
  | Signal _ _ :: _ | LogFails _ :: _ => []
  end.

(** The three states of the guard (the process exits after the capture
    that the firing started has settled). *)
Inductive phase := Armed | Fired | Terminated.

Definition phase_of (g : guard) : phase :=
  match exited g with
  | Some _ => Terminated
  | None => if hasExecuted g then Fired else Armed
  end.

(** An event that reaches the condition of an armed guard [g]: a tick at or
    after the early start, or the expiry of the backup timer when one was
    set. *)
Definition passes_guard (g : guard) (e : event) : bool :=
  match e with
  | Tick now => earlyStartTime g <=? now
  | BackupFires _ => match backupTimer g with Some _ => true | None => false end
  | CaptureSettles _ _ => false
  end.

(** *** The event loop

    A timer of the runtime is due [Js.timer_delay] of its delay after it was
    set: the interval [checkInterval] ms after the arming and then after
    each of its ticks, the backup timer its delay after the arming, or 1 ms
    after it when the delay is more than [Js.TIMEOUT_MAX].  The loop runs the
    callback that is due first (the interval, created first, when both are
    due at the same instant), never before it is due and never before the
    callback that ran last; [lag n] is the time by which the [n]-th callback
    is late.  With [lag] zero throughout the timers are exact. *)
Record loop := Loop {
  clock : Z;
  served : nat;
  nextTick : Z;
  backupDue : Z;
  armed : guard
}.

Definition boot (target now : Z) : loop :=
  let g := scheduleWithPeriodicChecks target now in
  {| clock := now;
     served := 0;
     nextTick := now + Js.timer_delay checkInterval;
     backupDue := now + Js.timer_delay (default 0 (backupTimer g));
     armed := g |}.

Section Loop.
Variable lag : nat -> Z.

Definition runs_at (l : loop) (due : Z) : Z := Z.max (clock l) due + lag (served l).

Definition turn (l : loop) : option loop :=
  let g := armed l in
  let tick :=
    let now := runs_at l (nextTick l) in
    Some (Loop now (S (served l)) (now + Js.timer_delay checkInterval) (backupDue l)
               (step (Tick now) g)) in
  let backup :=
    let now := runs_at l (backupDue l) in
    Some (Loop now (S (served l)) (nextTick l) (backupDue l)
               (step (BackupFires now) g)) in
  match intervalId g, backupTimer g with
  | true, Some _ => if nextTick l <=? backupDue l then tick else backup
  | true, None => tick
  | false, Some _ => backup
  | false, None => None
  end.

Fixpoint turns (fuel : nat) (l : loop) : loop :=
  match fuel with
  | O => l
  | S fuel' =>
      match turn l with
      | Some l' => turns fuel' l'
      | None => l
      end
  end.
End Loop.

(** *** [main] *)

(** How a call of [main] ends: the process has exited, with what it
    wrote besides the log; or an error thrown by [log] has escaped [main],
    which [main().catch] answers with a line of the log and
    [process.exit(1)] (when that line cannot be written either, the rejection
    is left unhandled, and the runtime, as every version of it since 15
    does, ends the process with status 1 as well); or [main] has returned and
    the process waits for its timers. *)
Inductive outcome :=
| Exited (code : Z) (stdout stderr : list string)
| Failed (message : string)
| Scheduled (g : guard).

Definition status (o : outcome) : option Z :=
  match o with
  | Exited code _ _ => Some code
  | Failed _ => Some 1
  | Scheduled _ => None
  end.

(** The first of the [count] calls of [log] from the [from]-th on that
    throws, with its message. *)
Fixpoint first_throw (log_throws : nat -> option string) (from count : nat)
  : option string :=
  match count with
  | O => None
  | S count' =>
      match log_throws from with
      | Some message => Some message
      | None => first_throw log_throws (S from) count'
      end
  end.

Definition dquote : string := String "034"%char EmptyString.

Definition usage : list string :=
  [ "Usage: node schedule-screenshot.js " +:+ dquote +:+
      "2025-11-28T13:45:00+08:00" +:+ dquote;
    "Format: YYYY-MM-DDTHH:MM:SS+08:00 (Hong Kong timezone)" ]%string.

Section Main.
Variable parse : string -> option Z.
(** [log_throws n] is the message of the error that the [n]-th call of
    [log] in [main] throws, [None] when the line is written: the seven lines
    of the banner and the first line of [scheduleWithPeriodicChecks] come
    before the timers are set, two more lines after. *)
Variable log_throws : nat -> option string.

(** [main()] with [process.argv.slice(2) = args]; [now] is the clock at
    the check for a past time, [now_arm] at the arming. *)
Definition main (args : list string) (now now_arm : Z) : outcome :=
  match args with
  | [] => Exited 0 usage []
  | datetimeString :: _ =>
      if String.eqb datetimeString "--help"
      then Exited 0 usage []
      else
        match parse datetimeString with
        | None =>
            Exited 1 ["Please use format: YYYY-MM-DDTHH:MM:SS+08:00"%string]
                   [("Invalid date/time format: " +:+ datetimeString)%string]
        | Some target =>
            if target <=? now
            then Exited 1 [] ["The specified time is in the past!"%string]
            else
              match first_throw log_throws 0 8 with
              | Some message => Failed message
              | None =>
                  let g := scheduleWithPeriodicChecks target now_arm in
                  match first_throw log_throws 8 2 with
                  | Some message => Failed message
                  | None => Scheduled g
                  end
              end
        end
  end.
End Main.

(** *** The capture routines of the standalone scheduler

    They are the routines of the service with a line of the log file at
    most steps, with the auto-open block after the close, and with a catch
    block that writes the error to the log, closes the browser and throws the
    error again.  [EnsureDir] stands for the whole directory block, with its
    log line; the callbacks that the auto-open block hands to [exec] run
    after the routine has returned and are no part of it. *)

Section Routines.
Import Capture.
Local Open Scope capture_scope.

Variable screenshotPath : string.

Definition scrollCount : nat := 1.

Definition prepare (scrollCount : nat) : M unit :=
  call EnsureDir ;;
  call Launch ;; assign_browser ;;
  call NewContext ;; call NewPage ;;
  call (Log LogNavigating) ;;
  try_catch (call GotoPrimary) (fun _ => call (Log LogRetry) ;; call GotoFallback) ;;
  call Settle ;;
  try_catch (call SwitchLanguage) (fun _ => call (Log LogNoLanguage)) ;;
  try_catch (call SelectExchange) (fun _ => call (Log LogNoExchange)) ;;
  (if (0 <? scrollCount)%nat
   then call (Log LogScrolling) ;; scroll_loop 0 scrollCount ;; call ScrollSettle
   else ret tt).

(** [if (msUntilTarget > 0) { log(...); await new Promise(... setTimeout ...) }]
    and the line that announces the capture. *)
Definition wait_for_target (targetDate : Z) : M unit :=
  now <- read_clock ;;
  let msUntilTarget := targetDate - now in
  (if 0 <? msUntilTarget
   then call (Log LogWaiting) ;; emit (SetTimeout msUntilTarget)
   else ret tt) ;;
  call (Log LogCapturing).

(** The auto-open block after the browser is closed; its catch block
    writes a line to the log. *)
Definition auto_open (filepath : string) : M unit :=
  try_catch (call (AutoOpen filepath)) (fun _ => call (Log LogAutoOpenError)).

(** Overlay, file name, screenshot, log line, close, auto-open: the
    result is the file path. *)
Definition shoot : M string :=
  call Overlay ;; call OverlayRender ;;
  timestamp <- read_stamp ;;
  let filename := screenshot_name timestamp in
  let filepath := Path.join screenshotPath filename in
  call (Screenshot filepath) ;;
  call (Log LogSaved) ;;
  call Close ;;
  auto_open filepath ;;
  ret filepath.

(** The catch block of both routines. *)
Definition on_error (message : string) : M string :=
  call (Log LogError) ;; close_if_open ;; throw message.

(** [takeScreenshot()]: returns the file path. *)
Definition takeScreenshot : M string :=
  call (Log LogStart) ;;
  try_catch (prepare scrollCount ;; shoot) on_error.

(** [takeScreenshotAtExactTime(targetDate)]: as above, with the wait for
    the target between the preparation and the overlay. *)
Definition takeScreenshotAtExactTime (targetDate : Z) : M string :=
  call (Log LogStart) ;;
  try_catch (prepare scrollCount ;; wait_for_target targetDate ;; shoot) on_error.

(** What the handlers of the guard do with the awaited routine:
    [process.exit(0)] when it returns, [process.exit(1)] when it throws. *)
Definition settles (now : Z) (r : res string) : event :=
  match r with
  | Ok _ => CaptureSettles now None
  | Throw message => CaptureSettles now (Some message)
  end.
End Routines.

End Cli.

(** ** The HTTP service, [server.js] *)

Module Server.

Definition PROCESS_DURATION_MS : Z := 15000.
Definition scrollCount : nat := 1.

(** A job of node-schedule is known by the number of its creation. *)
Definition handle := nat.

(** A value of the [scheduledJobs] map.  [datetime] and [scheduled] are the
    instants that the program stores printed by [toISOString]; [job] is what
    [schedule.scheduleJob] returned, [None] for [null]. *)
Record JobInfo := {
  id : string;
  datetime : Z;
  recurring : Js.value;
  scheduled : Z;
  job : option handle
}.

(** The variables of the request that the scheduled callback closes over. *)
Record callback := {
  cb_jobId : string;
  cb_targetDate : Z;
  cb_recurring : Js.value
}.

Record timer := { fireAt : Z; invoke : callback }.

(** The registry, and the scheduling library seen from the program: the
    jobs that wait for their date, the callbacks that run (they await the
    capture), the number of jobs created so far, and whether the process is
    still there. *)
Record state := State {
  scheduledJobs : gmap string JobInfo;
  pending : gmap handle timer;
  running : gmap handle callback;
  created : nat;
  alive : bool
}.

Definition init : state := State ∅ ∅ ∅ 0 true.

(** The end of the process: the registry, the timers and the callbacks
    are gone with it. *)
Definition crash (st : state) : state := State ∅ ∅ ∅ (created st) false.

Inductive payload :=
| Error (error : string)
| Scheduled (jobId : string) (scheduledFor : Z)
| Canceled
| Screenshots (files : list (string * string * Z * Z))
| Captured (filepath filename : string)
| NotCaptured (error : string)
| File (path : string).

Record response := Response { status : Z; body : payload }.

(** [res.json(x)] answers with status 200. *)
Definition json (x : payload) : response := Response 200 x.

(** What a schedule request brings besides the state: the two properties
    of its body (the JSON object that the body parser left in [req.body]),
    the clock where the program reads it, the random part of the job id, and
    whether the library creates the job. *)
Record schedule_request := {
  req_datetime : Js.value;
  req_recurring : Js.value;
  now_checked : Z;        (* [new Date()] of the comparison with the target *)
  now_id : Z;             (* [Date.now()] of the job id *)
  random_id : string;     (* [Math.random().toString(36).substr(2, 9)] *)
  job_created : bool;     (* [schedule.scheduleJob] returns a job, not [null] *)
  now_stored : Z          (* [new Date()] of the [scheduled] field *)
}.

(** [schedule.scheduleJob(date, callback)]. *)
Definition scheduleJob (creates : bool) (date : Z) (cb : callback) (st : state)
  : option handle * state :=
  if creates
  then (Some (created st),
        State (scheduledJobs st) (<[created st := {| fireAt := date; invoke := cb |}]> (pending st))
              (running st) (S (created st)) (alive st))
  else (None, st).

(** [job.cancel()]. *)
Definition cancel (h : handle) (st : state) : state :=
  State (scheduledJobs st) (delete h (pending st)) (running st) (created st) (alive st).

Definition set_job (jobId : string) (info : JobInfo) (st : state) : state :=
  State (<[jobId := info]> (scheduledJobs st)) (pending st) (running st) (created st)
        (alive st).

Definition delete_job (jobId : string) (st : state) : state :=
  State (delete jobId (scheduledJobs st)) (pending st) (running st) (created st)
        (alive st).

Section Service.
Variable parse : string -> option Z.
Variable screenshotPath : string.

(** [POST /api/schedule] for a request whose [req.body] is an object.
    An error thrown in the try block of the handler is answered by its catch
    block with status 500 and the message of the error: here the
    [TypeError] of [new Date(datetime)] for a [datetime] that has no
    primitive value. *)
Definition post_schedule (req : schedule_request) (st : state) : response * state :=
  if negb (Js.truthy (req_datetime req)) then
    (Response 400 (Error "datetime is required"), st)
  else
    match Js.toPrimitive_error (req_datetime req) with
    | Some message => (Response 500 (Error message), st)
    | None =>
    match Js.newDate parse (req_datetime req) with
    | None => (Response 400 (Error "Invalid datetime format"), st)
    | Some targetDate =>
        if targetDate <=? now_checked req then
          (Response 400 (Error "datetime must be in the future"), st)
        else
          let jobId := ("job-" +:+ pretty (now_id req) +:+ "-" +:+ random_id req)%string in
          let earlyStartTime := targetDate - PROCESS_DURATION_MS in
          let '(job, st1) :=
            scheduleJob (job_created req) earlyStartTime
              {| cb_jobId := jobId; cb_targetDate := targetDate;
                 cb_recurring := req_recurring req |} st in
          match job with
          | None => (Response 500 (Error "Failed to schedule job"), st1)
          | Some _ =>
              (json (Scheduled jobId targetDate),
               set_job jobId
                 {| id := jobId; datetime := targetDate;
                    recurring := req_recurring req;
                    scheduled := now_stored req; job := job |} st1)
          end
    end
    end.

(** [POST /api/schedule] for any request: [None] is a request that the
    body parser left without [req.body] (version 5 of the framework leaves
    it undefined when the request has no JSON body); the destructuring of
    the first statement then throws, which the catch block answers. *)
Definition post_schedule_body (body : option schedule_request) (st : state)
  : response * state :=
  match body with
  | None =>
      (Response 500 (Error "Cannot destructure property 'datetime' of 'req.body' as it is undefined."),
       st)
  | Some req => post_schedule req st
  end.

(** [DELETE /api/jobs/:jobId].  A [null] in the [job] field would make
    [jobInfo.job.cancel()] throw, which the framework answers with 500. *)
Definition delete_jobs (jobId : string) (st : state) : response * state :=
  match scheduledJobs st !! jobId with
  | None => (Response 404 (Error "Job not found"), st)
  | Some jobInfo =>
      match job jobInfo with
      | None => (Response 500 (Error "Cannot read properties of null"), st)
      | Some h => (json Canceled, delete_job jobId (cancel h st))
      end
  end.

(** *** The capture routines *)

Import Capture.
Local Open Scope capture_scope.

(** [takeScreenshot()]. *)
Definition takeScreenshot : M CaptureResult :=
  try_catch
    (prepare scrollCount ;;
     shot <- shoot screenshotPath ;;
     ret (succeeded (fst shot) (snd shot)))
    (fun message => close_if_open ;; ret (failed message)).

(** [takeScreenshotAtExactTime(targetDate)]. *)
Definition takeScreenshotAtExactTime (targetDate : Z) : M CaptureResult :=
  try_catch
    (prepare scrollCount ;;
     wait_for_target targetDate ;;
     shot <- shoot screenshotPath ;;
     ret (succeeded (fst shot) (snd shot)))
    (fun message => close_if_open ;; ret (failed message)).

(** [POST /api/screenshot/now]: the handler's own try block answers 500
    when the routine throws. *)
Definition post_now (e : env) : response :=
  match fst (takeScreenshot e start) with
  | Ok result =>
      if success result
      then json (Captured (default ""%string (Capture.filepath result))
                          (default ""%string (Capture.filename result)))
      else Response 500 (NotCaptured (default ""%string (error result)))
  | Throw message => Response 500 (Error message)
  end.

(** *** The scheduled callback

    The library takes the job off its pending list and runs the callback,
    which awaits the capture; when the capture returns, the job leaves the
    registry unless it is recurring.  When the awaited routine throws, the
    rest of the callback does not run: [job_completes] is what the callback
    itself has done when it ends.  Its promise is then rejected, and the
    library, which has no listener for the error, lets the rejection end the
    process: [settle] is what is left of the service. *)
Definition job_fires (h : handle) (st : state) : state :=
  match pending st !! h with
  | Some t =>
      State (scheduledJobs st) (delete h (pending st))
            (<[h := invoke t]> (running st)) (created st) (alive st)
  | None => st
  end.

Definition job_completes (h : handle) (r : res CaptureResult) (st : state) : state :=
  match running st !! h with
  | Some cb =>
      let st' := State (scheduledJobs st) (pending st) (delete h (running st)) (created st)
                       (alive st) in
      match r with
      | Ok _ =>
          if negb (Js.truthy (cb_recurring cb))
          then delete_job (cb_jobId cb) st'
          else st'
      | Throw _ => st'
      end
  | None => st
  end.

Definition settle (h : handle) (r : res CaptureResult) (st : state) : state :=
  match running st !! h, r with
  | Some _, Throw _ => crash (job_completes h r st)
  | _, _ => job_completes h r st
  end.

(** *** Screenshots on disk *)

(** An entry of the output directory with what [fs.statSync] tells. *)
Record dirent := { name : string; birthtime : Z; size : Z }.

Definition is_screenshot (file : string) : bool :=
  Str.startsWith file "screenshot-" && Str.endsWith file ".png".

(** [Array.prototype.sort(compare)]: a stable sort; [x] goes before the
    first element it does not compare greater than. *)
Fixpoint insert_sorted {A} (compare : A -> A -> Z) (x : A) (l : list A) : list A :=
  match l with
  | [] => [x]
  | y :: l' =>
      if compare x y <=? 0 then x :: y :: l'
      else y :: insert_sorted compare x l'
  end.

Definition sort {A} (compare : A -> A -> Z) (l : list A) : list A :=
  foldr (insert_sorted compare) [] l.

(** The order of the listing: newest first. *)
Definition newest_first {A} (key : A -> Z) (a b : A) : Prop := key b <= key a.

(** The object built for a file: [filename], [path], [created], [size]. *)
Definition describe (d : dirent) : string * string * Z * Z :=
  (name d, Path.join screenshotPath (name d), birthtime d, size d).

Definition created_of (f : string * string * Z * Z) : Z := snd (fst f).
Definition filename_of (f : string * string * Z * Z) : string := fst (fst (fst f)).
Definition size_of (f : string * string * Z * Z) : Z := snd f.

(** [GET /api/screenshots]; [dir] is [None] when the output directory
    does not exist, and the entries [fs.readdirSync] lists otherwise. *)
Definition get_screenshots (dir : option (list dirent)) : response :=
  match dir with
  | None => json (Screenshots [])
  | Some entries =>
      json (Screenshots
              (sort (fun a b => created_of b - created_of a)
                 (map describe (List.filter (fun d => is_screenshot (name d)) entries))))
  end.

(** [GET /api/screenshot/:filename]; [exists_] is [fs.existsSync].
    [res.sendFile] takes an absolute path and throws on another, which the
    handler's try block answers with 500. *)
Definition get_screenshot (exists_ : string -> bool) (filename : string) : response :=
  let filepath := Path.join screenshotPath filename in
  if negb (exists_ filepath) then Response 404 (Error "Screenshot not found")
  else if Path.isAbsolute filepath then json (File filepath)
  else Response 500 (Error "path must be absolute or specify root to res.sendFile").

(** *** The service as a transition system *)

(** What happens to the service: requests, the expiry of a job's timer,
    and the end of a job's callback.  Nothing happens to a process that has
    ended. *)
Inductive action :=
| PostSchedule (req : schedule_request)
| PostScheduleNoBody
| DeleteJob (jobId : string)
| JobFires (h : handle)
| JobCompletes (h : handle) (r : res CaptureResult).

Definition act (a : action) (st : state) : state :=
  if alive st then
    match a with
    | PostSchedule req => snd (post_schedule_body (Some req) st)
    | PostScheduleNoBody => snd (post_schedule_body None st)
    | DeleteJob jobId => snd (delete_jobs jobId st)
    | JobFires h => job_fires h st
    | JobCompletes h r => settle h r st
    end
  else st.

Definition after (actions : list action) : state :=
  fold_left (fun st a => act a st) actions init.
End Service.

(** Every entry of the registry holds a job that the library created. *)
Definition handles_created (st : state) : Prop :=
  forall jobId info, scheduledJobs st !! jobId = Some info ->
    exists h, job info = Some h /\ (h < created st)%nat.

(** Every entry of the registry holds a job that still waits for its date. *)
Definition handles_pending (st : state) : Prop :=
  forall jobId info, scheduledJobs st !! jobId = Some info ->
    exists h, job info = Some h /\ is_Some (pending st !! h).

End Server.

(** ** Sample inputs *)

Module Samples.

(** Two o'clock in the afternoon of 28 November 2025 in Hong Kong, as the
    user writes it and as milliseconds since the epoch. *)
Definition two_pm : string := "2025-11-28T14:00:00+08:00".
Definition two_pm_ms : Z := 1764309600000.

(** A [Date.parse] that knows this one string. *)
Definition parse_two_pm : string -> option Z :=
  fun s => if String.eqb s two_pm then Some two_pm_ms else None.

(** A request of the documented shape for two o'clock, received at [now]. *)
Definition request (recurring : bool) (now : Z) (creates : bool)
  : Server.schedule_request :=
  {| Server.req_datetime := Js.JStr two_pm;
     Server.req_recurring := Js.JBool recurring;
     Server.now_checked := now; Server.now_id := now;
     Server.random_id := "k3x9q0z1a";
     Server.job_created := creates; Server.now_stored := now |}.


(** A world in which no call throws, with the page ready one second before
    the target 1764309600000. *)
Definition calm : Capture.env :=
  Capture.Env (fun _ => None) 1764309599000 "2025-11-28T06-00-00-004Z".

(** A world in which the browser cannot be launched. *)
Definition no_browser : Capture.env :=
  Capture.Env (fun c => match c with
                        | Capture.Launch => Some "browserType.launch: Executable does not exist"%string
                        | _ => None
                        end)
              1764309599000 "2025-11-28T06-00-00-004Z".

Definition a_result : Capture.CaptureResult :=
  Capture.succeeded "/home/u/Desktop/screenshots/screenshot-2025-11-28T06-00-00-004Z.png"
                    "screenshot-2025-11-28T06-00-00-004Z.png".

End Samples.

(** ** The remaining endpoints of [server.js] *)

Module Api.

(** What [GET /api/jobs] shows of an entry: everything but the job. *)
Record job_view := {
  v_id : string;
  v_datetime : Z;
  v_recurring : Js.value;
  v_scheduled : Z
}.

Definition view (job : Server.JobInfo) : job_view :=
  {| v_id := Server.id job; v_datetime := Server.datetime job;
     v_recurring := Server.recurring job; v_scheduled := Server.scheduled job |}.

(** [GET /api/jobs]: the status and the [jobs] array.  The registry is a
    finite map here, so the array comes in the map's order of keys and not in
    the order of insertion that a JavaScript [Map] keeps. *)
Definition get_jobs (st : Server.state) : Z * list job_view :=
  (200, map view (map snd (map_to_list (Server.scheduledJobs st)))).

(** The id that [POST /api/schedule] makes for a request, the entry it
    stores for the target [t] and the job [h], and the timer it asks for. *)
Definition job_id (req : Server.schedule_request) : string :=
  ("job-" +:+ pretty (Server.now_id req) +:+ "-" +:+ Server.random_id req)%string.

Definition entry (req : Server.schedule_request) (t : Z) (h : Server.handle)
  : Server.JobInfo :=
  {| Server.id := job_id req; Server.datetime := t;
     Server.recurring := Server.req_recurring req;
     Server.scheduled := Server.now_stored req; Server.job := Some h |}.

Definition timer_of (req : Server.schedule_request) (t : Z) : Server.timer :=
  {| Server.fireAt := t - Server.PROCESS_DURATION_MS;
     Server.invoke := {| Server.cb_jobId := job_id req;
                         Server.cb_targetDate := t;
                         Server.cb_recurring := Server.req_recurring req |} |}.

(** Every job waiting or running was created, no job both waits and runs,
    and every entry of the registry is stored under its own id. *)
Definition consistent (st : Server.state) : Prop :=
  (forall h, is_Some (Server.pending st !! h) -> (h < Server.created st)%nat) /\
  (forall h, is_Some (Server.running st !! h) -> (h < Server.created st)%nat) /\
  (forall h, is_Some (Server.pending st !! h) -> Server.running st !! h = None) /\
  (forall jobId info, Server.scheduledJobs st !! jobId = Some info ->
                      Server.id info = jobId).

End Api.

(** ** File names and the overlay text *)

Module Naming.

(** [s.replace(/[:.]/g, '-')]. *)
Fixpoint dashed (s : string) : string :=
  match s with
  | EmptyString => EmptyString
  | String c s' =>
      String (if Ascii.eqb c ":" || Ascii.eqb c "." then "-"%char else c) (dashed s')
  end.

(** [n.toString().padStart(2, '0')] for an integer [n]. *)
Definition pad2 (n : Z) : string :=
  let digits := pretty n in
  if (String.length digits <? 2)%nat then ("0" +:+ digits)%string else digits.

(** The two lines of the overlay, from the fields of the capture time
    ([month] counts from zero). *)
Definition dateLine (year month day : Z) : string :=
  (pretty year +:+ "-" +:+ pad2 (month + 1) +:+ "-" +:+ pad2 day)%string.

Definition timeLine (hours minutes seconds : Z) : string :=
  (pad2 hours +:+ ":" +:+ pad2 minutes +:+ ":" +:+ pad2 seconds)%string.

End Naming.

(** ** The daily service, [index.js] *)

Module Index.

Definition msPerDay : Z := 86400000.

(** [s.split(sep)] for a separator of one character. *)
Fixpoint split (sep : ascii) (s : string) : list string :=
  match s with
  | EmptyString => [EmptyString]
  | String c s' =>
      if Ascii.eqb c sep then EmptyString :: split sep s'
      else match split sep s' with
           | [] => [String c EmptyString]
           | part :: parts => String c part :: parts
           end
  end.

Section Time.
(** [Number(s)] as [setHours] reads it: the integral part of the number,
    [None] when it is [NaN] or infinite. *)
Variable toInteger : string -> option Z.

(** [parseTime(timeString)]: the first three parts of the string; a part
    that is missing is [undefined], which [setHours] reads as [NaN]. *)
Definition parseTime (timeString : string) : option Z * option Z * option Z :=
  let parts := map toInteger (split ":" timeString) in
  (mjoin (parts !! 0%nat), mjoin (parts !! 1%nat), mjoin (parts !! 2%nat)).

(** [getMillisecondsUntilTime(targetTime)] at the instant [now] of a day
    that began at [today] (local midnight), in a zone whose offset does not
    change from today to tomorrow: [setHours] counts from midnight, and
    [setDate(getDate() + 1)] adds one day.  [None] is [NaN]. *)
Definition getMillisecondsUntilTime (today now : Z) (targetTime : string) : option Z :=
  match parseTime targetTime with
  | (Some hours, Some minutes, Some seconds) =>
      match Js.TimeClip (today + hours * 3600000 + minutes * 60000 + seconds * 1000) with
      | Some target =>
          if target <=? now
          then match Js.TimeClip (target + msPerDay) with
               | Some tomorrow => Some (tomorrow - now)
               | None => None
               end
          else Some (target - now)
      | None => None
      end
  | _ => None
  end.
End Time.

Inductive outcome :=
| Exited (code : Z) (stdout stderr : list string)
| TimerSet (ms : Z).

Section At.
Variable parse : string -> option Z.

(** [scheduleAtSpecificTime(datetimeString)] at the instant [now]. *)
Definition scheduleAtSpecificTime (datetimeString : string) (now : Z) : outcome :=
  match parse datetimeString with
  | None =>
      Exited 1 ["Please use format: YYYY-MM-DD HH:MM:SS"%string]
             [("Invalid date/time format: " +:+ datetimeString)%string]
  | Some targetDate =>
      let msUntil := targetDate - now in
      if msUntil <? 0
      then Exited 1 [] ["The specified time is in the past!"%string]
      else TimerSet msUntil
  end.
End At.

(** [argv.indexOf(x)], [None] for -1. *)
Fixpoint indexOf (x : string) (argv : list string) : option nat :=
  match argv with
  | [] => None
  | a :: rest =>
      if String.eqb a x then Some 0%nat
      else match indexOf x rest with
           | Some i => Some (S i)
           | None => None
           end
  end.

(** The three branches of [main]. *)
Inductive mode :=
| TestMode
| AtTime (datetimeString : string)
| Daily.

(** The choice that [main] makes from [process.argv]. *)
Definition mode_of (argv : list string) : mode :=
  let isTestMode := existsb (fun a => String.eqb a "--test") argv in
  let atIndex := indexOf "--at" argv in
  let customTime :=
    match atIndex with
    | Some i =>
        match argv !! (i + 1)%nat with
        | Some datetimeString =>
            if String.eqb datetimeString "" then None else Some datetimeString
        | None => None
        end
    | None => None
    end in
  if isTestMode then TestMode
  else match customTime with
       | Some datetimeString => AtTime datetimeString
       | None => Daily
       end.

(** The callback of the timer that [scheduleNextScreenshot] sets: the
    capture inside a try block that logs what it throws, then
    [scheduleNextScreenshot()] again, which sets the next timer.  [capture]
    is [takeScreenshot] and [msUntilTime] the delay of the next timer. *)
Definition on_daily_timer (capture : Capture.M string) (msUntilTime : Z)
  : Capture.M unit :=
  Capture.bind
    (Capture.try_catch (Capture.bind capture (fun _ => Capture.ret tt))
                       (fun _ => Capture.ret tt))
    (fun _ => Capture.emit (Capture.SetTimeout msUntilTime)).

End Index.

(** ** The page of the service, [public/app.js] *)

Module Ui.

(** The hours and minutes that [scheduleScreenshot] shows for a delay of
    [ms] milliseconds, and whether the hours are shown. *)
Definition timeFromNow (ms : Z) : Z := ms / 1000.
Definition hours_of (ms : Z) : Z := timeFromNow ms / 3600.
Definition minutes_of (ms : Z) : Z := Z.rem (timeFromNow ms) 3600 / 60.

Definition timeMsg (ms : Z) : string :=
  if 0 <? hours_of ms
  then (pretty (hours_of ms) +:+ "h " +:+ pretty (minutes_of ms) +:+ "m from now")%string
  else (pretty (minutes_of ms) +:+ "m from now")%string.

End Ui.

(** ** What the guard's log and starts may hold *)

Module Watch.

(** A line of the log of a guard for [target]: a countdown is written for
    a positive remaining time, on a multiple of 30 seconds, with the minutes
    and seconds that remain; the announced lead of a start by the interval
    is the whole seconds left, never more than 15. *)
Definition line_ok (target : Z) (entry : Z * Cli.log_line) : Prop :=
  match entry with
  | (t, Cli.Countdown minutes seconds) =>
      0 < target - t /\ (seconds = 0 \/ seconds = 30) /\ 0 <= minutes /\
      60 * minutes + seconds = (target - t) / 1000
  | (t, Cli.StartingPreparation seconds) =>
      seconds = (target - t) / 1000 /\ seconds <= 15
  | _ => True
  end.

(** A start of the preparation by a guard armed at [now] for [target]: the
    interval starts it at or after the early start, the backup timer only
    when the early start was ahead at the arming. *)
Definition start_ok (target now : Z) (start : Cli.trigger * Z) : Prop :=
  match start with
  | (Cli.ByInterval, t) => target - Cli.PROCESS_DURATION_MS <= t
  | (Cli.ByBackup, _) => now < target - Cli.PROCESS_DURATION_MS
  end.

(** The handlers of the guard have ended the process only after a start,
    with status 0 after the line of completion and status 1 after the line
    of the fatal error. *)
Definition exit_ok (g : Cli.guard) : Prop :=
  match Cli.exited g with
  | None => True
  | Some code =>
      Cli.prewarms g <> [] /\
      match Cli.logged g with
      | (_, Cli.Completed) :: _ => code = 0
      | (_, Cli.FatalError _) :: _ => code = 1
      | _ => False
      end
  end.

(** What every step of a guard armed at [now] for [target] keeps. *)
Definition watched (target now : Z) (g : Cli.guard) : Prop :=
  Cli.targetDate g = target /\
  Cli.earlyStartTime g = target - Cli.PROCESS_DURATION_MS /\
  (Cli.backupTimer g = None \/ now < target - Cli.PROCESS_DURATION_MS) /\
  Forall (line_ok target) (Cli.logged g) /\
  Forall (start_ok target now) (Cli.prewarms g) /\
  exit_ok g.

End Watch.

(** ** What a capture leaves of the browser *)

Module Browser.
Import Capture.

(** Whether a routine of the service returned a result of success, and
    whether a routine of the standalone scheduler returned. *)
Definition server_ok (r : res CaptureResult) : bool :=
  match r with
  | Ok result => success result
  | Throw _ => false
  end.

Definition cli_ok (r : res string) : bool :=
  match r with
  | Ok _ => true
  | Throw _ => false
  end.

(** The calls of [browser.close()] in a trace. *)
Definition closes (t : list effect) : list effect :=
  List.filter (fun x => match x with
                        | Call Close | Call CloseAfterError => true
                        | _ => false
                        end) t.

(** A run with trace [t], under the environment [e], has released the
    browser: once launched, the browser is closed; with no browser, nothing
    is closed; a run that tells success has closed it once, in the try
    block, without error; and the catch block closes it a second time only
    after the close of the try block has thrown. *)
Definition released (e : env) (ok : bool) (t : list effect) : Prop :=
  (throws e EnsureDir = None -> throws e Launch = None -> closes t <> []) /\
  (throws e EnsureDir <> None \/ throws e Launch <> None -> closes t = []) /\
  (ok = true -> closes t = [Call Close] /\ throws e Close = None) /\
  (closes t = [] \/ closes t = [Call Close] \/ closes t = [Call CloseAfterError] \/
   closes t = [Call Close; Call CloseAfterError]) /\
  (closes t = [Call Close; Call CloseAfterError] -> throws e Close <> None).

(** The same for a routine of the standalone scheduler, whose catch
    block writes to the log before it closes the browser: the browser is
    closed once launched provided that this line is written, and it is left
    open otherwise; and the catch block closes it a second time also when the
    auto-open block and the line of its catch block have thrown after the
    close. *)
Definition released_cli (e : env) (ok : bool) (t : list effect) : Prop :=
  (throws e (Log LogStart) = None -> throws e EnsureDir = None ->
   throws e Launch = None -> throws e (Log LogError) = None -> closes t <> []) /\
  (throws e (Log LogStart) <> None \/ throws e EnsureDir <> None \/
   throws e Launch <> None -> closes t = []) /\
  (ok = true -> closes t = [Call Close] /\ throws e Close = None) /\
  (closes t = [] \/ closes t = [Call Close] \/ closes t = [Call CloseAfterError] \/
   closes t = [Call Close; Call CloseAfterError]) /\
  (closes t = [Call Close; Call CloseAfterError] ->
   throws e Close <> None \/
   exists filepath,
     throws e (AutoOpen filepath) <> None /\ throws e (Log LogAutoOpenError) <> None) /\
  (ok = false -> throws e (Log LogStart) = None -> throws e EnsureDir = None ->
   throws e Launch = None -> throws e (Log LogError) <> None ->
   closes t = [] \/ closes t = [Call Close]).

(** A computation that neither assigns nor closes the browser. *)
Definition inert {A} (m : M A) : Prop :=
  forall e st,
    browser (snd (m e st)) = browser st /\
    closes (trace (snd (m e st))) = closes (trace st).

End Browser.

(** * Verification *)

Example join_plain :
  Path.join "/home/u/Desktop/screenshots" "screenshot-2025-11-28T05-36-11-833Z.png"
  = "/home/u/Desktop/screenshots/screenshot-2025-11-28T05-36-11-833Z.png"%string.
Proof. reflexivity. Qed.

Example join_climbs :
  Path.join "/home/u/Desktop/screenshots" "../../.bashrc/./x//y/" = "/home/u/.bashrc/x/y/"%string.
Proof. reflexivity. Qed.

Example join_relative : Path.join "shots/.." "../a" = "../a"%string.
Proof. reflexivity. Qed.

Example ends_with_png :
  Str.endsWith "screenshot-1.png" ".png" = true /\ Str.endsWith "png" ".png" = false.
Proof. split; reflexivity. Qed.


(** ** The dual-timer guard *)

Section GuardFacts.
Import Cli.

Lemma phase_armed g :
  phase_of g = Armed <-> exited g = None /\ hasExecuted g = false.
Proof.
  unfold phase_of. destruct (exited g), (hasExecuted g); split;
    (intros [? ?] || intros ?); try split; congruence.
Qed.

Lemma phase_fired g :
  phase_of g = Fired <-> exited g = None /\ hasExecuted g = true.
Proof.
  unfold phase_of. destruct (exited g), (hasExecuted g); split;
    (intros [? ?] || intros ?); try split; congruence.
Qed.

(** An armed guard that receives an event which does not pass its
    condition stays armed, with the same timers and no preparation
    started. *)
Lemma step_armed_stays e g :
  phase_of g = Armed -> intervalId g = true -> prewarms g = [] ->
  passes_guard g e = false ->
  phase_of (step e g) = Armed /\ intervalId (step e g) = true /\
  prewarms (step e g) = [] /\
  backupTimer (step e g) = backupTimer g /\
  earlyStartTime (step e g) = earlyStartTime g.
Proof.
  intros Hp Hi Hw He. apply phase_armed in Hp as [Hx Hh].
  unfold step, phase_of. rewrite Hx.
  destruct e as [now|now|now err]; cbn in He.
  - rewrite Hi. unfold on_interval.
    destruct ((Z.rem _ 30 =? 0) && _); cbn; rewrite He; cbn;
      rewrite Hx, Hh; auto.
  - destruct (backupTimer g) eqn:Hb; [discriminate|]. rewrite Hx, Hh, Hb.
    split_and!; auto.
  - rewrite Hw, Hx, Hh. split_and!; auto.
Qed.

(** An armed guard that receives an event which passes its condition
    fires: one preparation is started and the interval is cleared. *)
Lemma step_armed_fires e g :
  phase_of g = Armed -> intervalId g = true -> prewarms g = [] ->
  passes_guard g e = true ->
  phase_of (step e g) = Fired /\
  map snd (prewarms (step e g)) = [time_of e] /\
  intervalId (step e g) = false.
Proof.
  intros Hp Hi Hw He. apply phase_armed in Hp as [Hx Hh].
  unfold step, phase_of. rewrite Hx.
  destruct e as [now|now|now err]; cbn in He.
  - rewrite Hi. unfold on_interval.
    destruct ((Z.rem _ 30 =? 0) && _); cbn; rewrite He, Hh; cbn;
      rewrite Hx, Hw; auto.
  - destruct (backupTimer g); [|discriminate].
    unfold on_backup; cbn. rewrite Hh; cbn. rewrite Hx, Hw. auto.
  - discriminate.
Qed.

(** Once the flag is set no event starts a preparation: the interval is
    gone, the backup timer finds the flag, and the settling of the capture
    only ends the process. *)
Lemma step_after_fire e g :
  hasExecuted g = true -> intervalId g = false ->
  hasExecuted (step e g) = true /\ intervalId (step e g) = false /\
  prewarms (step e g) = prewarms g.
Proof.
  intros Hh Hi. unfold step.
  destruct (exited g); [auto|].
  destruct e as [now|now|now err].
  - rewrite Hi. auto.
  - destruct (backupTimer g); [|auto].
    unfold on_backup; cbn. rewrite Hh. cbn. auto.
  - destruct (prewarms g) eqn:Hw; [auto|]. destruct err; cbn; rewrite ?Hw; auto.
Qed.

Lemma run_after_fire es g :
  hasExecuted g = true -> intervalId g = false ->
  prewarms (run es g) = prewarms g /\
  hasExecuted (run es g) = true /\ intervalId (run es g) = false.
Proof.
  revert g. induction es as [|e es IH]; intros g Hh Hi; [auto|].
  cbn. destruct (step_after_fire e g Hh Hi) as (Hh' & Hi' & Hw).
  fold (run es (step e g)). rewrite <- Hw. now apply IH.
Qed.

Lemma run_app es1 es2 g : run (es1 ++ es2) g = run es2 (run es1 g).
Proof. unfold run. apply fold_left_app. Qed.

(** From an armed guard, any sequence of events starts at most one
    preparation, and exactly one when some event passes the condition. *)
Lemma run_armed es g :
  phase_of g = Armed -> intervalId g = true -> prewarms g = [] ->
  (length (prewarms (run es g)) <= 1)%nat /\
  (existsb (passes_guard g) es = true ->
   length (prewarms (run es g)) = 1%nat /\
   hasExecuted (run es g) = true /\ intervalId (run es g) = false) /\
  (existsb (passes_guard g) es = false -> prewarms (run es g) = []).
Proof.
  revert g. induction es as [|e es IH]; intros g Hp Hi Hw.
  - cbn. rewrite Hw. split_and!; [auto| discriminate | auto].
  - cbn. fold (run es (step e g)).
    destruct (passes_guard g e) eqn:He.
    + destruct (step_armed_fires e g Hp Hi Hw He) as (Hp' & Hl & Hi').
      apply phase_fired in Hp' as [_ Hh].
      destruct (run_after_fire es _ Hh Hi') as (-> & Hh2 & Hi2).
      apply (f_equal (@length Z)) in Hl. rewrite length_map in Hl.
      rewrite Hl. cbn. split_and!; [auto | auto | discriminate].
    + destruct (step_armed_stays e g Hp Hi Hw He) as (Hp' & Hi' & Hw' & Hb & Hearly).
      destruct (IH _ Hp' Hi' Hw') as (H1 & H2 & H3).
      assert (Hsame : forall e', passes_guard (step e g) e' = passes_guard g e').
      { intros [n|n|n r]; cbn; rewrite ?Hb, ?Hearly; reflexivity. }
      assert (Hex : existsb (passes_guard (step e g)) es = existsb (passes_guard g) es).
      { clear -Hsame. induction es; cbn; [reflexivity|]. now rewrite Hsame, IHes. }
      rewrite Hex in H2, H3. cbn. split_and!; auto.
Qed.

Lemma armed_initially target now :
  let g := scheduleWithPeriodicChecks target now in
  phase_of g = Armed /\ intervalId g = true /\ prewarms g = [].
Proof. cbn. auto. Qed.

(** *** The process and its signals *)

Lemma process_exited inputs g :
  exited g <> None -> process_run inputs g = g.
Proof.
  intros Hx. induction inputs as [|i inputs IH]; [reflexivity|].
  cbn. fold (process_run inputs (process_step i g)).
  assert (Hstep : process_step i g = g).
  { destruct i as [e|now s|now]; cbn; unfold step;
      destruct (exited g); try reflexivity; contradiction. }
  now rewrite Hstep.
Qed.

(** What the guard has started under signals is what it has started
    under the events that reached it before the first signal. *)
Lemma process_run_delivered inputs : forall g,
  prewarms (process_run inputs g) = prewarms (run (delivered inputs) g).
Proof.
  induction inputs as [|i inputs IH]; intros g; [reflexivity|].
  destruct i as [e|now s|now]; cbn.
  - fold (process_run inputs (step e g)). fold (run (delivered inputs) (step e g)).
    apply IH.
  - fold (process_run inputs (match exited g with
                              | Some _ => g
                              | None => on_signal now s g
                              end)).
    destruct (exited g) eqn:Hx.
    + rewrite process_exited; [reflexivity|congruence].
    + rewrite process_exited; [reflexivity|discriminate].
  - fold (process_run inputs (match exited g with
                              | Some _ => g
                              | None => exit 1 g
                              end)).
    destruct (exited g) eqn:Hx.
    + rewrite process_exited; [reflexivity|congruence].
    + rewrite process_exited; [reflexivity|discriminate].
Qed.

(** *** The event loop *)

Section LoopFacts.
Variable lag : nat -> Z.
Hypothesis lag_nonneg : forall n, 0 <= lag n.

Lemma turns_after_fire fuel l :
  hasExecuted (armed l) = true -> intervalId (armed l) = false ->
  prewarms (armed (turns lag fuel l)) = prewarms (armed l).
Proof.
  revert l. induction fuel as [|fuel IH]; intros l Hh Hi; [reflexivity|].
  cbn. unfold turn. rewrite Hi.
  destruct (backupTimer (armed l)); [|reflexivity].
  destruct (step_after_fire (BackupFires (runs_at lag l (backupDue l))) _ Hh Hi)
    as (Hh' & Hi' & Hw).
  rewrite IH; cbn; auto.
Qed.

(** A turn of the loop on which the delivered event passes the guard:
    the preparation starts at the time of that event and nothing later
    adds to it. *)
Lemma fired_turn fuel e l c n nt :
  phase_of (armed l) = Armed -> intervalId (armed l) = true ->
  prewarms (armed l) = [] -> passes_guard (armed l) e = true ->
  map snd (prewarms (armed (turns lag fuel (Loop c n nt (backupDue l) (step e (armed l))))))
  = [time_of e].
Proof.
  intros Hp Hi Hw He.
  destruct (step_armed_fires e _ Hp Hi Hw He) as (Hp' & Ht & Hi').
  apply phase_fired in Hp' as [_ Hh].
  rewrite turns_after_fire; cbn; auto.
Qed.

(** While the early start is ahead and the backup timer is due at it,
    the loop starts the preparation at the early start or later, never
    before: ticks before it leave the guard armed, and the backup timer, or
    a tick that runs at or after the early start, fires it.  With exact
    timers the preparation starts at the early start exactly. *)
Lemma turns_fire_at_early n : forall fuel l d,
  (n < fuel)%nat ->
  phase_of (armed l) = Armed -> intervalId (armed l) = true ->
  prewarms (armed l) = [] ->
  backupTimer (armed l) = Some d ->
  backupDue l = earlyStartTime (armed l) ->
  clock l < earlyStartTime (armed l) ->
  earlyStartTime (armed l) < nextTick l + checkInterval * Z.of_nat n ->
  exists t,
    map snd (prewarms (armed (turns lag fuel l))) = [t] /\
    earlyStartTime (armed l) <= t /\
    ((forall k, lag k = 0) -> t = earlyStartTime (armed l)).
Proof.
  induction n as [|n IH]; intros fuel l d Hlt Hp Hi Hw Hb Hdue Hclock Hnear;
    (destruct fuel as [|fuel]; [lia|]);
    cbn [turns]; unfold turn; rewrite Hi, Hb;
    pose proof (lag_nonneg (served l)) as Hlag;
    (destruct (nextTick l <=? backupDue l) eqn:Hc;
     [ apply Z.leb_le in Hc | apply Z.leb_gt in Hc ]).
  - unfold checkInterval in *. lia.
  - exists (runs_at lag l (backupDue l)). split_and!.
    + apply (fired_turn fuel (BackupFires (runs_at lag l (backupDue l)))); auto.
      cbn. now rewrite Hb.
    + unfold runs_at. lia.
    + intros Hexact. unfold runs_at. rewrite Hexact. lia.
  - destruct (Z_le_gt_dec (earlyStartTime (armed l)) (runs_at lag l (nextTick l)))
      as [Hpass|Hstay].
    + exists (runs_at lag l (nextTick l)). split_and!.
      * apply (fired_turn fuel (Tick (runs_at lag l (nextTick l)))); auto.
        cbn. now apply Z.leb_le.
      * exact Hpass.
      * intros Hexact. unfold runs_at in *. rewrite Hexact in *. lia.
    + assert (He : passes_guard (armed l) (Tick (runs_at lag l (nextTick l))) = false).
      { cbn. apply Z.leb_gt. lia. }
      destruct (step_armed_stays _ _ Hp Hi Hw He) as (Hp' & Hi' & Hw' & Hb' & He').
      rewrite <- He'.
      apply (IH fuel (Loop _ _ _ _ _) d); cbn [armed nextTick backupDue clock];
        rewrite ?He', ?Hb'; auto; try lia.
      change (Js.timer_delay checkInterval) with 1000.
      unfold runs_at, checkInterval in *. lia.
  - exists (runs_at lag l (backupDue l)). split_and!.
    + apply (fired_turn fuel (BackupFires (runs_at lag l (backupDue l)))); auto.
      cbn. now rewrite Hb.
    + unfold runs_at. lia.
    + intros Hexact. unfold runs_at. rewrite Hexact. lia.
Qed.

(** When the early start has passed at the arming there is no backup
    timer, and the first tick of the interval starts the preparation. *)
Lemma turns_fire_late fuel target now :
  target - PROCESS_DURATION_MS <= now -> (0 < fuel)%nat ->
  map snd (prewarms (armed (turns lag fuel (boot target now))))
  = [now + checkInterval + lag 0%nat].
Proof.
  intros Hlate Hf. destruct fuel as [|fuel]; [lia|].
  cbn [turns]. unfold turn, boot. cbn [armed nextTick backupDue clock served].
  assert (Hb : backupTimer (scheduleWithPeriodicChecks target now) = None).
  { cbn. destruct (0 <? _) eqn:H0; [apply Z.ltb_lt in H0; lia | reflexivity]. }
  rewrite Hb. cbn [intervalId scheduleWithPeriodicChecks].
  pose proof (lag_nonneg 0) as Hlag.
  assert (Hat : runs_at lag
                  {| clock := now; served := 0;
                     nextTick := now + Js.timer_delay checkInterval;
                     backupDue := now + Js.timer_delay (default 0 None);
                     armed := scheduleWithPeriodicChecks target now |}
                  (now + Js.timer_delay checkInterval)
                = now + checkInterval + lag 0%nat).
  { unfold runs_at. cbn [clock served]. change (Js.timer_delay checkInterval) with 1000.
    unfold checkInterval. lia. }
  rewrite Hat.
  replace [now + checkInterval + lag 0%nat]
    with [time_of (Tick (now + checkInterval + lag 0%nat))] by reflexivity.
  apply (fired_turn fuel (Tick (now + checkInterval + lag 0%nat))
           (Loop now 0 (now + Js.timer_delay checkInterval)
                 (now + Js.timer_delay (default 0 None))
                 (scheduleWithPeriodicChecks target now))); auto.
  cbn. apply Z.leb_le. unfold checkInterval, PROCESS_DURATION_MS in *. lia.
Qed.

(** When the early start is more than [Js.TIMEOUT_MAX] ms ahead, the
    backup timer is due 1 ms after the arming and starts the preparation
    then. *)
Lemma turns_fire_overflow fuel target now :
  Js.TIMEOUT_MAX < target - PROCESS_DURATION_MS - now -> (0 < fuel)%nat ->
  map snd (prewarms (armed (turns lag fuel (boot target now))))
  = [now + 1 + lag 0%nat].
Proof.
  intros Hfar Hf. destruct fuel as [|fuel]; [lia|].
  cbn [turns]. unfold turn, boot. cbn [armed nextTick backupDue clock served].
  assert (Hb : backupTimer (scheduleWithPeriodicChecks target now)
               = Some (target - PROCESS_DURATION_MS - now)).
  { cbn. destruct (0 <? _) eqn:H0; [reflexivity|].
    apply Z.ltb_ge in H0. unfold Js.TIMEOUT_MAX in Hfar. lia. }
  rewrite Hb. cbn [intervalId scheduleWithPeriodicChecks default].
  assert (Hd : Js.timer_delay (target - PROCESS_DURATION_MS - now) = 1).
  { unfold Js.timer_delay.
    destruct (target - PROCESS_DURATION_MS - now <=? Js.TIMEOUT_MAX) eqn:Hle;
      [apply Z.leb_le in Hle; lia|]. now rewrite andb_false_r. }
  unfold id. rewrite Hd. change (Js.timer_delay checkInterval) with 1000.
  destruct (now + 1000 <=? now + 1) eqn:Hc; [apply Z.leb_le in Hc; lia|].
  pose proof (lag_nonneg 0) as Hlag.
  assert (Hat : runs_at lag
                  {| clock := now; served := 0; nextTick := now + 1000;
                     backupDue := now + 1;
                     armed := scheduleWithPeriodicChecks target now |} (now + 1)
                = now + 1 + lag 0%nat).
  { unfold runs_at. cbn [clock served]. lia. }
  rewrite Hat.
  replace [now + 1 + lag 0%nat]
    with [time_of (BackupFires (now + 1 + lag 0%nat))] by reflexivity.
  apply (fired_turn fuel (BackupFires (now + 1 + lag 0%nat))
           (Loop now 0 (now + 1000) (now + 1)
                 (scheduleWithPeriodicChecks target now))); auto.
  cbn [armed passes_guard]. now rewrite Hb.
Qed.

Lemma boot_fire_at_early fuel target now :
  now < target - PROCESS_DURATION_MS ->
  target - PROCESS_DURATION_MS - now <= Js.TIMEOUT_MAX ->
  (Z.to_nat ((target - PROCESS_DURATION_MS - now) / checkInterval) < fuel)%nat ->
  exists t,
    map snd (prewarms (armed (turns lag fuel (boot target now)))) = [t] /\
    target - PROCESS_DURATION_MS <= t /\
    ((forall k, lag k = 0) -> t = target - PROCESS_DURATION_MS).
Proof.
  intros Hearly Hrange Hfuel.
  set (n := Z.to_nat ((target - PROCESS_DURATION_MS - now) / checkInterval)) in *.
  assert (Hb : backupTimer (scheduleWithPeriodicChecks target now)
               = Some (target - PROCESS_DURATION_MS - now)).
  { cbn. destruct (0 <? _) eqn:H0; [reflexivity | apply Z.ltb_ge in H0; lia]. }
  assert (Hd : Js.timer_delay (target - PROCESS_DURATION_MS - now)
               = target - PROCESS_DURATION_MS - now).
  { unfold Js.timer_delay.
    destruct (1 <=? target - PROCESS_DURATION_MS - now) eqn:H1;
      [|apply Z.leb_gt in H1; lia].
    destruct (target - PROCESS_DURATION_MS - now <=? Js.TIMEOUT_MAX) eqn:H2;
      [reflexivity|apply Z.leb_gt in H2; lia]. }
  change (target - PROCESS_DURATION_MS)
    with (earlyStartTime (armed (boot target now))).
  apply (turns_fire_at_early n fuel _ (target - PROCESS_DURATION_MS - now) Hfuel);
    unfold boot; cbn [armed nextTick backupDue clock]; auto.
  - rewrite Hb. cbn [default from_option]. unfold id. rewrite Hd.
    cbn [earlyStartTime scheduleWithPeriodicChecks]. lia.
  - cbn [earlyStartTime scheduleWithPeriodicChecks]. subst n.
    change (Js.timer_delay checkInterval) with 1000.
    unfold checkInterval, PROCESS_DURATION_MS in *.
    rewrite Z2Nat.id by (apply Z.div_pos; lia).
    pose proof (Z.mul_succ_div_gt (target - 15000 - now) 1000). lia.
Qed.

(** With enough turns the loop starts the preparation exactly once,
    however far the target is and however late the callbacks run. *)
Lemma boot_fires_once fuel target now :
  (Z.to_nat ((target - PROCESS_DURATION_MS - now) / checkInterval) < fuel)%nat ->
  length (prewarms (armed (turns lag fuel (boot target now)))) = 1%nat.
Proof.
  intros Hfuel. rewrite <- (length_map snd).
  destruct (Z_lt_le_dec now (target - PROCESS_DURATION_MS)) as [Hearly|Hlate].
  - destruct (Z_le_gt_dec (target - PROCESS_DURATION_MS - now) Js.TIMEOUT_MAX)
      as [Hrange|Hfar].
    + destruct (boot_fire_at_early fuel target now Hearly Hrange Hfuel) as (t & -> & _).
      reflexivity.
    + rewrite turns_fire_overflow; [reflexivity|lia|lia].
  - rewrite turns_fire_late; [reflexivity|exact Hlate|lia].
Qed.
End LoopFacts.
End GuardFacts.

(** ** The job registry *)

Section RegistryFacts.
Import Server.
Variable parse : string -> option Z.

(** A value that makes a date has a primitive value. *)
Lemma newDate_converts v t :
  Js.newDate parse v = Some t -> Js.toPrimitive_error v = None.
Proof. destruct v as [| | | | |[repr|]]; cbn; [reflexivity..|discriminate]. Qed.

(** A request for an instant that is absent, invalid or not ahead is
    answered before anything is touched. *)
Lemma post_schedule_validates req st :
  Js.truthy (req_datetime req) = false \/
  Js.toPrimitive_error (req_datetime req) = None /\
  (Js.newDate parse (req_datetime req) = None \/
   exists t, Js.newDate parse (req_datetime req) = Some t /\ t <= now_checked req) ->
  status (fst (post_schedule parse req st)) = 400 /\
  snd (post_schedule parse req st) = st.
Proof.
  intros H. unfold post_schedule.
  destruct (Js.truthy (req_datetime req)); cbn; [|auto].
  destruct H as [H|[Hp [H|(t & H & Hle)]]]; [discriminate| |]; rewrite Hp, H; [auto|].
  destruct (t <=? now_checked req) eqn:Hc; [auto|]. apply Z.leb_gt in Hc. lia.
Qed.

(** The outcomes of a schedule request: rejected untouched, or accepted
    with the job created, pending for the early start, and stored. *)
Lemma post_schedule_cases req st :
  (snd (post_schedule parse req st) = st /\
   (status (fst (post_schedule parse req st)) = 400 \/
    status (fst (post_schedule parse req st)) = 500)) \/
  (exists targetDate jobId info,
     Js.newDate parse (req_datetime req) = Some targetDate /\
     now_checked req < targetDate /\
     job_created req = true /\
     fst (post_schedule parse req st) = json (Scheduled jobId targetDate) /\
     job info = Some (created st) /\
     datetime info = targetDate /\
     snd (post_schedule parse req st)
     = State (<[jobId := info]> (scheduledJobs st))
             (<[created st := {| fireAt := targetDate - PROCESS_DURATION_MS;
                                invoke := {| cb_jobId := jobId;
                                             cb_targetDate := targetDate;
                                             cb_recurring := req_recurring req |} |}]>
                (pending st))
             (running st) (S (created st)) (alive st)).
Proof.
  unfold post_schedule.
  destruct (Js.truthy (req_datetime req)); cbn; [|left; auto].
  destruct (Js.toPrimitive_error (req_datetime req)); [left; auto|].
  destruct (Js.newDate parse (req_datetime req)) as [t|]; [|left; auto].
  destruct (t <=? now_checked req) eqn:Hc; [left; auto|]. apply Z.leb_gt in Hc.
  unfold scheduleJob. destruct (job_created req); cbn; [|left; auto].
  right.
  eexists t, _, {| id := _; datetime := t; recurring := _; scheduled := _;
                   job := Some (created st) |}.
  split_and!; try reflexivity. lia.
Qed.

Lemma post_schedule_keeps_handles req st :
  handles_created st -> handles_created (snd (post_schedule parse req st)).
Proof.
  intros Hinv jobId info.
  destruct (post_schedule_cases req st)
    as [[-> _]|(t & j & i & _ & _ & _ & _ & Hj & _ & ->)]; [apply Hinv|].
  cbn. destruct (decide (j = jobId)) as [->|Hne].
  - rewrite lookup_insert_eq. intros [= <-]. exists (created st). split; [done|lia].
  - rewrite lookup_insert_ne by done. intros H.
    destruct (Hinv _ _ H) as (h & ? & ?). exists h. split; [done|lia].
Qed.

Lemma job_completes_keeps_handles h r st :
  handles_created st -> handles_created (job_completes h r st).
Proof.
  intros Hinv jobId info.
  unfold job_completes. destruct (running st !! h) as [cb|]; [|apply Hinv].
  destruct r; [|apply Hinv].
  destruct (negb (Js.truthy (cb_recurring cb))); [|apply Hinv]. cbn.
  destruct (decide (cb_jobId cb = jobId)) as [->|Hne].
  - rewrite lookup_delete_eq. discriminate.
  - rewrite lookup_delete_ne by done. apply Hinv.
Qed.

Lemma act_keeps_handles a st :
  handles_created st -> handles_created (act parse a st).
Proof.
  intros Hinv. unfold act. destruct (alive st); [|exact Hinv].
  destruct a as [req| |j|h|h r]; cbn [post_schedule_body snd].
  - now apply post_schedule_keeps_handles.
  - exact Hinv.
  - intros jobId info. unfold delete_jobs.
    destruct (scheduledJobs st !! j) as [i|] eqn:Hj; [|apply Hinv].
    destruct (job i); [|apply Hinv]. cbn.
    destruct (decide (j = jobId)) as [->|Hne].
    + rewrite lookup_delete_eq. discriminate.
    + rewrite lookup_delete_ne by done. apply Hinv.
  - intros jobId info. unfold job_fires. destruct (pending st !! h); apply Hinv.
  - unfold settle. destruct (running st !! h) eqn:Hr, r as [result|message];
      try now apply job_completes_keeps_handles.
    intros jobId info. cbn. rewrite lookup_empty. discriminate.
Qed.

Lemma after_snoc actions a :
  after parse (actions ++ [a]) = act parse a (after parse actions).
Proof. unfold after. now rewrite fold_left_app. Qed.

Lemma reachable_handles actions : handles_created (after parse actions).
Proof.
  induction actions as [|a actions IH] using rev_ind.
  - intros jobId info. cbn. rewrite lookup_empty. discriminate.
  - rewrite after_snoc. now apply act_keeps_handles.
Qed.
End RegistryFacts.


Section RegistryClaims.
Import Server Samples.

Example schedule_then_list :
  let st := after parse_two_pm [PostSchedule (request false 1764309000000 true)] in
  scheduledJobs st !! "job-1764309000000-k3x9q0z1a"%string
  = Some {| id := "job-1764309000000-k3x9q0z1a"; datetime := 1764309600000;
            recurring := Js.JBool false; scheduled := 1764309000000; job := Some 0%nat |} /\
  pending st !! 0%nat
  = Some {| fireAt := 1764309585000;
            invoke := {| cb_jobId := "job-1764309000000-k3x9q0z1a";
                         cb_targetDate := 1764309600000;
                         cb_recurring := Js.JBool false |} |}.
Proof. split; vm_compute; reflexivity. Qed.



(** C3. On any state the service can reach, DELETE of a job id that is
    in the registry cancels the job's timer and removes the entry, with a
    success answer; DELETE of an id that is not in the registry answers 404
    and changes nothing; and a second DELETE of the same id always answers
    404 and changes nothing. *)
Theorem cancel_job_or_not_found parse actions jobId :
  let st := after parse actions in
  match scheduledJobs st !! jobId with
  | Some info =>
      exists h, job info = Some h /\
        fst (delete_jobs jobId st) = json Canceled /\
        scheduledJobs (snd (delete_jobs jobId st)) = delete jobId (scheduledJobs st) /\
        pending (snd (delete_jobs jobId st)) = delete h (pending st) /\
        scheduledJobs (snd (delete_jobs jobId st)) !! jobId = None /\
        pending (snd (delete_jobs jobId st)) !! h = None
  | None =>
      delete_jobs jobId st = (Response 404 (Error "Job not found"), st)
  end /\
  delete_jobs jobId (snd (delete_jobs jobId st))
  = (Response 404 (Error "Job not found"), snd (delete_jobs jobId st)).
Proof.
  intros st. pose proof (reachable_handles parse actions jobId) as Hinv.
  fold st in Hinv. unfold delete_jobs at 1 2 3 4 5 6 7 8 9.
  destruct (scheduledJobs st !! jobId) as [info|] eqn:Hj.
  - destruct (Hinv info eq_refl) as (h & Hh & _). rewrite Hh. cbn.
    split.
    + exists h. split_and!; try reflexivity; apply lookup_delete_eq.
    + unfold delete_jobs. cbn. now rewrite lookup_delete_eq.
  - split; [reflexivity|]. cbn. unfold delete_jobs. now rewrite Hj.
Qed.

(** C10, as stated, fails: after a recurring job has fired and its
    capture has completed, its entry is still in the registry and holds a
    job that is neither pending nor running. *)
Lemma registry_keeps_spent_handle :
  let st := after parse_two_pm
              [PostSchedule (request true 1764309000000 true);
               JobFires 0%nat;
               JobCompletes 0%nat (Capture.Ok a_result)] in
  (exists info, scheduledJobs st !! "job-1764309000000-k3x9q0z1a"%string = Some info /\
                job info = Some 0%nat) /\
  pending st !! 0%nat = None /\ running st !! 0%nat = None /\
  ~ handles_pending st.
Proof.
  cbv zeta.
  assert (Hj : exists info,
             scheduledJobs (after parse_two_pm
               [PostSchedule (request true 1764309000000 true);
                JobFires 0%nat; JobCompletes 0%nat (Capture.Ok a_result)])
             !! "job-1764309000000-k3x9q0z1a"%string = Some info /\ job info = Some 0%nat).
  { eexists. split; vm_compute; reflexivity. }
  split_and!; [exact Hj|vm_compute; reflexivity|vm_compute; reflexivity|].
  intros Hlive. destruct Hj as (info & Hinfo & Hjob).
  destruct (Hlive _ _ Hinfo) as (h & Hh & [t Ht]).
  rewrite Hjob in Hh. injection Hh as <-. vm_compute in Ht. discriminate.
Qed.

(** C10, amended. A schedule request changes the registry only by
    storing, under the new job id, the job that the library has just
    created, which is then pending for the early start; when the library
    creates no job the request is answered with an error (500 when the
    datetime was valid) and the state is unchanged.  On every state the
    service can reach, every entry of the registry holds a job (never
    null) that the library created, so that DELETE never fails on it. *)
Theorem registry_holds_created_jobs parse :
  (forall req st,
     job_created req = false ->
     snd (post_schedule parse req st) = st /\
     (status (fst (post_schedule parse req st)) = 400 \/
      status (fst (post_schedule parse req st)) = 500) /\
     (Js.truthy (req_datetime req) = true ->
      (exists t, Js.newDate parse (req_datetime req) = Some t /\ now_checked req < t) ->
      fst (post_schedule parse req st) = Response 500 (Error "Failed to schedule job"))) /\
  (forall req st jobId info,
     scheduledJobs (snd (post_schedule parse req st)) !! jobId = Some info ->
     scheduledJobs st !! jobId = Some info \/
     (job_created req = true /\
      exists t, job info = Some (created st) /\
        pending (snd (post_schedule parse req st)) !! created st = Some t /\
        fireAt t = datetime info - PROCESS_DURATION_MS)) /\
  (forall actions, handles_created (after parse actions)) /\
  (forall actions jobId,
     status (fst (delete_jobs jobId (after parse actions))) <> 500).
Proof.
  split_and!.
  - intros req st Hc.
    destruct (post_schedule_cases parse req st)
      as [[Hst Hs]|(t & j & i & _ & _ & Hc' & _)]; [|congruence].
    split_and!; [exact Hst|destruct Hs as [?|?]; auto|].
    intros Ht (t & Hd & Hlt). unfold post_schedule, scheduleJob.
    rewrite Ht, (newDate_converts parse _ _ Hd), Hd, Hc. cbn.
    destruct (t <=? now_checked req) eqn:Hle; [|reflexivity].
    apply Z.leb_le in Hle. lia.
  - intros req st jobId info.
    destruct (post_schedule_cases parse req st)
      as [[-> _]|(t & j & i & _ & _ & Hc & _ & Hj & Hd & ->)]; [auto|].
    cbn. destruct (decide (j = jobId)) as [->|Hne].
    + rewrite lookup_insert_eq. intros [= <-]. right. split; [exact Hc|].
      eexists. split_and!; [exact Hj|apply lookup_insert_eq|]. cbn. now rewrite Hd.
    + rewrite lookup_insert_ne by done. auto.
  - apply reachable_handles.
  - intros actions jobId. unfold delete_jobs.
    destruct (scheduledJobs _ !! jobId) as [info|] eqn:Hj; [|cbn; lia].
    destruct (reachable_handles parse actions _ _ Hj) as (h & -> & _). cbn. lia.
Qed.
End RegistryClaims.

(** ** The capture routines *)

Section CaptureFacts.
Import Capture.
Local Open Scope capture_scope.

Lemma faithful_ret {A} (a : A) : faithful (ret a).
Proof.
  intros e st. exists []. cbn. rewrite app_nil_r.
  split_and!; [done|intros ? ? []|discriminate].
Qed.

Lemma faithful_assign_browser : faithful assign_browser.
Proof.
  intros e st. exists []. cbn. rewrite app_nil_r.
  split_and!; [done|intros ? ? []|discriminate].
Qed.

Lemma faithful_emit_timer ms : faithful (emit (SetTimeout ms)).
Proof.
  intros e st. exists [SetTimeout ms]. cbn.
  split_and!; [done|intros ? ? [|[]]; discriminate|discriminate].
Qed.

Lemma faithful_call c : faithful (call c).
Proof.
  intros e st. exists [Call c]. unfold call.
  destruct (throws e c) as [message|] eqn:Hc; cbn; split_and!; try done.
  - intros c' m [[= <-]|[]] _ Hm. congruence.
  - intros m [= <-]. exists c. auto.
  - intros c' m [[= <-]|[]] _ Hm. congruence.
Qed.

Lemma faithful_bind {A B} (m : M A) (k : A -> M B) :
  faithful m -> (forall a, faithful (k a)) -> faithful (bind m k).
Proof.
  intros Hm Hk e st. unfold bind.
  destruct (Hm e st) as (new & Htr & Hf & Hh).
  destruct (m e st) as [[a|message] st1]; cbn in Htr, Hf, Hh.
  - destruct (Hk a e st1) as (new' & Htr' & Hf' & Hh').
    exists (new ++ new'). split_and!.
    + rewrite Htr', Htr. now rewrite app_assoc.
    + intros c msg Hin Hfat Hthrow. apply in_app_or in Hin as [Hin|Hin].
      * specialize (Hf c msg Hin Hfat Hthrow). discriminate.
      * now apply (Hf' c msg).
    + intros msg Hres. destruct (Hh' msg Hres) as (c & Hin & Hthrow).
      exists c. split; [apply in_or_app; now right|exact Hthrow].
  - exists new. cbn. split_and!; [exact Htr| |].
    + intros c msg Hin Hfat Hthrow.
      specialize (Hf c msg Hin Hfat Hthrow). congruence.
    + intros msg [= <-]. now apply Hh.
Qed.

Lemma faithful_read {A B} (read : M A) (k : A -> M B) :
  (forall e st, exists a, read e st = (Ok a, st)) ->
  (forall a, faithful (k a)) -> faithful (bind read k).
Proof.
  intros Hread Hk e st. unfold bind. destruct (Hread e st) as [a ->]. apply Hk.
Qed.

(** A try block around one call that is not fatal, with a handler that
    goes on. *)
Lemma faithful_swallow c :
  fatal c = false -> faithful (try_catch (call c) (fun _ => ret tt)).
Proof.
  intros Hc e st. exists [Call c]. unfold try_catch, call.
  destruct (throws e c); cbn; split_and!; try done;
    intros c' m [[= <-]|[]]; congruence.
Qed.

(** A try block around one call that is not fatal, with a handler that
    may throw. *)
Lemma faithful_try_call c (handler : string -> M unit) :
  fatal c = false -> (forall message, faithful (handler message)) ->
  faithful (try_catch (call c) handler).
Proof.
  intros Hc Hh e st. unfold try_catch, call.
  destruct (throws e c) as [m|] eqn:Ht; cbn.
  - destruct (Hh m e (Store (browser st) (trace st ++ [Call c])))
      as (new & Htr & Hf & Hthrow).
    cbn in Htr. exists (Call c :: new). split_and!.
    + rewrite Htr, <- app_assoc. reflexivity.
    + intros c' m' [[= <-]|Hin] Hfat Hm'; [congruence|]. now apply (Hf c' m').
    + intros m' Hres. destruct (Hthrow m' Hres) as (c' & Hin & Hm').
      exists c'. split; [now right|exact Hm'].
  - exists [Call c]. split_and!; [done| |discriminate].
    intros c' m' [[= <-]|[]]. congruence.
Qed.

(** The navigation: the second attempt decides. *)
Lemma faithful_goto :
  faithful (try_catch (call GotoPrimary) (fun _ => call GotoFallback)).
Proof.
  intros e st. unfold try_catch, call.
  destruct (throws e GotoPrimary) as [m1|] eqn:H1; cbn.
  - exists [Call GotoPrimary; Call GotoFallback]. rewrite <- app_assoc. cbn.
    destruct (throws e GotoFallback) as [m2|] eqn:H2; cbn; split_and!; try done.
    + intros c m [[= <-]|[[= <-]|[]]]; [discriminate|congruence].
    + intros m [= <-]. exists GotoFallback. cbn. auto.
    + intros c m [[= <-]|[[= <-]|[]]]; [discriminate|congruence].
  - exists [Call GotoPrimary]. split_and!; try done.
    intros c m [[= <-]|[]]. discriminate.
Qed.

Lemma faithful_scroll_loop n : forall i, faithful (scroll_loop i n).
Proof.
  induction n as [|n IH]; intros i; cbn [scroll_loop].
  - apply faithful_ret.
  - repeat (apply faithful_bind; [apply faithful_call|intros _]). apply IH.
Qed.

Lemma faithful_prepare n : faithful (prepare n).
Proof.
  unfold prepare.
  repeat first
    [ apply faithful_goto
    | apply faithful_swallow; reflexivity
    | apply faithful_call | apply faithful_ret | apply faithful_assign_browser
    | apply faithful_scroll_loop
    | apply faithful_bind; [|intros ?]
    | match goal with |- faithful (if ?b then _ else _) => destruct b end ].
Qed.

Lemma faithful_wait_for_target target : faithful (wait_for_target target).
Proof.
  unfold wait_for_target. apply faithful_read; [intros e st; now eexists|].
  intros now. destruct (0 <? target - now);
    [apply faithful_emit_timer|apply faithful_ret].
Qed.

Lemma faithful_shoot screenshotPath : faithful (shoot screenshotPath).
Proof.
  unfold shoot.
  repeat (apply faithful_bind; [apply faithful_call|intros _]).
  apply faithful_read; [intros e st; now eexists|]. intros timestamp.
  repeat (apply faithful_bind; [apply faithful_call|intros _]).
  apply faithful_ret.
Qed.

Lemma returns_ret {A} (P : A -> Prop) a : P a -> returns P (ret a).
Proof. intros HP e st a'. cbn. now intros [= <-]. Qed.

Lemma returns_bind {A B} (P : B -> Prop) (m : M A) (k : A -> M B) :
  (forall a, returns P (k a)) -> returns P (bind m k).
Proof.
  intros Hk e st b. unfold bind.
  destruct (m e st) as [[a|message] st1]; [apply Hk|discriminate].
Qed.

(** The catch block of the service's routines turns what the body throws
    into a failed result. *)
Lemma caught_is_converted (body : M CaptureResult) e :
  faithful body -> returns (fun r => success r = true) body ->
  throws e CloseAfterError = None ->
  exists r,
    fst (try_catch body (fun message => close_if_open ;; ret (failed message)) e start) = Ok r /\
    (forall c message,
       In (Call c) (trace (snd (try_catch body
                     (fun message => close_if_open ;; ret (failed message)) e start))) ->
       fatal c = true -> throws e c = Some message -> r = failed message) /\
    (success r = false ->
     exists c message,
       In (Call c) (trace (snd (try_catch body
                     (fun message => close_if_open ;; ret (failed message)) e start))) /\
       throws e c = Some message /\ r = failed message).
Proof.
  intros Hbody Hret Hclose. unfold try_catch.
  destruct (Hbody e start) as (new & Htr & Hf & Hh).
  pose proof (Hret e start) as Hok.
  destruct (body e start) as [[r|message] st1]; cbn in Htr, Hf, Hh, Hok.
  - exists r. cbn. split_and!; [done| |].
    + intros c m Hin Hfat Hthrow. rewrite Htr in Hin.
      specialize (Hf c m Hin Hfat Hthrow). discriminate.
    + intros Hfalse. rewrite (Hok r eq_refl) in Hfalse. discriminate.
  - exists (failed message).
    destruct (Hh message eq_refl) as (c0 & Hin0 & Hthrow0).
    cbv [bind close_if_open read_browser call ret].
    destruct (browser st1); rewrite ?Hclose; cbn; rewrite Htr; split_and!; try done.
    + intros c m Hin Hfat Hthrow. apply in_app_or in Hin as [Hin|[[= <-]|[]]].
      * specialize (Hf c m Hin Hfat Hthrow). congruence.
      * discriminate.
    + intros _. exists c0, message. split_and!; auto. apply in_or_app. now left.
    + intros c m Hin Hfat Hthrow. specialize (Hf c m Hin Hfat Hthrow). congruence.
    + intros _. exists c0, message. auto.
Qed.

(** The catch block of the standalone scheduler's routines writes the
    error to the log, closes the browser when there is one, and throws the
    error again. *)
Lemma caught_is_rethrown (body : M string) e :
  faithful body ->
  throws e (Log LogError) = None ->
  throws e CloseAfterError = None ->
  forall c message,
    In (Call c) (trace (snd ((call (Log LogStart) ;; try_catch body Cli.on_error) e start))) ->
    fatal c = true -> throws e c = Some message ->
    fst ((call (Log LogStart) ;; try_catch body Cli.on_error) e start) = Throw message /\
    In (Call (Log LogError))
       (trace (snd ((call (Log LogStart) ;; try_catch body Cli.on_error) e start))) /\
    (browser (snd ((call (Log LogStart) ;; try_catch body Cli.on_error) e start)) = true ->
     In (Call CloseAfterError)
        (trace (snd ((call (Log LogStart) ;; try_catch body Cli.on_error) e start)))).
Proof.
  intros Hbody Hlog Hclose c m.
  set (R := (call (Log LogStart) ;; try_catch body Cli.on_error) e start).
  assert (HR : R = match throws e (Log LogStart) with
                   | Some m0 => (Throw m0, Store false [Call (Log LogStart)])
                   | None => try_catch body Cli.on_error e
                               (Store false [Call (Log LogStart)])
                   end).
  { subst R. unfold bind, call. now destruct (throws e (Log LogStart)). }
  rewrite HR. clear R HR.
  destruct (throws e (Log LogStart)) as [m0|] eqn:Hstart; cbn [fst snd trace].
  { intros [[= <-]|[]]. discriminate. }
  unfold try_catch.
  destruct (Hbody e (Store false [Call (Log LogStart)])) as (new & Htr & Hf & Hh).
  destruct (body e (Store false [Call (Log LogStart)])) as [[r|message] st1];
    cbn in Htr, Hf, Hh.
  - cbn. rewrite Htr. intros [[= <-]|Hin] Hfat Hthrow; [discriminate|].
    specialize (Hf c m Hin Hfat Hthrow). discriminate.
  - cbv [Cli.on_error bind close_if_open read_browser call ret throw].
    rewrite Hlog. cbn. destruct (browser st1) eqn:Hb; rewrite ?Hclose; cbn; rewrite Htr.
    + intros Hin Hfat Hthrow. split_and!.
      * cbn in Hin. destruct Hin as [[= <-]|Hin]; [discriminate|].
        rewrite <- app_assoc in Hin.
        apply in_app_or in Hin as [Hin|[[= <-]|[[= <-]|[]]]]; try discriminate.
        specialize (Hf c m Hin Hfat Hthrow). congruence.
      * apply in_or_app. left. apply in_or_app. right. now left.
      * intros _. apply in_or_app. right. now left.
    + intros Hin Hfat Hthrow. split_and!.
      * cbn in Hin. destruct Hin as [[= <-]|Hin]; [discriminate|].
        apply in_app_or in Hin as [Hin|[[= <-]|[]]]; try discriminate.
        specialize (Hf c m Hin Hfat Hthrow). congruence.
      * apply in_or_app. right. now left.
      * discriminate.
Qed.

End CaptureFacts.

Section CaptureClaims.
Import Capture Samples.
Local Open Scope capture_scope.

Example calm_exact_capture :
  Server.takeScreenshotAtExactTime "/home/u/Desktop/screenshots" 1764309600000 calm start
  = (Ok (succeeded "/home/u/Desktop/screenshots/screenshot-2025-11-28T06-00-00-004Z.png"
                   "screenshot-2025-11-28T06-00-00-004Z.png"),
     Store true
       [Call EnsureDir; Call Launch; Call NewContext; Call NewPage; Call GotoPrimary;
        Call Settle; Call SwitchLanguage; Call SelectExchange;
        Call (Scroll 0); Call (ScrollDelay 0); Call ScrollSettle;
        SetTimeout 1000;
        Call Overlay; Call OverlayRender;
        Call (Screenshot "/home/u/Desktop/screenshots/screenshot-2025-11-28T06-00-00-004Z.png");
        Call Close]).
Proof. vm_compute. reflexivity. Qed.

Example late_exact_capture :
  List.filter (fun x => match x with SetTimeout _ => true | _ => false end)
    (trace (snd (Cli.takeScreenshotAtExactTime "/home/u/Desktop/screenshots"
                   1764309598000 calm start))) = [].
Proof. vm_compute. reflexivity. Qed.

Lemma server_body_faithful screenshotPath :
  faithful (prepare Server.scrollCount ;;
            shot <- shoot screenshotPath ;;
            ret (succeeded (fst shot) (snd shot))).
Proof.
  apply faithful_bind; [apply faithful_prepare|intros _].
  apply faithful_bind; [apply faithful_shoot|intros shot]. apply faithful_ret.
Qed.

Lemma server_exact_body_faithful screenshotPath target :
  faithful (prepare Server.scrollCount ;;
            wait_for_target target ;;
            shot <- shoot screenshotPath ;;
            ret (succeeded (fst shot) (snd shot))).
Proof.
  apply faithful_bind; [apply faithful_prepare|intros _].
  apply faithful_bind; [apply faithful_wait_for_target|intros _].
  apply faithful_bind; [apply faithful_shoot|intros shot]. apply faithful_ret.
Qed.

Lemma cli_prepare_faithful n : faithful (Cli.prepare n).
Proof.
  unfold Cli.prepare.
  repeat first
    [ apply faithful_call | apply faithful_ret | apply faithful_assign_browser
    | apply faithful_scroll_loop
    | apply faithful_try_call; [reflexivity|intros ?]
    | apply faithful_bind; [|intros ?]
    | match goal with |- faithful (if ?b then _ else _) => destruct b end ].
Qed.

Lemma cli_wait_faithful target : faithful (Cli.wait_for_target target).
Proof.
  unfold Cli.wait_for_target. apply faithful_read; [intros e st; now eexists|].
  intros now. apply faithful_bind; [|intros _; apply faithful_call].
  destruct (0 <? target - now); [|apply faithful_ret].
  apply faithful_bind; [apply faithful_call|intros _; apply faithful_emit_timer].
Qed.

Lemma cli_shoot_faithful screenshotPath : faithful (Cli.shoot screenshotPath).
Proof.
  unfold Cli.shoot, Cli.auto_open.
  repeat (apply faithful_bind; [apply faithful_call|intros _]).
  apply faithful_read; [intros e st; now eexists|]. intros timestamp.
  repeat (apply faithful_bind; [apply faithful_call|intros _]).
  apply faithful_bind; [|intros _; apply faithful_ret].
  apply faithful_try_call; [reflexivity|intros _; apply faithful_call].
Qed.

Lemma cli_body_faithful screenshotPath (mid : M unit) :
  faithful mid ->
  faithful (Cli.prepare Cli.scrollCount ;; mid ;; Cli.shoot screenshotPath).
Proof.
  intros Hmid.
  apply faithful_bind; [apply cli_prepare_faithful|intros _].
  apply faithful_bind; [exact Hmid|intros _]. apply cli_shoot_faithful.
Qed.

(** The catch block of the standalone scheduler never returns. *)
Lemma on_error_throws message e st :
  exists thrown, fst (Cli.on_error message e st) = Throw thrown.
Proof.
  cbv [Cli.on_error bind close_if_open read_browser call ret throw].
  destruct (throws e (Log LogError)); cbn; [eauto|].
  destruct (browser st); cbn; [|eauto].
  destruct (throws e CloseAfterError); cbn; eauto.
Qed.

(** What the last part of the routines returns: the path of the file that
    the screenshot was written to, after the browser was closed. *)
Lemma cli_shoot_result screenshotPath e st p :
  fst (Cli.shoot screenshotPath e st) = Ok p ->
  p = Path.join screenshotPath (screenshot_name (stamp e)) /\
  exists before after,
    trace (snd (Cli.shoot screenshotPath e st))
    = trace st ++ before ++ Call (Screenshot p) :: Call (Log LogSaved) :: Call Close :: after /\
    throws e (Screenshot p) = None /\ throws e Close = None.
Proof.
  cbv [Cli.shoot Cli.auto_open bind try_catch call read_stamp ret].
  destruct (throws e Overlay); cbn; [discriminate|].
  destruct (throws e OverlayRender); cbn; [discriminate|].
  destruct (throws e (Screenshot _)) eqn:Hs; cbn; [discriminate|].
  destruct (throws e (Log LogSaved)); cbn; [discriminate|].
  destruct (throws e Close) eqn:Hc; cbn; [discriminate|].
  destruct (throws e (AutoOpen _)); cbn.
  - destruct (throws e (Log LogAutoOpenError)); cbn; [discriminate|].
    intros [= <-]. split; [reflexivity|].
    eexists [Call Overlay; Call OverlayRender], [_; _].
    rewrite <- !app_assoc. cbn. auto.
  - intros [= <-]. split; [reflexivity|].
    eexists [Call Overlay; Call OverlayRender], [_].
    rewrite <- !app_assoc. cbn. auto.
Qed.

(** A routine of the standalone scheduler that returns has taken the
    screenshot at the path it returns and closed the browser. *)
Lemma cli_success screenshotPath (mid : M unit) e p :
  fst ((call (Log LogStart) ;;
        try_catch (Cli.prepare Cli.scrollCount ;; mid ;; Cli.shoot screenshotPath)
                  Cli.on_error) e start) = Ok p ->
  p = Path.join screenshotPath (screenshot_name (stamp e)) /\
  throws e (Screenshot p) = None /\ throws e Close = None /\
  exists before after,
    trace (snd ((call (Log LogStart) ;;
                 try_catch (Cli.prepare Cli.scrollCount ;; mid ;; Cli.shoot screenshotPath)
                           Cli.on_error) e start))
    = before ++ Call (Screenshot p) :: Call (Log LogSaved) :: Call Close :: after.
Proof.
  cbv [bind try_catch]. unfold call at 1 2.
  destruct (throws e (Log LogStart)); cbn [fst snd]; [discriminate|].
  destruct (Cli.prepare Cli.scrollCount e _) as [[[]|m1] st1]; cbn [fst snd].
  2:{ destruct (on_error_throws m1 e st1) as [thrown Ht].
      destruct (Cli.on_error m1 e st1) as [r st']. cbn in *. congruence. }
  destruct (mid e st1) as [[[]|m2] st2]; cbn [fst snd].
  2:{ destruct (on_error_throws m2 e st2) as [thrown Ht].
      destruct (Cli.on_error m2 e st2) as [r st']. cbn in *. congruence. }
  pose proof (cli_shoot_result screenshotPath e st2) as Hshoot.
  destruct (Cli.shoot screenshotPath e st2) as [[p'|m3] st3]; cbn [fst snd] in *.
  2:{ destruct (on_error_throws m3 e st3) as [thrown Ht].
      destruct (Cli.on_error m3 e st3) as [r st']. cbn in *. congruence. }
  intros [= <-]. destruct (Hshoot p' eq_refl) as (-> & before & after & Htr & Hs & Hc).
  split_and!; [reflexivity|exact Hs|exact Hc|].
  exists (trace st2 ++ before), after. rewrite Htr, <- app_assoc. reflexivity.
Qed.

(** C4. The standalone scheduler does not keep the exact wait for a target
    more than [Js.TIMEOUT_MAX] ms ahead.  Started for a target 30 days ahead, the
    guard sets a backup timer whose delay the runtime does not take, which
    starts the preparation 1 ms after the arming; with the page ready 12
    seconds later, the routine asks for one timer of the 2591988000 ms that
    remain, the screenshot follows that timer, and the runtime waits 1 ms
    for it: the capture happens 30 days before the target. *)
Lemma exact_wait_overflows :
  Cli.main (fun _ => Some 1766901600000) (fun _ => None) ["2025-12-28T14:00:00+08:00"%string]
           1764309600000 1764309600000
  = Cli.Scheduled (Cli.scheduleWithPeriodicChecks 1766901600000 1764309600000) /\
  map snd (Cli.prewarms
             (Cli.armed (Cli.turns (fun _ => 0) 1 (Cli.boot 1766901600000 1764309600000))))
  = [1764309600001] /\
  trace (snd (Cli.takeScreenshotAtExactTime "/home/u/Desktop/screenshots" 1766901600000
                (Env (fun _ => None) 1764309612000 "2025-11-28T06-00-12-001Z") start))
  = [Call (Log LogStart); Call EnsureDir; Call Launch; Call NewContext; Call NewPage;
     Call (Log LogNavigating); Call GotoPrimary; Call Settle; Call SwitchLanguage;
     Call SelectExchange; Call (Log LogScrolling); Call (Scroll 0); Call (ScrollDelay 0);
     Call ScrollSettle;
     Call (Log LogWaiting); SetTimeout 2591988000; Call (Log LogCapturing);
     Call Overlay; Call OverlayRender;
     Call (Screenshot "/home/u/Desktop/screenshots/screenshot-2025-11-28T06-00-12-001Z.png");
     Call (Log LogSaved); Call Close;
     Call (AutoOpen "/home/u/Desktop/screenshots/screenshot-2025-11-28T06-00-12-001Z.png")] /\
  Js.TIMEOUT_MAX < 2591988000 /\
  Js.timer_delay 2591988000 = 1 /\
  1764309612000 + Js.timer_delay 2591988000 < 1766901600000.
Proof. split_and!; vm_compute; reflexivity. Qed.

(** C7, as stated, fails for the standalone scheduler: when the browser
    cannot be launched, its routines end in the thrown error, not in a
    structured result. *)
Lemma cli_routine_rethrows :
  Cli.takeScreenshotAtExactTime "/home/u/Desktop/screenshots" 1764309600000 no_browser start
  = (Throw "browserType.launch: Executable does not exist",
     Store false [Call (Log LogStart); Call EnsureDir; Call Launch; Call (Log LogError)]) /\
  Cli.takeScreenshot "/home/u/Desktop/screenshots" no_browser start
  = (Throw "browserType.launch: Executable does not exist",
     Store false [Call (Log LogStart); Call EnsureDir; Call Launch; Call (Log LogError)]).
Proof. split; vm_compute; reflexivity. Qed.

(** C7, amended. Provided that closing the browser in the catch block does
    not itself throw: both routines of the HTTP service always return a
    structured result, never a thrown error; when a call that no inner try
    block covers throws, the result has success = false and that error's
    message, and a result with success = false always carries the message of
    an error that a call threw.  The routines of the standalone scheduler
    return the path of the file that the screenshot was written to, after
    closing the browser; when a call that no inner try block covers throws,
    and the line of the catch block is written to the log, they close the
    browser if it was launched and throw the error of that call again; an
    error of the first line of the log, which stands before the try block,
    is thrown as it is; and the guard's handler turns a thrown error into
    exit status 1 (a returned path into exit status 0). *)
Theorem capture_errors_by_variant screenshotPath target e :
  throws e CloseAfterError = None ->
  (exists r,
     fst (Server.takeScreenshot screenshotPath e start) = Ok r /\
     (forall c message,
        In (Call c) (trace (snd (Server.takeScreenshot screenshotPath e start))) ->
        fatal c = true -> throws e c = Some message -> r = failed message) /\
     (success r = false ->
      exists c message,
        In (Call c) (trace (snd (Server.takeScreenshot screenshotPath e start))) /\
        throws e c = Some message /\ r = failed message)) /\
  (exists r,
     fst (Server.takeScreenshotAtExactTime screenshotPath target e start) = Ok r /\
     (forall c message,
        In (Call c) (trace (snd (Server.takeScreenshotAtExactTime screenshotPath target e start))) ->
        fatal c = true -> throws e c = Some message -> r = failed message) /\
     (success r = false ->
      exists c message,
        In (Call c) (trace (snd (Server.takeScreenshotAtExactTime screenshotPath target e start))) /\
        throws e c = Some message /\ r = failed message)) /\
  (forall p,
     fst (Cli.takeScreenshot screenshotPath e start) = Ok p ->
     p = Path.join screenshotPath (screenshot_name (stamp e)) /\
     throws e (Screenshot p) = None /\ throws e Close = None /\
     exists before after,
       trace (snd (Cli.takeScreenshot screenshotPath e start))
       = before ++ Call (Screenshot p) :: Call (Log LogSaved) :: Call Close :: after) /\
  (forall p,
     fst (Cli.takeScreenshotAtExactTime screenshotPath target e start) = Ok p ->
     p = Path.join screenshotPath (screenshot_name (stamp e)) /\
     throws e (Screenshot p) = None /\ throws e Close = None /\
     exists before after,
       trace (snd (Cli.takeScreenshotAtExactTime screenshotPath target e start))
       = before ++ Call (Screenshot p) :: Call (Log LogSaved) :: Call Close :: after) /\
  (throws e (Log LogError) = None ->
   forall c message,
     In (Call c) (trace (snd (Cli.takeScreenshot screenshotPath e start))) ->
     fatal c = true -> throws e c = Some message ->
     fst (Cli.takeScreenshot screenshotPath e start) = Throw message /\
     In (Call (Log LogError)) (trace (snd (Cli.takeScreenshot screenshotPath e start))) /\
     (browser (snd (Cli.takeScreenshot screenshotPath e start)) = true ->
      In (Call CloseAfterError) (trace (snd (Cli.takeScreenshot screenshotPath e start))))) /\
  (throws e (Log LogError) = None ->
   forall c message,
     In (Call c) (trace (snd (Cli.takeScreenshotAtExactTime screenshotPath target e start))) ->
     fatal c = true -> throws e c = Some message ->
     fst (Cli.takeScreenshotAtExactTime screenshotPath target e start) = Throw message /\
     In (Call (Log LogError))
        (trace (snd (Cli.takeScreenshotAtExactTime screenshotPath target e start))) /\
     (browser (snd (Cli.takeScreenshotAtExactTime screenshotPath target e start)) = true ->
      In (Call CloseAfterError)
         (trace (snd (Cli.takeScreenshotAtExactTime screenshotPath target e start))))) /\
  (forall message,
     throws e (Log LogStart) = Some message ->
     Cli.takeScreenshot screenshotPath e start
     = (Throw message, Store false [Call (Log LogStart)]) /\
     Cli.takeScreenshotAtExactTime screenshotPath target e start
     = (Throw message, Store false [Call (Log LogStart)])) /\
  (forall g now r,
     Cli.exited g = None -> Cli.prewarms g <> [] ->
     Cli.exited (Cli.step (Cli.settles now r) g)
     = Some (match r with Ok _ => 0 | Throw _ => 1 end)).
Proof.
  intros Hclose. split_and!.
  - apply caught_is_converted; [apply server_body_faithful| |exact Hclose].
    repeat (apply returns_bind; intros ?). now apply returns_ret.
  - apply caught_is_converted; [apply server_exact_body_faithful| |exact Hclose].
    repeat (apply returns_bind; intros ?). now apply returns_ret.
  - intros p. apply (cli_success screenshotPath (ret tt) e p).
  - intros p. apply (cli_success screenshotPath (Cli.wait_for_target target) e p).
  - intros Hlog.
    apply (caught_is_rethrown _ e (cli_body_faithful screenshotPath (ret tt) (faithful_ret tt))
             Hlog Hclose).
  - intros Hlog.
    apply (caught_is_rethrown _ e
             (cli_body_faithful screenshotPath _ (cli_wait_faithful target)) Hlog Hclose).
  - intros message Hstart.
    unfold Cli.takeScreenshot, Cli.takeScreenshotAtExactTime, bind, call.
    rewrite Hstart. split; reflexivity.
  - intros g now r Hx Hw. unfold Cli.step. destruct r as [path|message]; cbn; rewrite Hx;
      destruct (Cli.prewarms g); try congruence; reflexivity.
Qed.

Lemma capture_errors_by_variant_witness :
  throws no_browser CloseAfterError = None /\
  exists r,
    fst (Server.takeScreenshotAtExactTime "/home/u/Desktop/screenshots"
           1764309600000 no_browser start) = Ok r /\
    r = failed "browserType.launch: Executable does not exist".
Proof.
  split; [reflexivity|].
  destruct (capture_errors_by_variant "/home/u/Desktop/screenshots" 1764309600000
              no_browser eq_refl) as (_ & (r & Hr & Hfatal & _) & _).
  exists r. split; [exact Hr|].
  apply (Hfatal Launch); [|reflexivity|reflexivity].
  vm_compute. right. left. reflexivity.
Defined.
End CaptureClaims.

(** ** Strings, paths and the listing *)

Section StringFacts.

Lemma append_cons c a b : (String c a +:+ b)%string = String c (a +:+ b).
Proof. reflexivity. Qed.

Lemma startsWith_spec s p :
  Str.startsWith s p = true <-> exists rest, s = (p +:+ rest)%string.
Proof.
  unfold Str.startsWith. revert s.
  induction p as [|c p IH]; intros [|c' s]; cbn.
  - split; [intros _; now exists ""%string|reflexivity].
  - split; [intros _; now exists (String c' s)|reflexivity].
  - split; [discriminate|intros [rest H]; discriminate].
  - destruct (ascii_dec c c') as [<-|Hne].
    + rewrite IH. split; intros [rest H]; exists rest;
        rewrite append_cons in *; congruence.
    + split; [discriminate|intros [rest H]; rewrite append_cons in H; congruence].
Qed.

Lemma substring_whole s : String.substring 0 (String.length s) s = s.
Proof. induction s as [|c s IH]; cbn; [reflexivity|now rewrite IH]. Qed.

Lemma substring_suffix stem p :
  String.substring (String.length stem) (String.length p) (stem +:+ p) = p.
Proof.
  induction stem as [|c stem IH]; [apply substring_whole|].
  rewrite append_cons. exact IH.
Qed.

Lemma length_app_string a b :
  String.length (a +:+ b) = (String.length a + String.length b)%nat.
Proof.
  induction a as [|c a IH]; [reflexivity|].
  rewrite append_cons. cbn. now rewrite IH.
Qed.

Lemma substring_cut s : forall n, (n <= String.length s)%nat ->
  s = (String.substring 0 n s +:+ String.substring n (String.length s - n) s)%string.
Proof.
  induction s as [|c s IH]; intros [|n] Hn; cbn in *; try lia.
  - reflexivity.
  - now rewrite substring_whole.
  - rewrite append_cons. f_equal. apply IH. lia.
Qed.

Lemma endsWith_spec s p :
  Str.endsWith s p = true <-> exists stem, s = (stem +:+ p)%string.
Proof.
  unfold Str.endsWith. rewrite andb_true_iff, Nat.leb_le, String.eqb_eq. split.
  - intros [Hle Hsub]. exists (String.substring 0 (String.length s - String.length p) s).
    pose proof (substring_cut s (String.length s - String.length p)) as Hcut.
    replace (String.length s - (String.length s - String.length p))%nat
      with (String.length p) in Hcut by lia.
    rewrite Hsub in Hcut. apply Hcut. lia.
  - intros [stem ->]. rewrite length_app_string. split; [lia|].
    replace (String.length stem + String.length p - String.length p)%nat
      with (String.length stem) by lia.
    apply substring_suffix.
Qed.

Lemma split_nonempty s : Path.split s <> [].
Proof.
  destruct s as [|c s]; cbn; [discriminate|].
  destruct (Ascii.eqb c Path.slash); [discriminate|].
  destruct (Path.split s); discriminate.
Qed.

Lemma split_glued a b :
  Path.split (a +:+ "/" +:+ b) = Path.split a ++ Path.split b.
Proof.
  induction a as [|c a IH]; [reflexivity|].
  rewrite append_cons. cbn [Path.split]. rewrite IH.
  destruct (Ascii.eqb c Path.slash); [reflexivity|].
  pose proof (split_nonempty a). destruct (Path.split a); [contradiction|reflexivity].
Qed.

Lemma normalizeString_app allow l1 : forall l2 res,
  Path.normalizeString allow (l1 ++ l2) res
  = Path.normalizeString allow l2 (Path.normalizeString allow l1 res).
Proof.
  induction l1 as [|seg l1 IH]; intros l2 res; [reflexivity|].
  cbn [app Path.normalizeString].
  destruct (String.eqb seg "" || String.eqb seg "."); [apply IH|].
  destruct (String.eqb seg ".."); [|apply IH].
  destruct res as [|last res]; [apply IH|].
  destruct (String.eqb last ".."); apply IH.
Qed.

(** Segments among which none is [..] only add to what is kept. *)
Lemma normalizeString_plain allow l : forall res,
  Forall (fun seg => seg <> ".."%string) l ->
  exists added, Path.normalizeString allow l res = added ++ res.
Proof.
  induction l as [|seg l IH]; intros res Hl; [now exists []|].
  inversion Hl as [|? ? Hseg Hl']; subst. cbn [Path.normalizeString].
  destruct (String.eqb seg "" || String.eqb seg "."); [now apply IH|].
  destruct (String.eqb seg "..") eqn:Hdots; [apply String.eqb_eq in Hdots; contradiction|].
  destruct (IH (seg :: res) Hl') as [added ->].
  exists (added ++ [seg]). now rewrite <- app_assoc.
Qed.

Lemma isAbsolute_glued a b :
  a <> ""%string -> Path.isAbsolute (a +:+ "/" +:+ b) = Path.isAbsolute a.
Proof. destruct a; [contradiction|reflexivity]. Qed.

(** A file name without a [..] segment resolves within the directory. *)
Lemma glue_within dir filename :
  dir <> ""%string ->
  Forall (fun seg => seg <> ".."%string) (Path.split filename) ->
  Path.within (Path.resolve_segments dir)
              (Path.resolve_segments (Path.glue dir filename)).
Proof.
  intros Hdir Hplain. unfold Path.glue.
  destruct (String.eqb dir "") eqn:Hd; [apply String.eqb_eq in Hd; contradiction|].
  destruct (String.eqb filename ""); [split; [reflexivity|exists []; now rewrite app_nil_r]|].
  unfold Path.within, Path.resolve_segments. cbn [Path.absolute Path.segments].
  rewrite isAbsolute_glued by exact Hdir. split; [reflexivity|].
  rewrite split_glued, normalizeString_app.
  destruct (normalizeString_plain (negb (Path.isAbsolute dir)) (Path.split filename)
              (Path.normalizeString (negb (Path.isAbsolute dir)) (Path.split dir) []) Hplain)
    as [added ->].
  exists (rev added). apply rev_app_distr.
Qed.
End StringFacts.

Section SortFacts.
Context {A : Type} (key : A -> Z).

Lemma insert_sorted_perm x l :
  Permutation (Server.insert_sorted (fun a b => key b - key a) x l) (x :: l).
Proof.
  induction l as [|y l IH]; cbn; [reflexivity|].
  destruct (key y - key x <=? 0); [reflexivity|].
  rewrite IH. apply perm_swap.
Qed.

Lemma sort_perm l : Permutation (Server.sort (fun a b => key b - key a) l) l.
Proof.
  induction l as [|x l IH]; cbn; [reflexivity|].
  rewrite insert_sorted_perm. now constructor.
Qed.

Lemma insert_sorted_sorted x l :
  StronglySorted (Server.newest_first key) l ->
  StronglySorted (Server.newest_first key) (Server.insert_sorted (fun a b => key b - key a) x l).
Proof.
  induction 1 as [|y l Hl IH Hy]; cbn; [repeat constructor|].
  destruct (key y - key x <=? 0) eqn:Hc.
  - apply Z.leb_le in Hc. constructor; [now constructor|].
    constructor; [unfold Server.newest_first; lia|].
    eapply Forall_impl; [exact Hy|]. unfold Server.newest_first. intros z Hz. cbn in Hz. lia.
  - apply Z.leb_gt in Hc. constructor; [exact IH|].
    rewrite (List.Forall_forall (Server.newest_first key y)). intros z Hz.
    apply (Permutation_in _ (insert_sorted_perm x l)) in Hz.
    destruct Hz as [<-|Hz]; [unfold Server.newest_first; lia|].
    rewrite (List.Forall_forall (Server.newest_first key y)) in Hy. now apply Hy.
Qed.

Lemma sort_sorted l :
  StronglySorted (Server.newest_first key) (Server.sort (fun a b => key b - key a) l).
Proof.
  induction l as [|x l IH]; cbn; [constructor|]. now apply insert_sorted_sorted.
Qed.
End SortFacts.

Section FileClaims.
Import Server.

Example listing_of_three :
  get_screenshots "/home/u/Desktop/screenshots"
    (Some [ {| name := "screenshot-a.png"; birthtime := 200; size := 10 |};
            {| name := "notes.txt"; birthtime := 900; size := 11 |};
            {| name := "screenshot-b.png"; birthtime := 300; size := 12 |};
            {| name := "screenshot-c.png"; birthtime := 100; size := 13 |};
            {| name := "screenshot-d.jpg"; birthtime := 800; size := 14 |} ])
  = json (Screenshots
            [ ("screenshot-b.png", "/home/u/Desktop/screenshots/screenshot-b.png", 300, 12);
              ("screenshot-a.png", "/home/u/Desktop/screenshots/screenshot-a.png", 200, 10);
              ("screenshot-c.png", "/home/u/Desktop/screenshots/screenshot-c.png", 100, 13) ]%string).
Proof. vm_compute. reflexivity. Qed.

(** C6. The listing answers with an empty list when the output directory
    does not exist.  Otherwise it answers with one object for each entry of
    the directory whose name begins with [screenshot-] and ends with [.png],
    and for no other: the listed objects are a permutation of those built
    from the matching entries, each carrying the entry's name, creation time
    and size, and they are sorted by creation time, newest first. *)
Theorem list_screenshots_sorted screenshotPath :
  get_screenshots screenshotPath None = json (Screenshots []) /\
  (forall file,
     is_screenshot file = true <->
     (exists rest, file = ("screenshot-" +:+ rest)%string) /\
     (exists stem, file = (stem +:+ ".png")%string)) /\
  forall entries, exists files,
    get_screenshots screenshotPath (Some entries) = json (Screenshots files) /\
    Permutation files
      (map (describe screenshotPath)
           (List.filter (fun d => is_screenshot (name d)) entries)) /\
    StronglySorted (newest_first created_of) files /\
    (forall f, In f files <->
       exists d, In d entries /\ is_screenshot (name d) = true /\
                 f = describe screenshotPath d /\
                 filename_of f = name d /\ created_of f = birthtime d /\
                 size_of f = size d).
Proof.
  split_and!.
  - reflexivity.
  - intros file. unfold is_screenshot.
    rewrite andb_true_iff, startsWith_spec, endsWith_spec. reflexivity.
  - intros entries. eexists. split; [reflexivity|].
    pose proof (sort_perm created_of
                  (map (describe screenshotPath)
                       (List.filter (fun d => is_screenshot (name d)) entries))) as Hperm.
    split_and!.
    + exact Hperm.
    + apply sort_sorted.
    + intros f. split.
      * intros Hin. apply (Permutation_in _ Hperm) in Hin.
        apply in_map_iff in Hin as (d & <- & Hd).
        apply filter_In in Hd as [Hd Hm]. exists d. split_and!; auto.
      * intros (d & Hd & Hm & -> & _).
        apply (Permutation_in _ (Permutation_sym Hperm)).
        apply in_map. apply filter_In. auto.
Qed.

(** C8, as stated, fails: a file name with a [..] segment makes the
    service send a file that lies outside the output directory. *)
Lemma screenshot_path_escapes :
  get_screenshot "/home/u/Desktop/screenshots"
                 (String.eqb "/home/u/Desktop/notes.png") "../notes.png"
  = json (File "/home/u/Desktop/notes.png") /\
  ~ Path.within (Path.resolve_segments "/home/u/Desktop/screenshots")
                (Path.resolve_segments
                   (Path.glue "/home/u/Desktop/screenshots" "../notes.png")).
Proof.
  split; [vm_compute; reflexivity|].
  intros [_ [rest Hrest]]. vm_compute in Hrest. discriminate.
Qed.

(** C8, amended. The path that the endpoint looks up and sends is the
    join of the output directory and the file name; the answer is 404 when
    nothing exists at that path, and a file is sent only from that path and
    only when it exists.  The path lies within the output directory whenever
    the file name has no [..] segment; nothing restricts a file name that
    has one. *)
Theorem screenshot_path_joined screenshotPath exists_ filename :
  Path.join screenshotPath filename = Path.normalize (Path.glue screenshotPath filename) /\
  (exists_ (Path.join screenshotPath filename) = false ->
   get_screenshot screenshotPath exists_ filename
   = Response 404 (Error "Screenshot not found")) /\
  (forall p, get_screenshot screenshotPath exists_ filename = json (File p) ->
             p = Path.join screenshotPath filename /\ exists_ p = true) /\
  (screenshotPath <> ""%string ->
   Forall (fun seg => seg <> ".."%string) (Path.split filename) ->
   Path.within (Path.resolve_segments screenshotPath)
               (Path.resolve_segments (Path.glue screenshotPath filename))).
Proof.
  split_and!.
  - reflexivity.
  - intros Hno. unfold get_screenshot. now rewrite Hno.
  - intros p. unfold get_screenshot.
    destruct (exists_ (Path.join screenshotPath filename)) eqn:Hex; cbn; [|discriminate].
    destruct (Path.isAbsolute (Path.join screenshotPath filename)); [|discriminate].
    intros [= <-]. auto.
  - apply glue_within.
Qed.
End FileClaims.

Section SchedulerClaims.
Import Cli.

Example guard_race :
  map fst (prewarms (run [Tick 1764309584000; BackupFires 1764309585000;
                          Tick 1764309585001; CaptureSettles 1764309600200 None;
                          Tick 1764309601000]
                         (scheduleWithPeriodicChecks 1764309600000 1764309000000)))
  = [ByBackup].
Proof. reflexivity. Qed.

Example guard_poll_first :
  prewarms (run [Tick 1764309585000; BackupFires 1764309585000]
                (scheduleWithPeriodicChecks 1764309600000 1764309000000))
  = [(ByInterval, 1764309585000)].
Proof. reflexivity. Qed.

(** C1. Whatever events the runtime delivers to an armed guard, in
    whatever order and at whatever times, the preparation is started at most
    once.  It is started exactly once as soon as one event passes the guard's
    condition (a tick at or after the early start, or the expiry of the
    backup timer), the interval is then cleared and the flag set, and no event
    after the first start starts another.  The event loop itself delivers
    such an event, however late its callbacks run, so the preparation is
    started exactly once; and what ends the process, a signal or a line
    that cannot be written to the log, starts none. *)
Theorem guard_fires_once target now es :
  (length (prewarms (run es (scheduleWithPeriodicChecks target now))) <= 1)%nat /\
  (existsb (passes_guard (scheduleWithPeriodicChecks target now)) es = true ->
   length (prewarms (run es (scheduleWithPeriodicChecks target now))) = 1%nat /\
   hasExecuted (run es (scheduleWithPeriodicChecks target now)) = true /\
   intervalId (run es (scheduleWithPeriodicChecks target now)) = false) /\
  (forall es1 es2, es = es1 ++ es2 ->
     length (prewarms (run es1 (scheduleWithPeriodicChecks target now))) = 1%nat ->
     prewarms (run es (scheduleWithPeriodicChecks target now))
     = prewarms (run es1 (scheduleWithPeriodicChecks target now))) /\
  (forall lag, (forall n, 0 <= lag n) ->
   forall fuel,
     (Z.to_nat ((target - PROCESS_DURATION_MS - now) / checkInterval) < fuel)%nat ->
     length (prewarms (armed (turns lag fuel (boot target now)))) = 1%nat) /\
  (forall inputs,
     (length (prewarms (process_run inputs (scheduleWithPeriodicChecks target now))) <= 1)%nat).
Proof.
  destruct (armed_initially target now) as (Hp & Hi & Hw).
  destruct (run_armed es _ Hp Hi Hw) as (Hmost & Hone & _).
  split_and!; [exact Hmost|exact Hone| | |].
  - intros es1 es2 -> Hlen.
    destruct (run_armed es1 _ Hp Hi Hw) as (_ & Hfired & Hnone).
    destruct (existsb (passes_guard (scheduleWithPeriodicChecks target now)) es1) eqn:Hex.
    + destruct (Hfired eq_refl) as (_ & Hh & Hint).
      rewrite run_app. now apply run_after_fire.
    + rewrite (Hnone eq_refl) in Hlen. discriminate.
  - intros lag Hlag fuel Hfuel. now apply boot_fires_once.
  - intros inputs. rewrite process_run_delivered.
    now destruct (run_armed (delivered inputs) _ Hp Hi Hw) as (Hle & _).
Qed.

(** C5, as stated, fails for the standalone scheduler: armed five seconds
    before the target, it has no backup timer and starts the preparation at
    the first tick of the interval, one second after the arming, which is
    later than the target minus 15000 ms. *)
Lemma prewarm_starts_late :
  1764309600000 < 1764309605000 /\
  (forall fuel, (0 < fuel)%nat ->
     map snd (prewarms (armed (turns (fun _ => 0) fuel
                                 (boot 1764309605000 1764309600000))))
     = [1764309601000]) /\
  1764309605000 - PROCESS_DURATION_MS < 1764309601000.
Proof.
  split_and!; [lia| |unfold PROCESS_DURATION_MS; lia].
  intros fuel Hfuel.
  rewrite (turns_fire_late (fun _ => 0) (fun _ => Z.le_refl 0) fuel
             1764309605000 1764309600000); [reflexivity| |exact Hfuel].
  unfold PROCESS_DURATION_MS. lia.
Qed.

(** C5, amended. Both programs compute the start of the preparation as the
    target minus 15000 ms: the standalone scheduler as the early start of its
    guard, the service as the date for which it asks the library to run the
    job.  When that instant is ahead at the arming, by no more than the
    largest delay that a timer of the runtime takes, the standalone scheduler
    starts the preparation at that instant or later, as late as the runtime
    runs its callbacks, and never before it; with exact timers it starts at
    that instant exactly.  When the instant has already passed at the
    arming, the preparation starts at the first tick of the interval, 1000 ms
    after the arming. *)
Theorem prewarm_lead target now :
  earlyStartTime (scheduleWithPeriodicChecks target now) = target - 15000 /\
  (forall parse req st,
     Server.status (fst (Server.post_schedule parse req st)) = 200 ->
     exists t timer,
       Js.newDate parse (Server.req_datetime req) = Some t /\
       Server.pending (snd (Server.post_schedule parse req st)) !! Server.created st
       = Some timer /\
       Server.fireAt timer = t - 15000 /\
       Server.cb_targetDate (Server.invoke timer) = t) /\
  (now < target - 15000 -> target - 15000 - now <= Js.TIMEOUT_MAX ->
   backupTimer (scheduleWithPeriodicChecks target now) = Some (target - 15000 - now) /\
   now + Js.timer_delay (target - 15000 - now) = target - 15000 /\
   forall lag, (forall n, 0 <= lag n) ->
   forall fuel,
     (Z.to_nat ((target - 15000 - now) / 1000) < fuel)%nat ->
     exists t,
       map snd (prewarms (armed (turns lag fuel (boot target now)))) = [t] /\
       target - 15000 <= t /\
       ((forall k, lag k = 0) -> t = target - 15000)) /\
  (target - 15000 <= now ->
   backupTimer (scheduleWithPeriodicChecks target now) = None /\
   forall lag, (forall n, 0 <= lag n) ->
   forall fuel, (0 < fuel)%nat ->
     map snd (prewarms (armed (turns lag fuel (boot target now))))
     = [now + 1000 + lag 0%nat]).
Proof.
  split_and!.
  - reflexivity.
  - intros parse req st Hok.
    destruct (post_schedule_cases parse req st)
      as [[_ [H|H]]|(t & j & i & Hd & _ & _ & _ & _ & _ & Hst)];
      [rewrite H in Hok; discriminate|rewrite H in Hok; discriminate|].
    rewrite Hst. cbn. eexists t, _. split_and!; [exact Hd|apply lookup_insert_eq| |];
      reflexivity.
  - intros Hearly Hrange. split_and!.
    + cbn. unfold PROCESS_DURATION_MS.
      destruct (0 <? target - 15000 - now) eqn:H0; [reflexivity|].
      apply Z.ltb_ge in H0. lia.
    + unfold Js.timer_delay.
      destruct (1 <=? target - 15000 - now) eqn:H1; [|apply Z.leb_gt in H1; lia].
      destruct (target - 15000 - now <=? Js.TIMEOUT_MAX) eqn:H2;
        [cbn; lia|apply Z.leb_gt in H2; lia].
    + intros lag Hlag fuel Hfuel. now apply boot_fire_at_early.
  - intros Hlate. split.
    + cbn. unfold PROCESS_DURATION_MS.
      destruct (0 <? target - 15000 - now) eqn:H0; [|reflexivity].
      apply Z.ltb_lt in H0. lia.
    + intros lag Hlag fuel Hfuel. now apply turns_fire_late.
Qed.

(** C9. Run with no argument, the standalone scheduler prints the usage
    message and exits with status 0, which is exactly what it does when its
    first argument is the help flag. *)
Theorem main_without_arguments parse log_throws now now_arm :
  main parse log_throws [] now now_arm = Exited 0 usage [] /\
  main parse log_throws [] now now_arm
  = main parse log_throws ["--help"%string] now now_arm /\
  forall rest,
    main parse log_throws ("--help"%string :: rest) now now_arm = Exited 0 usage [].
Proof. split_and!; reflexivity. Qed.

Example main_rejects_past :
  main (fun _ => Some 1764309600000) (fun _ => None) ["2025-11-28T14:00:00+08:00"%string]
       1764309600000 1764309600000
  = Exited 1 [] ["The specified time is in the past!"%string].
Proof. reflexivity. Qed.
End SchedulerClaims.

(** * Further properties of the code *)

(** ** The life of a job in the service *)

Section JobLife.
Import Server.
Variable parse : string -> option Z.

(** A schedule request either leaves the state as it is, with an answer
    that is not a success, or stores the entry of its job under the job's id
    and leaves the job pending. *)
Lemma post_schedule_accepted req st :
  (snd (post_schedule parse req st) = st /\
   status (fst (post_schedule parse req st)) <> 200) \/
  (exists t,
     Js.newDate parse (req_datetime req) = Some t /\ now_checked req < t /\
     post_schedule parse req st
     = (json (Scheduled (Api.job_id req) t),
        State (<[Api.job_id req := Api.entry req t (created st)]> (scheduledJobs st))
              (<[created st := Api.timer_of req t]> (pending st))
              (running st) (S (created st)) (alive st))).
Proof.
  unfold post_schedule.
  destruct (Js.truthy (req_datetime req)); cbn; [|left; split; [done|lia]].
  destruct (Js.toPrimitive_error (req_datetime req)); [left; split; [done|cbn; lia]|].
  destruct (Js.newDate parse (req_datetime req)) as [t|]; [|left; split; [done|cbn; lia]].
  destruct (t <=? now_checked req) eqn:Hc; [left; split; [done|cbn; lia]|].
  apply Z.leb_gt in Hc.
  unfold scheduleJob. destruct (job_created req); cbn; [|left; split; [done|lia]].
  right. exists t. split_and!; [reflexivity|lia|reflexivity].
Qed.

Lemma post_schedule_consistent req st :
  Api.consistent st -> Api.consistent (snd (post_schedule parse req st)).
Proof.
  intros (Hp & Hr & Hd & Hk).
  destruct (post_schedule_accepted req st) as [[-> _]|(t & _ & _ & ->)]; [done|].
  unfold Api.consistent. cbn.
  split_and!.
  - intros h. destruct (decide (created st = h)) as [<-|Hne]; [lia|].
    rewrite lookup_insert_ne by done. intros H. specialize (Hp h H). lia.
  - intros h H. specialize (Hr h H). lia.
  - intros h. destruct (decide (created st = h)) as [<-|Hne].
    + intros _. destruct (running st !! created st) eqn:E; [|done].
      specialize (Hr (created st) (mk_is_Some _ _ E)). lia.
    + rewrite lookup_insert_ne by done. apply Hd.
  - intros jobId info.
    destruct (decide (Api.job_id req = jobId)) as [Heq|Hne].
    + rewrite Heq, lookup_insert_eq. intros [= <-]. exact Heq.
    + rewrite lookup_insert_ne by done. apply Hk.
Qed.

Lemma delete_jobs_consistent j st :
  Api.consistent st -> Api.consistent (snd (delete_jobs j st)).
Proof.
  intros (Hp & Hr & Hd & Hk).
  unfold delete_jobs. destruct (scheduledJobs st !! j) as [i|]; [|done].
  destruct (job i) as [h|]; [|done]. unfold Api.consistent. cbn. split_and!.
  - intros h' [x Hx]. apply lookup_delete_Some in Hx as [_ Hx]. apply Hp. eauto.
  - exact Hr.
  - intros h' [x Hx]. apply lookup_delete_Some in Hx as [_ Hx]. apply Hd. eauto.
  - intros jobId info Hl. apply lookup_delete_Some in Hl as [_ Hl]. eauto.
Qed.

Lemma job_fires_consistent h st :
  Api.consistent st -> Api.consistent (job_fires h st).
Proof.
  intros (Hp & Hr & Hd & Hk).
  unfold job_fires. destruct (pending st !! h) as [t|] eqn:Ht; [|done].
  unfold Api.consistent. cbn. split_and!.
  - intros h' [x Hx]. apply lookup_delete_Some in Hx as [_ Hx]. apply Hp. eauto.
  - intros h'. destruct (decide (h = h')) as [<-|Hne].
    + intros _. apply Hp. eauto.
    + rewrite lookup_insert_ne by done. apply Hr.
  - intros h' [x Hx]. apply lookup_delete_Some in Hx as [Hne Hx].
    rewrite lookup_insert_ne by done. apply Hd. eauto.
  - exact Hk.
Qed.

Lemma job_completes_consistent h r st :
  Api.consistent st -> Api.consistent (job_completes h r st).
Proof.
  intros (Hp & Hr & Hd & Hk).
  unfold job_completes. destruct (running st !! h) as [cb|] eqn:Hcb; [|done].
  assert (Hbase : Api.consistent
            (State (scheduledJobs st) (pending st) (delete h (running st)) (created st)
                   (alive st))).
  { unfold Api.consistent. cbn. split_and!; [exact Hp| | |exact Hk].
    - intros h' [x Hx]. apply lookup_delete_Some in Hx as [_ Hx]. apply Hr. eauto.
    - intros h' Hx. destruct (decide (h = h')) as [<-|Hne];
        [apply lookup_delete_eq|rewrite lookup_delete_ne by done; now apply Hd]. }
  destruct r; [|exact Hbase].
  destruct (negb (Js.truthy (cb_recurring cb))); [|exact Hbase].
  destruct Hbase as (Hp' & Hr' & Hd' & Hk'). unfold Api.consistent. cbn in *.
  split_and!; auto.
  intros jobId info Hl. apply lookup_delete_Some in Hl as [_ Hl]. eauto.
Qed.

Lemma crash_consistent st : Api.consistent (crash st).
Proof.
  unfold Api.consistent. cbn. split_and!; intros *; rewrite lookup_empty;
    try (intros [? ?]); discriminate.
Qed.

Lemma act_keeps_consistent a st :
  Api.consistent st -> Api.consistent (act parse a st).
Proof.
  intros Hc. unfold act. destruct (alive st); [|exact Hc].
  destruct a as [req| |j|h|h r]; cbn [post_schedule_body snd].
  - now apply post_schedule_consistent.
  - exact Hc.
  - now apply delete_jobs_consistent.
  - now apply job_fires_consistent.
  - unfold settle. destruct (running st !! h), r;
      try (now apply job_completes_consistent). apply crash_consistent.
Qed.

Lemma reachable_consistent actions : Api.consistent (after parse actions).
Proof.
  induction actions as [|a actions IH] using rev_ind.
  - unfold Api.consistent. cbn. split_and!; intros *; rewrite lookup_empty;
      try (intros [? ?]); discriminate.
  - rewrite after_snoc. now apply act_keeps_consistent.
Qed.

(** A job that is created and no longer pending stays so, whatever the
    service does next. *)
Lemma act_keeps_settled a st h :
  (h < created st)%nat -> pending st !! h = None ->
  (h < created (act parse a st))%nat /\ pending (act parse a st) !! h = None.
Proof.
  intros Hlt Hnone. unfold act. destruct (alive st); [|done].
  destruct a as [req| |j|h'|h' r]; cbn [post_schedule_body snd].
  - destruct (post_schedule_accepted req st) as [[-> _]|(t & _ & _ & ->)]; [done|].
    cbn. split; [lia|]. rewrite lookup_insert_ne by lia. exact Hnone.
  - done.
  - unfold delete_jobs. destruct (scheduledJobs st !! j) as [i|]; [|done].
    destruct (job i) as [h0|]; [|done]. cbn. split; [done|].
    destruct (decide (h0 = h)) as [->|Hne];
      [apply lookup_delete_eq|now rewrite lookup_delete_ne].
  - unfold job_fires. destruct (pending st !! h') eqn:E; [|done]. cbn. split; [done|].
    destruct (decide (h' = h)) as [->|Hne];
      [apply lookup_delete_eq|now rewrite lookup_delete_ne].
  - unfold settle, job_completes. destruct (running st !! h') as [cb|]; [|done].
    destruct r; [|done]. now destruct (negb (Js.truthy (cb_recurring cb))).
Qed.

Lemma act_keeps_idle a st h :
  (h < created st)%nat -> pending st !! h = None -> running st !! h = None ->
  running (act parse a st) !! h = None.
Proof.
  intros Hlt Hnone Hidle. unfold act. destruct (alive st); [|done].
  destruct a as [req| |j|h'|h' r]; cbn [post_schedule_body snd].
  - destruct (post_schedule_accepted req st) as [[-> _]|(t & _ & _ & ->)]; done.
  - done.
  - unfold delete_jobs. destruct (scheduledJobs st !! j) as [i|]; [|done].
    now destruct (job i).
  - unfold job_fires. destruct (pending st !! h') eqn:E; [|done]. cbn.
    destruct (decide (h' = h)) as [Heq|Hne]; [|now rewrite lookup_insert_ne].
    subst h'. unfold handle in *. congruence.
  - unfold settle, job_completes. destruct (running st !! h') as [cb|] eqn:E; [|done].
    assert (delete h' (running st) !! h = None).
    { destruct (decide (h' = h)) as [->|Hne];
        [apply lookup_delete_eq|now rewrite lookup_delete_ne]. }
    destruct r; [|done]. now destruct (negb (Js.truthy (cb_recurring cb))).
Qed.

(** A process that has ended has left nothing behind. *)
Lemma act_keeps_dead_empty a st :
  (alive st = false -> pending st = ∅) ->
  alive (act parse a st) = false -> pending (act parse a st) = ∅.
Proof.
  intros Hinv. unfold act. destruct (alive st) eqn:Ha; [|intros _; exact (Hinv eq_refl)].
  destruct a as [req| |j|h|h r]; cbn [post_schedule_body snd].
  - destruct (post_schedule_accepted req st) as [[-> _]|(t & _ & _ & ->)]; cbn; congruence.
  - congruence.
  - unfold delete_jobs. destruct (scheduledJobs st !! j) as [i|]; [|cbn; congruence].
    destruct (job i); cbn; congruence.
  - unfold job_fires. destruct (pending st !! h); cbn; congruence.
  - unfold settle, job_completes. destruct (running st !! h) as [cb|]; [|congruence].
    destruct r; [|reflexivity].
    destruct (negb (Js.truthy (cb_recurring cb))); cbn; congruence.
Qed.

Lemma reachable_dead_empty actions :
  alive (after parse actions) = false -> pending (after parse actions) = ∅.
Proof.
  induction actions as [|a actions IH] using rev_ind; [discriminate|].
  rewrite after_snoc. now apply act_keeps_dead_empty.
Qed.

(** Nothing happens to a process that has ended. *)
Lemma dead_forever more : forall st,
  alive st = false -> fold_left (fun st a => act parse a st) more st = st.
Proof.
  induction more as [|a more IH]; intros st Hd; [reflexivity|].
  cbn. assert (Ha : act parse a st = st) by (unfold act; now rewrite Hd).
  rewrite Ha. now apply IH.
Qed.

End JobLife.

Section JobLifeClaims.
Import Server Samples.

Lemma settled_forever parse more : forall st h,
  (h < created st)%nat -> pending st !! h = None -> running st !! h = None ->
  pending (fold_left (fun st a => act parse a st) more st) !! h = None /\
  running (fold_left (fun st a => act parse a st) more st) !! h = None.
Proof.
  induction more as [|a more IH]; intros st h Hlt Hp Hr; [done|].
  cbn. destruct (act_keeps_settled parse a st h Hlt Hp) as [Hlt' Hp'].
  apply IH; [exact Hlt'|exact Hp'|]. now apply act_keeps_idle.
Qed.

Lemma scheduled_answer parse req st jobId t :
  fst (post_schedule parse req st) = json (Scheduled jobId t) ->
  jobId = Api.job_id req /\
  snd (post_schedule parse req st)
  = State (<[Api.job_id req := Api.entry req t (created st)]> (scheduledJobs st))
          (<[created st := Api.timer_of req t]> (pending st))
          (running st) (S (created st)) (alive st).
Proof.
  intros Hok. destruct (post_schedule_accepted parse req st) as [[_ Hs]|(t' & _ & _ & Heq)].
  - rewrite Hok in Hs. cbn in Hs. lia.
  - rewrite Heq in Hok |- *. cbn in Hok |- *. injection Hok as -> ->. done.
Qed.

(** X1. Scheduling a job and cancelling it at once puts the registry, the
    pending jobs and the running callbacks back to what they were: the DELETE
    answers with success and nothing of the job is left. *)
Theorem schedule_then_cancel parse actions req jobId t :
  fst (post_schedule parse req (after parse actions)) = json (Scheduled jobId t) ->
  scheduledJobs (after parse actions) !! jobId = None ->
  fst (delete_jobs jobId (snd (post_schedule parse req (after parse actions))))
  = json Canceled /\
  scheduledJobs (snd (delete_jobs jobId (snd (post_schedule parse req (after parse actions)))))
  = scheduledJobs (after parse actions) /\
  pending (snd (delete_jobs jobId (snd (post_schedule parse req (after parse actions)))))
  = pending (after parse actions) /\
  running (snd (delete_jobs jobId (snd (post_schedule parse req (after parse actions)))))
  = running (after parse actions).
Proof.
  intros Hok Hfresh. destruct (scheduled_answer _ _ _ _ _ Hok) as [-> ->].
  destruct (reachable_consistent parse actions) as (Hp & _).
  set (st := after parse actions) in *.
  unfold delete_jobs. cbn. rewrite lookup_insert_eq. cbn.
  split_and!; [done| | |done].
  - now apply delete_insert_id.
  - apply delete_insert_id. destruct (pending st !! created st) eqn:E; [|done].
    specialize (Hp _ (mk_is_Some _ _ E)). lia.
Qed.

Lemma schedule_then_cancel_witness :
  fst (post_schedule parse_two_pm (request false 1764309000000 true) (after parse_two_pm []))
  = json (Scheduled "job-1764309000000-k3x9q0z1a" two_pm_ms) /\
  fst (delete_jobs "job-1764309000000-k3x9q0z1a"
         (snd (post_schedule parse_two_pm (request false 1764309000000 true)
                 (after parse_two_pm []))))
  = json Canceled.
Proof.
  split; [vm_compute; reflexivity|].
  apply (schedule_then_cancel parse_two_pm [] (request false 1764309000000 true)
           "job-1764309000000-k3x9q0z1a" two_pm_ms); vm_compute; reflexivity.
Defined.

(** X2. A one-shot job whose timer fires leaves the registry when its
    capture returns, whether the result is a success or a failure, and the
    service is then as it was before the request; the entry of a recurring
    job stays in the registry although its timer is spent.  When the capture
    throws instead, the rejected callback ends the process: the registry, the
    timers and the callbacks are gone, and nothing happens to the service any
    more. *)
Theorem job_leaves_on_completion parse actions req jobId t :
  fst (post_schedule parse req (after parse actions)) = json (Scheduled jobId t) ->
  scheduledJobs (after parse actions) !! jobId = None ->
  let h := created (after parse actions) in
  let fired := job_fires h (snd (post_schedule parse req (after parse actions))) in
  (Js.truthy (req_recurring req) = false ->
   forall result,
     scheduledJobs (settle h (Capture.Ok result) fired)
     = scheduledJobs (after parse actions) /\
     pending (settle h (Capture.Ok result) fired)
     = pending (after parse actions) /\
     running (settle h (Capture.Ok result) fired)
     = running (after parse actions) /\
     alive (settle h (Capture.Ok result) fired) = alive (after parse actions)) /\
  (Js.truthy (req_recurring req) = true ->
   forall result,
     scheduledJobs (settle h (Capture.Ok result) fired) !! jobId
     = Some (Api.entry req t h) /\
     pending (settle h (Capture.Ok result) fired) !! h = None /\
     running (settle h (Capture.Ok result) fired) !! h = None /\
     alive (settle h (Capture.Ok result) fired) = alive (after parse actions)) /\
  (forall message more,
     settle h (Capture.Throw message) fired = crash fired /\
     alive (settle h (Capture.Throw message) fired) = false /\
     scheduledJobs (settle h (Capture.Throw message) fired) = ∅ /\
     pending (settle h (Capture.Throw message) fired) = ∅ /\
     running (settle h (Capture.Throw message) fired) = ∅ /\
     fold_left (fun st a => act parse a st) more (settle h (Capture.Throw message) fired)
     = settle h (Capture.Throw message) fired).
Proof.
  intros Hok Hfresh. destruct (scheduled_answer _ _ _ _ _ Hok) as [-> Hst].
  destruct (reachable_consistent parse actions) as (Hp & Hr & _).
  set (st := after parse actions) in *. cbv zeta. rewrite Hst.
  assert (Hnp : pending st !! created st = None).
  { destruct (pending st !! created st) eqn:E; [|done].
    specialize (Hp _ (mk_is_Some _ _ E)). lia. }
  assert (Hnr : running st !! created st = None).
  { destruct (running st !! created st) eqn:E; [|done].
    specialize (Hr _ (mk_is_Some _ _ E)). lia. }
  unfold job_fires. cbn. rewrite lookup_insert_eq. cbn.
  unfold settle, job_completes. cbn. rewrite lookup_insert_eq. cbn.
  split_and!.
  - intros Hone result. rewrite Hone. cbn.
    split_and!; [now apply delete_insert_id..|reflexivity].
  - intros Hrec result. rewrite Hrec. cbn.
    split_and!; [apply lookup_insert_eq|apply lookup_delete_eq|apply lookup_delete_eq
                |reflexivity].
  - intros message more. split_and!; try reflexivity.
    now apply dead_forever.
Qed.

Lemma job_leaves_on_completion_witness :
  fst (post_schedule parse_two_pm (request false 1764309000000 true) (after parse_two_pm []))
  = json (Scheduled "job-1764309000000-k3x9q0z1a" two_pm_ms) /\
  scheduledJobs
    (settle 0%nat (Capture.Ok a_result)
       (job_fires 0%nat
          (snd (post_schedule parse_two_pm (request false 1764309000000 true)
                  (after parse_two_pm [])))))
  = scheduledJobs (after parse_two_pm []).
Proof.
  split; [vm_compute; reflexivity|].
  destruct (job_leaves_on_completion parse_two_pm [] (request false 1764309000000 true)
              "job-1764309000000-k3x9q0z1a" two_pm_ms) as [Hone _];
    [vm_compute; reflexivity|vm_compute; reflexivity|].
  apply Hone. reflexivity.
Defined.

(** X3. Cancelling a job after its timer has fired removes the entry and
    answers with success, but does not stop the capture: the callback is
    still running, and when it completes the registry stays without the
    entry. *)
Theorem cancel_after_fire parse actions req jobId t :
  fst (post_schedule parse req (after parse actions)) = json (Scheduled jobId t) ->
  scheduledJobs (after parse actions) !! jobId = None ->
  let h := created (after parse actions) in
  let fired := job_fires h (snd (post_schedule parse req (after parse actions))) in
  fst (delete_jobs jobId fired) = json Canceled /\
  scheduledJobs (snd (delete_jobs jobId fired)) = scheduledJobs (after parse actions) /\
  (exists cb, running (snd (delete_jobs jobId fired)) !! h = Some cb /\
              cb_jobId cb = jobId /\ cb_targetDate cb = t) /\
  forall r,
    scheduledJobs (job_completes h r (snd (delete_jobs jobId fired)))
    = scheduledJobs (after parse actions) /\
    running (job_completes h r (snd (delete_jobs jobId fired)))
    = running (after parse actions).
Proof.
  intros Hok Hfresh. destruct (scheduled_answer _ _ _ _ _ Hok) as [-> Hst].
  destruct (reachable_consistent parse actions) as (Hp & Hr & _).
  set (st := after parse actions) in *. cbv zeta. rewrite Hst.
  assert (Hnr : running st !! created st = None).
  { destruct (running st !! created st) eqn:E; [|done].
    specialize (Hr _ (mk_is_Some _ _ E)). lia. }
  unfold job_fires. cbn. rewrite lookup_insert_eq. cbn.
  unfold delete_jobs. cbn. rewrite lookup_insert_eq. cbn.
  assert (Hdel : delete (Api.job_id req) (<[Api.job_id req := Api.entry req t (created st)]>
                                             (scheduledJobs st)) = scheduledJobs st)
    by now apply delete_insert_id.
  split_and!; [done|exact Hdel| |].
  - eexists. split; [apply lookup_insert_eq|]. done.
  - intros r. unfold job_completes. cbn. rewrite lookup_insert_eq. cbn.
    rewrite Hdel, (delete_insert_id _ _ _ Hnr).
    destruct r; [|done].
    destruct (negb (Js.truthy (req_recurring req))); [|done]. cbn.
    split; [|done]. now apply delete_id.
Qed.

Lemma cancel_after_fire_witness :
  fst (post_schedule parse_two_pm (request false 1764309000000 true) (after parse_two_pm []))
  = json (Scheduled "job-1764309000000-k3x9q0z1a" two_pm_ms) /\
  fst (delete_jobs "job-1764309000000-k3x9q0z1a"
         (job_fires 0%nat
            (snd (post_schedule parse_two_pm (request false 1764309000000 true)
                    (after parse_two_pm [])))))
  = json Canceled.
Proof.
  split; [vm_compute; reflexivity|].
  apply (cancel_after_fire parse_two_pm [] (request false 1764309000000 true)
           "job-1764309000000-k3x9q0z1a" two_pm_ms); vm_compute; reflexivity.
Defined.

(** X4. A job that is cancelled while it waits for its date never runs:
    whatever requests and timer events follow the DELETE, the job is not
    pending and not running again, and its timer firing does nothing. *)
Theorem cancelled_job_never_runs parse actions jobId info h more :
  scheduledJobs (after parse actions) !! jobId = Some info ->
  job info = Some h ->
  is_Some (pending (after parse actions) !! h) ->
  pending (after parse (actions ++ DeleteJob jobId :: more)) !! h = None /\
  running (after parse (actions ++ DeleteJob jobId :: more)) !! h = None /\
  job_fires h (after parse (actions ++ DeleteJob jobId :: more))
  = after parse (actions ++ DeleteJob jobId :: more).
Proof.
  intros Hinfo Hjob Hpend.
  destruct (reachable_consistent parse actions) as (Hp & _ & Hd & _).
  assert (Halive : alive (after parse actions) = true).
  { destruct (alive (after parse actions)) eqn:Ha; [reflexivity|].
    rewrite (reachable_dead_empty parse actions Ha), lookup_empty in Hpend.
    now destruct Hpend. }
  assert (Hsplit : after parse (actions ++ DeleteJob jobId :: more)
                   = fold_left (fun st a => act parse a st) more
                       (snd (delete_jobs jobId (after parse actions)))).
  { unfold after. rewrite fold_left_app. cbn [fold_left]. unfold act at 2.
    fold (after parse actions). now rewrite Halive. }
  rewrite Hsplit.
  assert (H : pending (fold_left (fun st a => act parse a st) more
                         (snd (delete_jobs jobId (after parse actions)))) !! h = None /\
              running (fold_left (fun st a => act parse a st) more
                         (snd (delete_jobs jobId (after parse actions)))) !! h = None).
  { apply settled_forever; unfold delete_jobs; rewrite Hinfo, Hjob; cbn.
    - now apply Hp.
    - apply lookup_delete_eq.
    - now apply Hd. }
  destruct H as [H1 H2]. split_and!; [exact H1|exact H2|].
  unfold job_fires. unfold handle in *. now rewrite H1.
Qed.

Lemma cancelled_job_never_runs_witness :
  is_Some (pending (after parse_two_pm [PostSchedule (request false 1764309000000 true)])
             !! 0%nat) /\
  running (after parse_two_pm
             ([PostSchedule (request false 1764309000000 true)]
              ++ DeleteJob "job-1764309000000-k3x9q0z1a"
                 :: [JobFires 0%nat; JobCompletes 0%nat (Capture.Ok a_result)])) !! 0%nat
  = None.
Proof.
  assert (Hp : is_Some (pending (after parse_two_pm
                                   [PostSchedule (request false 1764309000000 true)])
                          !! 0%nat)).
  { eexists. vm_compute. reflexivity. }
  split; [exact Hp|].
  apply (cancelled_job_never_runs parse_two_pm
           [PostSchedule (request false 1764309000000 true)]
           "job-1764309000000-k3x9q0z1a"
           (Api.entry (request false 1764309000000 true) two_pm_ms 0%nat) 0%nat
           [JobFires 0%nat; JobCompletes 0%nat (Capture.Ok a_result)]);
    [vm_compute; reflexivity|reflexivity|exact Hp].
Defined.
End JobLifeClaims.

(** ** The guard's log, starts and exit *)

Section WatchFacts.
Import Cli.

Lemma countdown_arith diff :
  0 < diff -> Z.rem (diff / 1000) 30 = 0 ->
  (Z.rem (diff / 1000) 60 = 0 \/ Z.rem (diff / 1000) 60 = 30) /\
  0 <= diff / 1000 / 60 /\
  60 * (diff / 1000 / 60) + Z.rem (diff / 1000) 60 = diff / 1000.
Proof.
  intros Hpos Hrem.
  assert (Hq : 0 <= diff / 1000) by (apply Z.div_pos; lia).
  rewrite Z.rem_mod_nonneg in Hrem by lia.
  rewrite Z.rem_mod_nonneg by lia.
  pose proof (Z.div_mod (diff / 1000) 30 ltac:(lia)) as H30.
  pose proof (Z.div_mod (diff / 1000) 60 ltac:(lia)) as H60.
  pose proof (Z.mod_pos_bound (diff / 1000) 60 ltac:(lia)) as Hb.
  assert (0 <= diff / 1000 / 60) by (apply Z.div_pos; lia).
  lia.
Qed.

Lemma watched_log target now t l g :
  exited g = None -> Watch.line_ok target (t, l) ->
  Watch.watched target now g -> Watch.watched target now (log t l g).
Proof.
  intros Hx Hl (Ht & He & Hb & Hls & Hs & _).
  unfold Watch.watched, Watch.exit_ok. cbn. rewrite Hx.
  split_and!; auto.
Qed.

Lemma watched_fire target now by_ t g :
  exited g = None -> Watch.start_ok target now (by_, t) ->
  Watch.watched target now g -> Watch.watched target now (fire by_ t g).
Proof.
  intros Hx Hl (Ht & He & Hb & Hls & Hs & _).
  unfold Watch.watched, Watch.exit_ok. cbn. rewrite Hx.
  split_and!; auto.
Qed.

Lemma watched_backup_consumed target now g :
  Watch.watched target now g -> Watch.watched target now (backup_consumed g).
Proof.
  intros (Ht & He & Hb & Hls & Hs & Hx).
  unfold Watch.watched, Watch.exit_ok in *. cbn. split_and!; auto.
Qed.

Lemma step_keeps_watched target now e g :
  Watch.watched target now g -> Watch.watched target now (step e g).
Proof.
  intros Hg. unfold step.
  destruct (exited g) as [code|] eqn:Hex; [exact Hg|].
  destruct e as [t|t|t err].
  - destruct (intervalId g); [|exact Hg].
    unfold on_interval.
    set (diff := targetDate g - t).
    set (g1 := if (Z.rem (diff / 1000) 30 =? 0) && (0 <? diff)
               then log t (Countdown (diff / 1000 / 60) (Z.rem (diff / 1000) 60)) g
               else g).
    assert (Hg1 : Watch.watched target now g1 /\ exited g1 = None).
    { subst g1. destruct ((Z.rem (diff / 1000) 30 =? 0) && (0 <? diff)) eqn:Hc;
        [|auto].
      split; [|exact Hex]. apply watched_log; [exact Hex| |exact Hg].
      apply andb_true_iff in Hc as [Hr Hp].
      apply Z.eqb_eq in Hr. apply Z.ltb_lt in Hp.
      destruct (countdown_arith diff Hp Hr) as (H1 & H2 & H3).
      destruct Hg as (Ht & _). cbn. subst diff. rewrite Ht in *. auto. }
    destruct Hg1 as [Hg1 Hx1].
    destruct ((earlyStartTime g1 <=? t) && negb (hasExecuted g1)) eqn:Hf; [|exact Hg1].
    apply andb_true_iff in Hf as [Hf _]. apply Z.leb_le in Hf.
    pose proof Hg1 as (Ht & He & _). rewrite He in Hf.
    apply watched_log; [exact Hx1| |apply watched_fire; auto].
    cbn. rewrite Ht. split; [reflexivity|].
    unfold PROCESS_DURATION_MS in Hf.
    assert ((target - t) / 1000 <= 15000 / 1000) by (apply Z.div_le_mono; lia).
    change (15000 / 1000) with 15 in *. lia.
  - destruct (backupTimer g) as [d|] eqn:Hd; [|exact Hg].
    assert (Hearly : now < target - PROCESS_DURATION_MS).
    { destruct Hg as (_ & _ & [Hb|Hb] & _); [congruence|exact Hb]. }
    unfold on_backup. destruct (negb (hasExecuted (backup_consumed g)));
      [|now apply watched_backup_consumed].
    apply watched_fire; [exact Hex|exact Hearly|].
    apply watched_log; [exact Hex|exact I|now apply watched_backup_consumed].
  - destruct (prewarms g) as [|p ps] eqn:Hp; [exact Hg|].
    destruct Hg as (Ht & He & Hb & Hls & Hs & _).
    destruct err as [message|]; unfold Watch.watched, Watch.exit_ok; cbn; rewrite Hp;
      split_and!; auto; try (constructor; [exact I|exact Hls]);
      rewrite <- Hp; exact Hs.
Qed.

Lemma run_keeps_watched target now es : forall g,
  Watch.watched target now g -> Watch.watched target now (run es g).
Proof.
  induction es as [|e es IH]; intros g Hg; [exact Hg|].
  cbn. apply IH. now apply step_keeps_watched.
Qed.

Lemma armed_watched target now :
  Watch.watched target now (scheduleWithPeriodicChecks target now).
Proof.
  unfold Watch.watched, Watch.exit_ok. cbn. split_and!; auto.
  destruct (0 <? target - PROCESS_DURATION_MS - now) eqn:E; [right|now left].
  apply Z.ltb_lt in E. lia.
Qed.

(** X5. Whatever events reach a guard armed at [now] for [target]: every
    countdown line of its log was written for a positive remaining time on a
    multiple of 30 seconds, with 60 * minutes + seconds the whole seconds
    left; the lead announced at a start by the interval is at most 15
    seconds; the interval never starts the preparation before the early
    start; and the backup timer starts it only when the early start was
    still ahead at the arming. *)
Theorem guard_log_and_starts target now es :
  Forall (Watch.line_ok target) (logged (run es (scheduleWithPeriodicChecks target now))) /\
  Forall (Watch.start_ok target now)
         (prewarms (run es (scheduleWithPeriodicChecks target now))).
Proof.
  destruct (run_keeps_watched target now es _ (armed_watched target now))
    as (_ & _ & _ & Hl & Hs & _).
  auto.
Qed.

(** The first of a run of log lines that throws. *)
Lemma first_throw_none log_throws count : forall from,
  Cli.first_throw log_throws from count = None <->
  forall n, (from <= n < from + count)%nat -> log_throws n = None.
Proof.
  induction count as [|count IH]; intros from; cbn.
  - split; [intros _ n Hn; lia|reflexivity].
  - destruct (log_throws from) as [m|] eqn:Hf.
    + split; [discriminate|]. intros H. rewrite H in Hf by lia. discriminate.
    + rewrite IH. split.
      * intros H n Hn. destruct (decide (n = from)) as [->|Hne]; [exact Hf|].
        apply H. lia.
      * intros H n Hn. apply H. lia.
Qed.

Lemma first_throw_some log_throws count message : forall from,
  Cli.first_throw log_throws from count = Some message <->
  exists n, (from <= n < from + count)%nat /\ log_throws n = Some message /\
            forall k, (from <= k < n)%nat -> log_throws k = None.
Proof.
  induction count as [|count IH]; intros from; cbn.
  - split; [discriminate|]. intros (n & Hn & _). lia.
  - destruct (log_throws from) as [m|] eqn:Hf.
    + split.
      * intros [= <-]. exists from. split; [lia|]. split; [exact Hf|]. intros k Hk. lia.
      * intros (n & Hn & Hm & Hbefore).
        destruct (decide (n = from)) as [->|Hne]; [congruence|].
        rewrite Hbefore in Hf by lia. discriminate.
    + rewrite IH. split.
      * intros (n & Hn & Hm & Hbefore). exists n. split; [lia|]. split; [exact Hm|].
        intros k Hk. destruct (decide (k = from)) as [->|Hne]; [exact Hf|].
        apply Hbefore. lia.
      * intros (n & Hn & Hm & Hbefore). exists n.
        assert (n <> from) by congruence.
        split; [lia|]. split; [exact Hm|]. intros k Hk. apply Hbefore. lia.
Qed.

Lemma first_throw_app log_throws a b : forall from,
  Cli.first_throw log_throws from (a + b)
  = match Cli.first_throw log_throws from a with
    | Some message => Some message
    | None => Cli.first_throw log_throws (from + a) b
    end.
Proof.
  induction a as [|a IH]; intros from; cbn.
  - now rewrite Nat.add_0_r.
  - destruct (log_throws from); [reflexivity|].
    rewrite IH. now replace (S from + a)%nat with (from + S a)%nat by lia.
Qed.

(** [main] with a timestamp that is ahead: the ten lines of the log
    decide. *)
Lemma main_ahead parse log_throws a rest t now now_arm :
  a <> "--help"%string -> parse a = Some t -> now < t ->
  main parse log_throws (a :: rest) now now_arm
  = match first_throw log_throws 0 10 with
    | Some message => Failed message
    | None => Scheduled (scheduleWithPeriodicChecks t now_arm)
    end.
Proof.
  intros Ha Hp Hlt. unfold main. apply String.eqb_neq in Ha. rewrite Ha, Hp.
  destruct (t <=? now) eqn:Hc; [apply Z.leb_le in Hc; lia|].
  change 10%nat with (8 + 2)%nat. rewrite (first_throw_app log_throws 8 2 0).
  now destruct (first_throw log_throws 0 8).
Qed.

(** X7. [main] of the standalone scheduler arms a guard and returns exactly
    when its first argument is not the help flag and parses to an instant
    strictly after the current time, and each of its ten lines is written to
    the log; the guard is the one for that instant.  When one of the lines
    cannot be written, the error of the first such line escapes [main] and
    the process ends with status 1.  Every other call exits at once, with
    status 0 and nothing on standard error for no argument or the help flag,
    and with status 1 and a message on standard error for a timestamp that
    does not parse or is not in the future. *)
Theorem main_arms_future_only parse log_throws args now now_arm :
  (forall g,
     main parse log_throws args now now_arm = Scheduled g <->
     exists a rest t,
       args = a :: rest /\ a <> "--help"%string /\ parse a = Some t /\ now < t /\
       (forall n, (n < 10)%nat -> log_throws n = None) /\
       g = scheduleWithPeriodicChecks t now_arm) /\
  (forall message,
     main parse log_throws args now now_arm = Failed message <->
     exists a rest t n,
       args = a :: rest /\ a <> "--help"%string /\ parse a = Some t /\ now < t /\
       (n < 10)%nat /\ log_throws n = Some message /\
       forall k, (k < n)%nat -> log_throws k = None) /\
  (forall code out err,
     main parse log_throws args now now_arm = Exited code out err ->
     (code = 0 /\ err = [] /\ (args = [] \/ exists rest, args = "--help"%string :: rest)) \/
     (code = 1 /\ err <> [] /\
      exists a rest, args = a :: rest /\ a <> "--help"%string /\
        (parse a = None \/ exists t, parse a = Some t /\ t <= now))) /\
  (forall code,
     status (main parse log_throws args now now_arm) = Some code -> code = 0 \/ code = 1).
Proof.
  assert (Hcases :
    (args = [] \/ exists rest, args = "--help"%string :: rest) /\
    main parse log_throws args now now_arm = Exited 0 usage [] \/
    (exists a rest, args = a :: rest /\ a <> "--help"%string /\ parse a = None /\
       main parse log_throws args now now_arm
       = Exited 1 ["Please use format: YYYY-MM-DDTHH:MM:SS+08:00"%string]
                [("Invalid date/time format: " +:+ a)%string]) \/
    (exists a rest t, args = a :: rest /\ a <> "--help"%string /\ parse a = Some t /\
       t <= now /\
       main parse log_throws args now now_arm
       = Exited 1 [] ["The specified time is in the past!"%string]) \/
    (exists a rest t, args = a :: rest /\ a <> "--help"%string /\ parse a = Some t /\
       now < t /\
       main parse log_throws args now now_arm
       = match first_throw log_throws 0 10 with
         | Some message => Failed message
         | None => Scheduled (scheduleWithPeriodicChecks t now_arm)
         end)).
  { destruct args as [|a rest]; [left; split; [now left|reflexivity]|].
    destruct (String.eqb a "--help") eqn:Ha.
    - apply String.eqb_eq in Ha. subst a. left. split; [right; eauto|reflexivity].
    - right. assert (Hne := Ha). apply String.eqb_neq in Hne.
      destruct (parse a) as [t|] eqn:Hp.
      + right. destruct (Z_le_gt_dec t now) as [Hle|Hgt].
        * left. exists a, rest, t. split_and!; try done.
          unfold main. rewrite Ha, Hp. apply Z.leb_le in Hle. now rewrite Hle.
        * right. exists a, rest, t. split_and!; try done; [lia|].
          apply main_ahead; [exact Hne|exact Hp|lia].
      + left. exists a, rest. split_and!; try done.
        unfold main. now rewrite Ha, Hp. }
  destruct Hcases as [[Hargs Hm]|[(a & rest & -> & Ha & Hp & Hm)
                     |[(a & rest & t & -> & Ha & Hp & Hle & Hm)
                      |(a & rest & t & -> & Ha & Hp & Hlt & Hm)]]]; rewrite Hm.
  - split_and!.
    + intros g. split; [discriminate|]. intros (a & rest & t & -> & Ha & _).
      destruct Hargs as [?|[? [= -> _]]]; [discriminate|contradiction].
    + intros message. split; [discriminate|]. intros (a & rest & t & n & -> & Ha & _).
      destruct Hargs as [?|[? [= -> _]]]; [discriminate|contradiction].
    + intros code out err [= <- <- <-]. left. auto.
    + intros code [= <-]. now left.
  - split_and!.
    + intros g. split; [discriminate|].
      intros (a' & rest' & t & [= <- <-] & _ & Hp' & _). congruence.
    + intros message. split; [discriminate|].
      intros (a' & rest' & t & n & [= <- <-] & _ & Hp' & _). congruence.
    + intros code out err [= <- <- <-]. right.
      split_and!; [done|discriminate|]. exists a, rest. split_and!; [done|done|now left].
    + intros code [= <-]. now right.
  - split_and!.
    + intros g. split; [discriminate|].
      intros (a' & rest' & t' & [= <- <-] & _ & Hp' & Hlt & _).
      rewrite Hp in Hp'. injection Hp' as <-. lia.
    + intros message. split; [discriminate|].
      intros (a' & rest' & t' & n & [= <- <-] & _ & Hp' & Hlt & _).
      rewrite Hp in Hp'. injection Hp' as <-. lia.
    + intros code out err [= <- <- <-]. right.
      split_and!; [done|discriminate|]. exists a, rest.
      split_and!; [done|done|right; eauto].
    + intros code [= <-]. now right.
  - destruct (first_throw log_throws 0 10) as [m|] eqn:Hf.
    + apply first_throw_some in Hf as (n & Hn & Hthrow & Hbefore).
      split_and!.
      * intros g. split; [discriminate|].
        intros (a' & rest' & t' & _ & _ & _ & _ & Hall & _).
        rewrite Hall in Hthrow by lia. discriminate.
      * intros message. split.
        -- intros [= <-]. exists a, rest, t, n.
           split_and!; try done; [lia|]. intros k Hk. apply Hbefore. lia.
        -- intros (a' & rest' & t' & n' & _ & _ & _ & _ & Hn' & Hthrow' & Hbefore').
           destruct (Nat.lt_trichotomy n n') as [Hlt'|[->|Hgt']].
           ++ rewrite Hbefore' in Hthrow by lia. discriminate.
           ++ congruence.
           ++ rewrite Hbefore in Hthrow' by lia. discriminate.
      * discriminate.
      * intros code [= <-]. now right.
    + pose proof (proj1 (first_throw_none log_throws 10 0) Hf) as Hall.
      split_and!.
      * intros g. split.
        -- intros [= <-]. exists a, rest, t. split_and!; try done.
           intros n Hn. apply Hall. lia.
        -- intros (a' & rest' & t' & [= <- <-] & _ & Hp' & _ & _ & ->).
           rewrite Hp in Hp'. now injection Hp' as <-.
      * intros message. split; [discriminate|].
        intros (a' & rest' & t' & n & _ & _ & _ & _ & Hn & Hthrow & _).
        rewrite Hall in Hthrow by lia. discriminate.
      * discriminate.
      * discriminate.
Qed.
End WatchFacts.

(** ** The listing of jobs and the immediate capture *)

Section ApiFacts.
Import Server.

Lemma fmap_is_map {A B} (f : A -> B) (l : list A) : f <$> l = map f l.
Proof. induction l as [|x l IH]; cbn; [reflexivity|now rewrite IH]. Qed.

(** X8. On every state the service can reach, the jobs listing answers
    200 with one item for each entry of the registry and no other: an item
    is listed exactly when it is the view of the entry stored under its id,
    there are as many items as entries, and no two items share an id. *)
Theorem jobs_listing parse actions :
  fst (Api.get_jobs (after parse actions)) = 200 /\
  length (snd (Api.get_jobs (after parse actions)))
  = base.size (scheduledJobs (after parse actions)) /\
  (forall v, In v (snd (Api.get_jobs (after parse actions))) <->
     exists info, scheduledJobs (after parse actions) !! Api.v_id v = Some info /\
                  v = Api.view info) /\
  NoDup (map Api.v_id (snd (Api.get_jobs (after parse actions)))).
Proof.
  destruct (reachable_consistent parse actions) as (_ & _ & _ & Hk).
  set (st := after parse actions) in *. unfold Api.get_jobs. cbn [fst snd].
  split_and!.
  - reflexivity.
  - rewrite !length_map. apply length_map_to_list.
  - intros v. rewrite in_map_iff. split.
    + intros (info & <- & Hin). apply in_map_iff in Hin as ([k i] & <- & Hin).
      apply list_elem_of_In, elem_of_map_to_list in Hin. cbn.
      exists i. split; [|reflexivity]. now rewrite (Hk _ _ Hin).
    + intros (info & Hl & ->). exists info. split; [reflexivity|].
      apply in_map_iff. exists (Api.v_id (Api.view info), info). split; [reflexivity|].
      apply list_elem_of_In, elem_of_map_to_list. exact Hl.
  - assert (Hids : map Api.v_id (map Api.view (map snd (map_to_list (scheduledJobs st))))
                   = map fst (map_to_list (scheduledJobs st))).
    { rewrite !map_map. apply map_ext_in. intros [k i] Hin.
      apply list_elem_of_In, elem_of_map_to_list in Hin. cbn. now apply Hk. }
    rewrite Hids, <- fmap_is_map. apply NoDup_fst_map_to_list.
Qed.

Lemma returns_bind_with {A B} (Q : A -> Prop) (P : B -> Prop)
      (m : Capture.M A) (k : A -> Capture.M B) :
  Capture.returns Q m -> (forall a, Q a -> Capture.returns P (k a)) ->
  Capture.returns P (Capture.bind m k).
Proof.
  intros Hm Hk e st b. unfold Capture.bind.
  destruct (m e st) as [[a|message] st1] eqn:E; [|discriminate].
  apply Hk. apply (Hm e st). now rewrite E.
Qed.

Lemma shoot_returns screenshotPath :
  Capture.returns
    (fun shot => exists timestamp,
       shot = (Path.join screenshotPath (Capture.screenshot_name timestamp),
               Capture.screenshot_name timestamp))
    (Capture.shoot screenshotPath).
Proof.
  unfold Capture.shoot.
  repeat (apply returns_bind; intros _).
  intros e st a. unfold Capture.bind, Capture.read_stamp, Capture.call.
  destruct (Capture.throws e (Capture.Screenshot _)); [discriminate|].
  destruct (Capture.throws e Capture.Close); [discriminate|].
  cbn. intros [= <-]. eauto.
Qed.

Lemma server_body_returns screenshotPath :
  Capture.returns
    (fun r => exists timestamp,
       r = Capture.succeeded
             (Path.join screenshotPath (Capture.screenshot_name timestamp))
             (Capture.screenshot_name timestamp))
    (Capture.bind (Capture.prepare scrollCount)
       (fun _ => Capture.bind (Capture.shoot screenshotPath)
          (fun shot => Capture.ret (Capture.succeeded (fst shot) (snd shot))))).
Proof.
  apply returns_bind; intros _.
  eapply returns_bind_with; [apply shoot_returns|].
  intros shot [timestamp ->]. apply returns_ret. now exists timestamp.
Qed.

Lemma screenshot_name_listed timestamp :
  is_screenshot (Capture.screenshot_name timestamp) = true.
Proof.
  unfold is_screenshot, Capture.screenshot_name.
  apply andb_true_iff. split.
  - apply startsWith_spec. eauto.
  - apply endsWith_spec. exists ("screenshot-" +:+ timestamp)%string.
    clear. generalize "screenshot-"%string. intros s.
    induction s as [|c s IH]; [reflexivity|]. rewrite !append_cons. now f_equal.
Qed.

(** What the catch block of the service's routine makes of an error of
    the try block: a failed result with the error's message, or, when the
    browser was assigned and its close throws, the error of the close. *)
Lemma caught_or_close_throws (body : Capture.M Capture.CaptureResult) e :
  Capture.faithful body ->
  forall c message,
    In (Capture.Call c)
       (Capture.trace (snd (Capture.try_catch body
          (fun message => Capture.bind Capture.close_if_open
                            (fun _ => Capture.ret (Capture.failed message)))
          e Capture.start))) ->
    Capture.fatal c = true -> Capture.throws e c = Some message ->
    Capture.try_catch body
      (fun message => Capture.bind Capture.close_if_open
                        (fun _ => Capture.ret (Capture.failed message)))
      e Capture.start
    = match Capture.browser (snd (body e Capture.start)),
            Capture.throws e Capture.CloseAfterError with
      | true, Some closing =>
          (Capture.Throw closing,
           Capture.Store true (Capture.trace (snd (body e Capture.start))
                               ++ [Capture.Call Capture.CloseAfterError]))
      | true, None =>
          (Capture.Ok (Capture.failed message),
           Capture.Store true (Capture.trace (snd (body e Capture.start))
                               ++ [Capture.Call Capture.CloseAfterError]))
      | false, _ => (Capture.Ok (Capture.failed message), snd (body e Capture.start))
      end.
Proof.
  intros Hbody c m. unfold Capture.try_catch.
  destruct (Hbody e Capture.start) as (new & Htr & Hf & Hh).
  destruct (body e Capture.start) as [[r|message] st1]; cbn in Htr, Hf, Hh.
  - cbn. rewrite Htr. intros Hin Hfat Hthrow.
    specialize (Hf c m Hin Hfat Hthrow). discriminate.
  - cbv [Capture.bind Capture.close_if_open Capture.read_browser Capture.call
           Capture.ret].
    cbn [snd]. destruct st1 as [b tr]. cbn [Capture.browser Capture.trace] in *.
    destruct b.
    + destruct (Capture.throws e Capture.CloseAfterError) eqn:Hclose; cbn;
        rewrite Htr; intros Hin Hfat Hthrow; [reflexivity|].
      apply in_app_or in Hin as [Hin|[[= <-]|[]]]; [|discriminate].
      specialize (Hf c m Hin Hfat Hthrow). congruence.
    + cbn. rewrite Htr. intros Hin Hfat Hthrow.
      specialize (Hf c m Hin Hfat Hthrow). congruence.
Qed.

(** X9. The immediate capture always answers 200 or 500.  A 200 answer
    carries the result that the routine returned, whose file name is one
    that the listing of screenshots shows and whose path is the join of the
    output directory and that name.  When a call that no inner try block
    covers throws, the answer is 500: with that error's message, from the
    failed result of the routine, when no browser was launched or the close
    of the catch block succeeds; and with the message of the error of that
    close, which the routine throws, when the close throws as well. *)
Theorem capture_now_answers screenshotPath e :
  (status (post_now screenshotPath e) = 200 \/ status (post_now screenshotPath e) = 500) /\
  (forall filepath filename,
     post_now screenshotPath e = json (Captured filepath filename) ->
     fst (takeScreenshot screenshotPath e Capture.start)
     = Capture.Ok (Capture.succeeded filepath filename) /\
     is_screenshot filename = true /\
     filepath = Path.join screenshotPath filename) /\
  (forall c message,
     In (Capture.Call c)
        (Capture.trace (snd (takeScreenshot screenshotPath e Capture.start))) ->
     Capture.fatal c = true -> Capture.throws e c = Some message ->
     (Capture.browser (snd (takeScreenshot screenshotPath e Capture.start)) = false \/
      Capture.throws e Capture.CloseAfterError = None ->
      post_now screenshotPath e = Response 500 (NotCaptured message)) /\
     (forall closing,
        Capture.browser (snd (takeScreenshot screenshotPath e Capture.start)) = true ->
        Capture.throws e Capture.CloseAfterError = Some closing ->
        post_now screenshotPath e = Response 500 (Error closing))).
Proof.
  split_and!.
  - unfold post_now. destruct (fst (takeScreenshot screenshotPath e Capture.start)) as [r|m];
      [destruct (Capture.success r)|]; cbn; auto.
  - intros filepath filename. unfold post_now.
    assert (Hshape : forall r,
               fst (takeScreenshot screenshotPath e Capture.start) = Capture.Ok r ->
               Capture.success r = true ->
               exists timestamp,
                 r = Capture.succeeded
                       (Path.join screenshotPath (Capture.screenshot_name timestamp))
                       (Capture.screenshot_name timestamp)).
    { intros r. unfold takeScreenshot, Capture.try_catch.
      pose proof (server_body_returns screenshotPath) as Hb.
      specialize (Hb e Capture.start).
      destruct (Capture.bind (Capture.prepare scrollCount) _ e Capture.start)
        as [[r0|message] st1]; cbn in *.
      - intros [= <-] _. now apply Hb.
      - cbv [Capture.bind Capture.close_if_open Capture.read_browser Capture.call
               Capture.ret].
        destruct (Capture.browser st1);
          [destruct (Capture.throws e Capture.CloseAfterError)|];
          cbn; try discriminate; intros [= <-]; discriminate. }
    destruct (fst (takeScreenshot screenshotPath e Capture.start)) as [r|m] eqn:Er;
      [|discriminate].
    destruct (Capture.success r) eqn:Hs; [|discriminate].
    destruct (Hshape r eq_refl Hs) as [ts ->]. cbn. intros [= <- <-].
    split_and!; [reflexivity|apply screenshot_name_listed|reflexivity].
  - intros c message Hin Hfatal Hthrow.
    pose proof (caught_or_close_throws _ e (server_body_faithful screenshotPath)
                  c message Hin Hfatal Hthrow) as Hout.
    fold (takeScreenshot screenshotPath) in Hout.
    unfold post_now. rewrite Hout.
    destruct (Capture.browser (snd (Capture.bind _ _ e Capture.start))) eqn:Hb;
      [destruct (Capture.throws e Capture.CloseAfterError) as [closing|] eqn:Hc|]; cbn.
    + split; [intros [?|?]; discriminate|]. now intros closing' _ [= <-].
    + split; [reflexivity|]. intros closing' _ Hc'. discriminate.
    + split; [reflexivity|]. intros closing' Hb'. cbn in Hb'. congruence.
Qed.

End ApiFacts.

(** ** File names and overlay text *)

Section NamingFacts.
Import Naming.

Lemma dashed_chars iso c :
  In c (list_ascii_of_string (dashed iso)) -> c <> ":"%char /\ c <> "."%char.
Proof.
  induction iso as [|a iso IH]; cbn; [intros []|].
  intros [<-|Hin]; [|now apply IH].
  destruct (Ascii.eqb a ":") eqn:E1; cbn; [split; discriminate|].
  destruct (Ascii.eqb a ".") eqn:E2; cbn; [split; discriminate|].
  apply Ascii.eqb_neq in E1, E2. auto.
Qed.

(** X10. Replacing the colons and dots of a timestamp by dashes keeps its
    length, leaves no colon and no dot, and changes nothing when done again;
    the file name built from the result is one that the listing of
    screenshots shows. *)
Theorem capture_file_name iso :
  String.length (dashed iso) = String.length iso /\
  (forall c, In c (list_ascii_of_string (dashed iso)) -> c <> ":"%char /\ c <> "."%char) /\
  dashed (dashed iso) = dashed iso /\
  Server.is_screenshot (Capture.screenshot_name (dashed iso)) = true.
Proof.
  split_and!.
  - induction iso as [|a iso IH]; cbn; [reflexivity|now rewrite IH].
  - intros c. apply dashed_chars.
  - induction iso as [|a iso IH]; cbn; [reflexivity|]. rewrite IH. f_equal.
    destruct (Ascii.eqb a ":" || Ascii.eqb a ".") eqn:E; [reflexivity|].
    now rewrite E.
  - apply screenshot_name_listed.
Qed.

Lemma pad2_length n : 0 <= n <= 99 -> String.length (pad2 n) = 2%nat.
Proof.
  intros Hn.
  assert (Hall : forallb (fun k => (String.length (pad2 (Z.of_nat k)) =? 2)%nat)
                         (seq 0 100) = true) by (vm_compute; reflexivity).
  rewrite forallb_forall in Hall.
  specialize (Hall (Z.to_nat n)). rewrite Z2Nat.id in Hall by lia.
  apply Nat.eqb_eq, Hall, in_seq. lia.
Qed.

Lemma year_length year : 1000 <= year <= 9999 -> String.length (pretty year) = 4%nat.
Proof.
  intros Hy.
  assert (Hall : forallb (fun k => Nat.eqb (String.length (pretty (1000 + Z.of_nat k))) 4)
                         (seq 0 (Z.to_nat 9000)) = true) by (vm_compute; reflexivity).
  rewrite forallb_forall in Hall.
  specialize (Hall (Z.to_nat (year - 1000))).
  replace (1000 + Z.of_nat (Z.to_nat (year - 1000))) with year in Hall by lia.
  apply Nat.eqb_eq, Hall, in_seq. lia.
Qed.

(** X11. For the fields of a date of four-digit year, the two lines of
    the overlay have a fixed width: ten characters for the date and eight
    for the time, every field below ten padded with a zero. *)
Theorem overlay_lines_width year month day hours minutes seconds :
  1000 <= year <= 9999 -> 0 <= month <= 11 -> 1 <= day <= 31 ->
  0 <= hours <= 23 -> 0 <= minutes <= 59 -> 0 <= seconds <= 59 ->
  String.length (dateLine year month day) = 10%nat /\
  String.length (timeLine hours minutes seconds) = 8%nat /\
  (forall n, 0 <= n <= 9 -> pad2 n = ("0" +:+ pretty n)%string).
Proof.
  intros Hy Hm Hd Hh Hmin Hs. unfold dateLine, timeLine.
  rewrite !length_app_string, !pad2_length, year_length by lia.
  split_and!; [reflexivity|reflexivity|].
  intros n Hn.
  assert (Hall : forallb (fun k => String.eqb (pad2 (Z.of_nat k))
                                     ("0" +:+ pretty (Z.of_nat k)))
                         (seq 0 10) = true) by (vm_compute; reflexivity).
  rewrite forallb_forall in Hall.
  specialize (Hall (Z.to_nat n)). rewrite Z2Nat.id in Hall by lia.
  apply String.eqb_eq, Hall, in_seq. lia.
Qed.

Lemma overlay_lines_width_witness :
  1000 <= 2025 <= 9999 /\
  dateLine 2025 10 28 = "2025-11-28"%string /\
  String.length (timeLine 13 5 0) = 8%nat.
Proof.
  split; [lia|]. split; [reflexivity|].
  apply (overlay_lines_width 2025 10 28 13 5 0); lia.
Defined.
End NamingFacts.

(** ** The daily service *)

Section IndexFacts.
Import Index.

Lemma indexOf_found x pre post :
  ~ In x pre -> indexOf x (pre ++ x :: post) = Some (length pre).
Proof.
  induction pre as [|a pre IH]; cbn; intros Hnot.
  - now rewrite String.eqb_refl.
  - destruct (String.eqb a x) eqn:E; [apply String.eqb_eq in E; tauto|].
    rewrite IH by tauto. reflexivity.
Qed.

Lemma indexOf_places x argv i :
  indexOf x argv = Some i ->
  exists pre post, argv = pre ++ x :: post /\ ~ In x pre /\ length pre = i.
Proof.
  revert i. induction argv as [|a argv IH]; cbn; intros i; [discriminate|].
  destruct (String.eqb a x) eqn:E.
  - apply String.eqb_eq in E. subst a. intros [= <-]. exists [], argv. auto.
  - apply String.eqb_neq in E.
    destruct (indexOf x argv) as [k|]; [|discriminate]. intros [= <-].
    destruct (IH k eq_refl) as (pre & post & -> & Hnot & <-).
    exists (a :: pre), post. split_and!; [reflexivity| |reflexivity].
    intros [Heq|Hin]; [congruence|contradiction].
Qed.

Lemma test_flag argv :
  existsb (fun a => String.eqb a "--test") argv = true <-> In "--test"%string argv.
Proof.
  rewrite existsb_exists. split.
  - intros (a & Hin & Ha). apply String.eqb_eq in Ha. now subst.
  - intros Hin. exists "--test"%string. auto.
Qed.

(** X12. The branch that [main] of the daily service takes: test mode
    whenever [--test] is among the arguments, wherever it stands; otherwise
    the one-time mode exactly when the first [--at] is followed by a
    non-empty argument, which is then the timestamp; otherwise the daily
    schedule, in particular when [--at] is the last argument. *)
Theorem mode_of_arguments argv :
  (mode_of argv = TestMode <-> In "--test"%string argv) /\
  (forall s,
     mode_of argv = AtTime s <->
     ~ In "--test"%string argv /\ s <> ""%string /\
     exists pre post, argv = pre ++ "--at"%string :: s :: post /\
                      ~ In "--at"%string pre) /\
  (forall pre,
     ~ In "--test"%string pre -> ~ In "--at"%string pre ->
     mode_of (pre ++ ["--at"%string]) = Daily).
Proof.
  unfold mode_of. split_and!.
  - rewrite <- test_flag.
    destruct (existsb (fun a => String.eqb a "--test") argv); [tauto|].
    split; [|discriminate].
    destruct (indexOf "--at" argv) as [i|]; [|discriminate].
    destruct (argv !! (i + 1)%nat) as [s|]; [|discriminate].
    destruct (String.eqb s ""); discriminate.
  - intros s. rewrite <- test_flag.
    destruct (existsb (fun a => String.eqb a "--test") argv);
      [split; [discriminate|intros [H _]; exfalso; now apply H]|].
    split.
    + destruct (indexOf "--at" argv) as [i|] eqn:Hi; [|discriminate].
      destruct (indexOf_places _ _ _ Hi) as (pre & post & -> & Hnot & <-).
      rewrite lookup_app_r by lia.
      replace (length pre + 1 - length pre)%nat with 1%nat by lia.
      destruct post as [|s' post]; cbn; [discriminate|].
      destruct (String.eqb s' "") eqn:Es; [discriminate|].
      apply String.eqb_neq in Es. intros [= <-].
      split_and!; [discriminate|exact Es|]. eauto.
    + intros (_ & Hs & pre & post & -> & Hnot).
      rewrite indexOf_found by exact Hnot.
      rewrite lookup_app_r by lia.
      replace (length pre + 1 - length pre)%nat with 1%nat by lia. cbn.
      apply String.eqb_neq in Hs. now rewrite Hs.
  - intros pre Htest Hat.
    assert (Hflag : existsb (fun a => String.eqb a "--test") (pre ++ ["--at"%string]) = false).
    { destruct (existsb _ (pre ++ ["--at"%string])) eqn:E; [|reflexivity].
      apply test_flag in E. apply in_app_or in E as [E|[E|[]]]; [contradiction|discriminate]. }
    rewrite Hflag, indexOf_found by exact Hat.
    rewrite lookup_ge_None_2; [reflexivity|]. rewrite length_app. cbn. lia.
Qed.

(** X13. The one-time mode of the daily service sets its timer exactly
    when the timestamp parses to an instant that is not before the current
    time, for the delay up to that instant, which is never negative; every
    other call exits with status 1.  Whenever the standalone scheduler arms
    its guard for a timestamp, the one-time mode sets a timer with a positive
    delay for it; at the current instant itself the one-time mode sets a
    timer of delay 0 where the standalone scheduler exits with status 1. *)
Theorem at_time_timer parse datetimeString now :
  (forall ms,
     scheduleAtSpecificTime parse datetimeString now = TimerSet ms <->
     exists t, parse datetimeString = Some t /\ now <= t /\ ms = t - now) /\
  (forall ms, scheduleAtSpecificTime parse datetimeString now = TimerSet ms -> 0 <= ms) /\
  (forall code out err,
     scheduleAtSpecificTime parse datetimeString now = Exited code out err -> code = 1) /\
  (forall log_throws g now_arm,
     Cli.main parse log_throws [datetimeString] now now_arm = Cli.Scheduled g ->
     exists ms, scheduleAtSpecificTime parse datetimeString now = TimerSet ms /\ 0 < ms) /\
  (parse datetimeString = Some now -> datetimeString <> "--help"%string ->
   scheduleAtSpecificTime parse datetimeString now = TimerSet 0 /\
   forall log_throws now_arm,
     Cli.main parse log_throws [datetimeString] now now_arm
     = Cli.Exited 1 [] ["The specified time is in the past!"%string]).
Proof.
  unfold scheduleAtSpecificTime, Cli.main.
  destruct (parse datetimeString) as [t|] eqn:Hp.
  - destruct (t - now <? 0) eqn:Hc; [apply Z.ltb_lt in Hc|apply Z.ltb_ge in Hc].
    + split_and!.
      * intros ms. split; [discriminate|]. intros (t' & [= <-] & Hle & _). lia.
      * discriminate.
      * now intros code out err [= <- _ _].
      * intros log_throws g now_arm.
        destruct (String.eqb datetimeString "--help"); [discriminate|].
        destruct (t <=? now) eqn:Hle; [discriminate|]. apply Z.leb_gt in Hle. lia.
      * intros [= ->]. lia.
    + split_and!.
      * intros ms. split.
        -- intros [= <-]. exists t. split_and!; [reflexivity|lia|reflexivity].
        -- intros (t' & [= <-] & _ & ->). reflexivity.
      * intros ms [= <-]. lia.
      * discriminate.
      * intros log_throws g now_arm.
        destruct (String.eqb datetimeString "--help"); [discriminate|].
        destruct (t <=? now) eqn:Hle; [discriminate|]. apply Z.leb_gt in Hle.
        intros _. exists (t - now). split; [reflexivity|lia].
      * intros [= ->] Hne. split; [now rewrite Z.sub_diag|].
        intros log_throws now_arm. apply String.eqb_neq in Hne. rewrite Hne.
        now rewrite Z.leb_refl.
  - split_and!.
    + intros ms. split; [discriminate|]. intros (t' & [=] & _).
    + discriminate.
    + now intros code out err [= <- _ _].
    + intros log_throws g now_arm.
      destruct (String.eqb datetimeString "--help"); discriminate.
    + discriminate.
Qed.

(** X14. For a time of day from midnight up to, but not including, the
    next midnight, and a current instant within the day, the delay that the
    daily service computes is a number, strictly positive and at most one
    day: the time until today's occurrence when that is still ahead, and
    until tomorrow's otherwise. *)
Theorem daily_delay toInteger today now targetTime hours minutes seconds :
  parseTime toInteger targetTime = (Some hours, Some minutes, Some seconds) ->
  0 <= hours * 3600000 + minutes * 60000 + seconds * 1000 < msPerDay ->
  today <= now < today + msPerDay ->
  Z.abs today <= Js.MAX_TIME - 2 * msPerDay ->
  exists ms,
    getMillisecondsUntilTime toInteger today now targetTime = Some ms /\
    0 < ms <= msPerDay /\
    (now < today + hours * 3600000 + minutes * 60000 + seconds * 1000 ->
     ms = today + hours * 3600000 + minutes * 60000 + seconds * 1000 - now) /\
    (today + hours * 3600000 + minutes * 60000 + seconds * 1000 <= now ->
     ms = today + hours * 3600000 + minutes * 60000 + seconds * 1000 + msPerDay - now).
Proof.
  intros Hparse Htod Hnow Hrange. unfold getMillisecondsUntilTime. rewrite Hparse.
  unfold Js.TimeClip, Js.MAX_TIME, msPerDay in *.
  set (target := today + hours * 3600000 + minutes * 60000 + seconds * 1000) in *.
  assert (Hin : (Z.abs target <=? 8640000000000000) = true) by (apply Z.leb_le; lia).
  rewrite Hin.
  destruct (target <=? now) eqn:Hc; [apply Z.leb_le in Hc|apply Z.leb_gt in Hc].
  - assert (Hin' : (Z.abs (target + 86400000) <=? 8640000000000000) = true)
      by (apply Z.leb_le; lia).
    rewrite Hin'. eexists. split; [reflexivity|]. lia.
  - eexists. split; [reflexivity|]. lia.
Qed.

Lemma daily_delay_witness :
  parseTime (fun s => if String.eqb s "12" then Some 12
                      else if String.eqb s "00" then Some 0 else None) "12:00:00"
  = (Some 12, Some 0, Some 0) /\
  getMillisecondsUntilTime
    (fun s => if String.eqb s "12" then Some 12
              else if String.eqb s "00" then Some 0 else None)
    1764288000000 1764340000000 "12:00:00" = Some 77600000.
Proof.
  split; [reflexivity|].
  destruct (daily_delay
              (fun s => if String.eqb s "12" then Some 12
                        else if String.eqb s "00" then Some 0 else None)
              1764288000000 1764340000000 "12:00:00" 12 0 0)
    as (ms & Hms & _ & _ & Hlate);
    [reflexivity|unfold msPerDay; lia|unfold msPerDay; lia
    |unfold Js.MAX_TIME, msPerDay; lia|].
  rewrite Hms, Hlate by lia. reflexivity.
Defined.

(** X15. The callback of the daily timer never throws and always sets the
    next timer, whatever the capture does: after the effects of the capture,
    successful or not, comes the timer of the next day and nothing else. *)
Theorem daily_timer_goes_on capture msUntilTime e st :
  fst (on_daily_timer capture msUntilTime e st) = Capture.Ok tt /\
  Capture.trace (snd (on_daily_timer capture msUntilTime e st))
  = Capture.trace (snd (capture e st)) ++ [Capture.SetTimeout msUntilTime] /\
  Capture.browser (snd (on_daily_timer capture msUntilTime e st))
  = Capture.browser (snd (capture e st)).
Proof.
  unfold on_daily_timer, Capture.bind, Capture.try_catch, Capture.ret, Capture.emit.
  destruct (capture e st) as [[path|message] st1]; cbn; auto.
Qed.
End IndexFacts.

(** ** The page *)

Section UiFacts.
Import Ui.

(** X16. For a delay that is not negative, the hours and minutes that the
    page shows after scheduling add up to the delay rounded down to the
    minute, with less than 60 minutes, and the hours are left out of the
    message when there are none. *)
Theorem time_message ms :
  0 <= ms ->
  0 <= hours_of ms /\ 0 <= minutes_of ms < 60 /\
  3600 * hours_of ms + 60 * minutes_of ms <= ms / 1000
    < 3600 * hours_of ms + 60 * minutes_of ms + 60 /\
  (ms < 3600000 -> timeMsg ms = (pretty (minutes_of ms) +:+ "m from now")%string).
Proof.
  intros Hms. unfold timeMsg, hours_of, minutes_of, timeFromNow.
  assert (Hq : 0 <= ms / 1000) by (apply Z.div_pos; lia).
  rewrite Z.rem_mod_nonneg by lia.
  pose proof (Z.div_mod (ms / 1000) 3600 ltac:(lia)) as H1.
  pose proof (Z.mod_pos_bound (ms / 1000) 3600 ltac:(lia)) as B1.
  pose proof (Z.div_mod ((ms / 1000) mod 3600) 60 ltac:(lia)) as H2.
  pose proof (Z.mod_pos_bound ((ms / 1000) mod 3600) 60 ltac:(lia)) as B2.
  assert (0 <= ms / 1000 / 3600) by (apply Z.div_pos; lia).
  assert (0 <= (ms / 1000) mod 3600 / 60) by (apply Z.div_pos; lia).
  split_and!; try lia.
  intros Hsmall.
  assert (ms / 1000 / 3600 = 0) as ->.
  { apply Z.div_small. split; [lia|]. apply Z.div_lt_upper_bound; lia. }
  reflexivity.
Qed.

Lemma time_message_witness :
  0 <= 5400000 /\ hours_of 5400000 = 1 /\ minutes_of 5400000 = 30 /\
  0 <= minutes_of 5400000 < 60.
Proof.
  split; [lia|]. split; [reflexivity|]. split; [reflexivity|].
  apply (time_message 5400000). lia.
Defined.
End UiFacts.

(** ** The browser *)

Section BrowserFacts.
Import Capture Browser.
Local Open Scope capture_scope.

Lemma closes_app t u : closes (t ++ u) = closes t ++ closes u.
Proof. apply List.filter_app. Qed.

Lemma inert_ret {A} (a : A) : inert (ret a).
Proof. intros e st. split; reflexivity. Qed.

Lemma inert_throw {A} message : inert (@throw A message).
Proof. intros e st. split; reflexivity. Qed.

Lemma inert_emit_timer ms : inert (emit (SetTimeout ms)).
Proof.
  intros e st. split; [reflexivity|]. cbn. rewrite closes_app. cbn. apply app_nil_r.
Qed.

Lemma inert_call c : closes [Call c] = [] -> inert (call c).
Proof.
  intros Hc e st. unfold call.
  destruct (throws e c); cbn; (split; [reflexivity|]);
    rewrite closes_app, Hc; apply app_nil_r.
Qed.

Lemma inert_bind {A B} (m : M A) (k : A -> M B) :
  inert m -> (forall a, inert (k a)) -> inert (bind m k).
Proof.
  intros Hm Hk e st. unfold bind.
  destruct (Hm e st) as [Hb Hc]. destruct (m e st) as [[a|message] st1]; cbn in *.
  - destruct (Hk a e st1) as [Hb' Hc']. split; congruence.
  - split; assumption.
Qed.

Lemma inert_try_catch {A} (m : M A) (handler : string -> M A) :
  inert m -> (forall message, inert (handler message)) -> inert (try_catch m handler).
Proof.
  intros Hm Hh e st. unfold try_catch.
  destruct (Hm e st) as [Hb Hc]. destruct (m e st) as [[a|message] st1]; cbn in *.
  - split; assumption.
  - destruct (Hh message e st1) as [Hb' Hc']. split; congruence.
Qed.

Lemma inert_read {A B} (read : M A) (k : A -> M B) :
  (forall e st, snd (read e st) = st) -> (forall a, inert (k a)) -> inert (bind read k).
Proof.
  intros Hread Hk e st. unfold bind. specialize (Hread e st).
  destruct (read e st) as [[a|message] st1]; cbn in *; subst st1.
  - apply Hk.
  - split; reflexivity.
Qed.

Lemma inert_scroll_loop n : forall i, inert (scroll_loop i n).
Proof.
  induction n as [|n IH]; intros i; cbn; [apply inert_ret|].
  apply inert_bind; [now apply inert_call|intros _].
  apply inert_bind; [now apply inert_call|intros _]. apply IH.
Qed.

Lemma inert_wait_for_target target : inert (wait_for_target target).
Proof.
  unfold wait_for_target. apply inert_read; [reflexivity|]. intros now.
  destruct (0 <? target - now); [apply inert_emit_timer|apply inert_ret].
Qed.

Lemma inert_cli_wait target : inert (Cli.wait_for_target target).
Proof.
  unfold Cli.wait_for_target. apply inert_read; [reflexivity|]. intros now.
  apply inert_bind; [|intros _; now apply inert_call].
  destruct (0 <? target - now); [|apply inert_ret].
  apply inert_bind; [now apply inert_call|intros _; apply inert_emit_timer].
Qed.

(** The preparation: either the directory or the launch throws, and no
    browser is assigned, or the browser is assigned and stays so. *)
Lemma prepare_launches n e st :
  browser st = false ->
  closes (trace (snd (prepare n e st))) = closes (trace st) /\
  ((throws e EnsureDir <> None \/ throws e Launch <> None) /\
   browser (snd (prepare n e st)) = false /\
   (exists message, fst (prepare n e st) = Throw message)
   \/
   throws e EnsureDir = None /\ throws e Launch = None /\
   browser (snd (prepare n e st)) = true).
Proof.
  intros Hno. unfold prepare.
  match goal with |- context [bind assign_browser ?k] => set (tail := k) end.
  assert (Htail : inert (tail tt)).
  { subst tail. cbv beta.
    apply inert_bind; [now apply inert_call|intros _].
    apply inert_bind; [now apply inert_call|intros _].
    apply inert_bind;
      [apply inert_try_catch; [now apply inert_call|intros _; now apply inert_call]|intros _].
    apply inert_bind; [now apply inert_call|intros _].
    apply inert_bind;
      [apply inert_try_catch; [now apply inert_call|intros _; apply inert_ret]|intros _].
    apply inert_bind;
      [apply inert_try_catch; [now apply inert_call|intros _; apply inert_ret]|intros _].
    destruct (0 <? n)%nat; [|apply inert_ret].
    apply inert_bind; [apply inert_scroll_loop|intros _; now apply inert_call]. }
  clearbody tail. unfold bind, call, assign_browser.
  destruct (throws e EnsureDir) as [m1|] eqn:E1; cbn.
  { rewrite closes_app. cbn. rewrite app_nil_r.
    split; [reflexivity|]. left. split_and!; [left; discriminate|exact Hno|eauto]. }
  destruct (throws e Launch) as [m2|] eqn:E2; cbn.
  { rewrite !closes_app. cbn. rewrite !app_nil_r.
    split; [reflexivity|]. left. split_and!; [right; discriminate|exact Hno|eauto]. }
  match goal with |- context [tail tt e ?s] => destruct (Htail e s) as [Hb Hc] end.
  cbn in Hb, Hc. rewrite Hc, !closes_app. cbn. rewrite !app_nil_r.
  split; [reflexivity|]. right. split_and!; [reflexivity|reflexivity|exact Hb].
Qed.

(** Overlay, screenshot and close: the close is the last call, and the
    only one that touches the browser. *)
Lemma shoot_closes screenshotPath e st :
  browser (snd (shoot screenshotPath e st)) = browser st /\
  ((exists shot, fst (shoot screenshotPath e st) = Ok shot) /\
   throws e Close = None /\
   closes (trace (snd (shoot screenshotPath e st))) = closes (trace st) ++ [Call Close]
   \/
   (exists message, fst (shoot screenshotPath e st) = Throw message) /\
   (closes (trace (snd (shoot screenshotPath e st))) = closes (trace st)
    \/
    throws e Close <> None /\
    closes (trace (snd (shoot screenshotPath e st))) = closes (trace st) ++ [Call Close])).
Proof.
  cbv [shoot bind call read_stamp ret].
  destruct (throws e Overlay); cbn;
    [rewrite closes_app, app_nil_r; split; [reflexivity|right; eauto]|].
  destruct (throws e OverlayRender); cbn;
    [rewrite !closes_app, !app_nil_r; split; [reflexivity|right; eauto]|].
  destruct (throws e (Screenshot _)); cbn;
    [rewrite !closes_app, !app_nil_r; split; [reflexivity|right; eauto]|].
  destruct (throws e Close) eqn:Ec; cbn; rewrite !closes_app; cbn; rewrite !app_nil_r.
  - split; [reflexivity|]. right. split; [eauto|]. right. split; [discriminate|reflexivity].
  - split; [reflexivity|]. left. split_and!; [eauto|reflexivity|reflexivity].
Qed.

(** The catch block: the browser is closed when it was assigned, and the
    run does not tell success. *)
Lemma catch_closes {A} (ok : res A -> bool) (last : string -> M A) message e st :
  inert (last message) ->
  (forall e st, ok (fst (last message e st)) = false) ->
  (forall m, ok (Throw m) = false) ->
  ok (fst (bind close_if_open (fun _ => last message) e st)) = false /\
  closes (trace (snd (bind close_if_open (fun _ => last message) e st)))
  = closes (trace st) ++ (if browser st then [Call CloseAfterError] else []).
Proof.
  intros Hlast Hok Hthrow. cbv [bind close_if_open read_browser call ret].
  destruct (browser st); cbn.
  - destruct (throws e CloseAfterError); cbn.
    + rewrite closes_app. auto.
    + destruct (Hlast e {| browser := browser st;
                           trace := trace st ++ [Call CloseAfterError] |})
        as [_ Hc].
      rewrite Hc, Hok. cbn. rewrite closes_app. auto.
  - destruct (Hlast e st) as [_ Hc]. rewrite Hc, Hok, app_nil_r. auto.
Qed.

(** Every routine of the shape of the four capture routines releases the
    browser. *)
Lemma routine_released {A} (ok : res A -> bool) n screenshotPath
    (mid : M unit) (fin : string * string -> M A) (last : string -> M A) e :
  inert mid ->
  (forall shot, inert (fin shot)) ->
  (forall shot e st, exists a, fst (fin shot e st) = Ok a) ->
  (forall message, inert (last message)) ->
  (forall message e st, ok (fst (last message e st)) = false) ->
  (forall message, ok (Throw message) = false) ->
  released e
    (ok (fst (try_catch
                (prepare n ;; mid ;; shot <- shoot screenshotPath ;; fin shot)
                (fun message => close_if_open ;; last message) e start)))
    (trace (snd (try_catch
                   (prepare n ;; mid ;; shot <- shoot screenshotPath ;; fin shot)
                   (fun message => close_if_open ;; last message) e start))).
Proof.
  intros Hmid Hfin Hfin_ok Hlast Hlast_ok Hthrow.
  set (handler := fun message => close_if_open ;; last message).
  assert (Hcatch : forall message e st,
             ok (fst (handler message e st)) = false /\
             closes (trace (snd (handler message e st)))
             = closes (trace st) ++ (if browser st then [Call CloseAfterError] else [])).
  { intros message e' st. apply catch_closes; auto. }
  clearbody handler. cbv [try_catch bind].
  destruct (prepare_launches n e start eq_refl) as [Hc0 Hprep]. cbn in Hc0.
  destruct (prepare n e start) as [[[]|m0] st0]; cbn in Hc0, Hprep.
  2:{ destruct (Hcatch m0 e st0) as [Hok Hc].
      unfold released. rewrite Hok, Hc, Hc0.
      destruct Hprep as [(Hbad & -> & _)|(E1 & E2 & ->)]; cbn.
      - split_and!; [intros; destruct Hbad; contradiction|reflexivity|discriminate
                    |now left|discriminate].
      - split_and!; [discriminate|intros [?|?]; contradiction|discriminate
                    |right; right; now left|discriminate]. }
  destruct Hprep as [(_ & _ & m & [=])|(E1 & E2 & Hb0)].
  destruct (Hmid e st0) as [Hb1 Hc1].
  destruct (mid e st0) as [[[]|m1] st1]; cbn in Hb1, Hc1.
  2:{ destruct (Hcatch m1 e st1) as [Hok Hc].
      unfold released. rewrite Hok, Hc, Hc1, Hc0, Hb1, Hb0. cbn.
      split_and!; [discriminate|intros [?|?]; contradiction|discriminate
                  |right; right; now left|discriminate]. }
  destruct (shoot_closes screenshotPath e st1) as [Hb2 Hshoot].
  destruct (shoot screenshotPath e st1) as [[shot|m2] st2]; cbn in Hb2, Hshoot.
  2:{ destruct (Hcatch m2 e st2) as [Hok Hc].
      unfold released. rewrite Hok, Hc, Hb2, Hb1, Hb0.
      destruct Hshoot as [((? & [=]) & _)|(_ & [->|[Hclose ->]])];
        rewrite Hc1, Hc0; cbn.
      - split_and!; [discriminate|intros [?|?]; contradiction|discriminate
                    |right; right; now left|discriminate].
      - split_and!; [discriminate|intros [?|?]; contradiction|discriminate
                    |right; right; now right|intros _; exact Hclose]. }
  destruct Hshoot as [(_ & Hclose & Hc2)|((? & [=]) & _)].
  destruct (Hfin shot e st2) as [Hb3 Hc3]. destruct (Hfin_ok shot e st2) as [a Ha].
  destruct (fin shot e st2) as [r st3]; cbn in Hb3, Hc3, Ha. subst r. cbn.
  unfold released. rewrite Hc3, Hc2, Hc1, Hc0. cbn.
  split_and!; [discriminate|intros [?|?]; contradiction|intros _; now split
              |right; now left|discriminate].
Qed.

(** The preparation of the standalone scheduler launches the browser in
    the same way. *)
Lemma cli_prepare_launches n e st :
  browser st = false ->
  closes (trace (snd (Cli.prepare n e st))) = closes (trace st) /\
  ((throws e EnsureDir <> None \/ throws e Launch <> None) /\
   browser (snd (Cli.prepare n e st)) = false /\
   (exists message, fst (Cli.prepare n e st) = Throw message)
   \/
   throws e EnsureDir = None /\ throws e Launch = None /\
   browser (snd (Cli.prepare n e st)) = true).
Proof.
  intros Hno. unfold Cli.prepare.
  match goal with |- context [bind assign_browser ?k] => set (tail := k) end.
  assert (Htail : inert (tail tt)).
  { subst tail. cbv beta.
    repeat first
      [ apply inert_ret | apply inert_scroll_loop
      | apply inert_call; reflexivity
      | apply inert_bind; [|intros ?]
      | apply inert_try_catch; [|intros ?]
      | match goal with |- inert (if ?b then _ else _) => destruct b end ]. }
  clearbody tail. unfold bind, call, assign_browser.
  destruct (throws e EnsureDir) as [m1|] eqn:E1; cbn.
  { rewrite closes_app. cbn. rewrite app_nil_r.
    split; [reflexivity|]. left. split_and!; [left; discriminate|exact Hno|eauto]. }
  destruct (throws e Launch) as [m2|] eqn:E2; cbn.
  { rewrite !closes_app. cbn. rewrite !app_nil_r.
    split; [reflexivity|]. left. split_and!; [right; discriminate|exact Hno|eauto]. }
  match goal with |- context [tail tt e ?s] => destruct (Htail e s) as [Hb Hc] end.
  cbn in Hb, Hc. rewrite Hc, !closes_app. cbn. rewrite !app_nil_r.
  split; [reflexivity|]. right. split_and!; [reflexivity|reflexivity|exact Hb].
Qed.

(** Overlay, screenshot, close and auto-open of the standalone scheduler:
    after the close only the auto-open block can throw. *)
Lemma cli_shoot_closes screenshotPath e st :
  browser (snd (Cli.shoot screenshotPath e st)) = browser st /\
  ((exists p, fst (Cli.shoot screenshotPath e st) = Ok p) /\
   throws e Close = None /\
   closes (trace (snd (Cli.shoot screenshotPath e st))) = closes (trace st) ++ [Call Close]
   \/
   (exists message, fst (Cli.shoot screenshotPath e st) = Throw message) /\
   (closes (trace (snd (Cli.shoot screenshotPath e st))) = closes (trace st)
    \/
    (throws e Close <> None \/
     exists filepath,
       throws e (AutoOpen filepath) <> None /\ throws e (Log LogAutoOpenError) <> None) /\
    closes (trace (snd (Cli.shoot screenshotPath e st))) = closes (trace st) ++ [Call Close])).
Proof.
  cbv [Cli.shoot Cli.auto_open bind try_catch call read_stamp ret].
  destruct (throws e Overlay); cbn;
    [rewrite closes_app, app_nil_r; split; [reflexivity|right; eauto]|].
  destruct (throws e OverlayRender); cbn;
    [rewrite !closes_app, !app_nil_r; split; [reflexivity|right; eauto]|].
  destruct (throws e (Screenshot _)); cbn;
    [rewrite !closes_app, !app_nil_r; split; [reflexivity|right; eauto]|].
  destruct (throws e (Log LogSaved)); cbn;
    [rewrite !closes_app, !app_nil_r; split; [reflexivity|right; eauto]|].
  destruct (throws e Close) eqn:Ec; cbn.
  { rewrite !closes_app. cbn. rewrite !app_nil_r.
    split; [reflexivity|]. right. split; [eauto|]. right.
    split; [left; discriminate|reflexivity]. }
  destruct (throws e (AutoOpen _)) eqn:Ea; cbn.
  - destruct (throws e (Log LogAutoOpenError)) eqn:El; cbn;
      rewrite !closes_app; cbn; rewrite !app_nil_r.
    + split; [reflexivity|]. right. split; [eauto|]. right. split; [|reflexivity].
      right. eexists. rewrite Ea. split; discriminate.
    + split; [reflexivity|]. left. split_and!; [eauto|reflexivity|reflexivity].
  - rewrite !closes_app. cbn. rewrite !app_nil_r.
    split; [reflexivity|]. left. split_and!; [eauto|reflexivity|reflexivity].
Qed.

(** The catch block of the standalone scheduler: the browser is closed
    when it was assigned and the line was written to the log. *)
Lemma cli_catch_closes message e st :
  cli_ok (fst (Cli.on_error message e st)) = false /\
  closes (trace (snd (Cli.on_error message e st)))
  = closes (trace st) ++
    (if browser st
     then match throws e (Log LogError) with
          | None => [Call CloseAfterError]
          | Some _ => []
          end
     else []).
Proof.
  cbv [Cli.on_error bind close_if_open read_browser call ret throw].
  destruct (throws e (Log LogError)); cbn.
  - rewrite closes_app. cbn. destruct (browser st); auto.
  - destruct (browser st); cbn.
    + destruct (throws e CloseAfterError); cbn; rewrite !closes_app; cbn;
        rewrite <- app_assoc; auto.
    + rewrite closes_app. cbn. auto.
Qed.

Ltac released_goal :=
  intros;
  first [ discriminate | congruence | reflexivity | contradiction | assumption
        | now left | now (right; left) | now (right; right; left)
        | now (right; right; right) | now split
        | tauto | intuition congruence ].

(** The routines of the standalone scheduler release the browser unless
    the line of their catch block cannot be written to the log. *)
Lemma cli_routine_released screenshotPath (mid : M unit) e :
  inert mid ->
  released_cli e
    (cli_ok (fst ((call (Log LogStart) ;;
                   try_catch (Cli.prepare Cli.scrollCount ;; mid ;;
                              Cli.shoot screenshotPath) Cli.on_error) e start)))
    (trace (snd ((call (Log LogStart) ;;
                  try_catch (Cli.prepare Cli.scrollCount ;; mid ;;
                             Cli.shoot screenshotPath) Cli.on_error) e start))).
Proof.
  intros Hmid. cbv [try_catch bind]. unfold call at 1 2.
  destruct (throws e (Log LogStart)) as [m|] eqn:E0; cbn [fst snd].
  { unfold released_cli. cbn. split_and!; released_goal. }
  destruct (cli_prepare_launches Cli.scrollCount e
              (Store (browser start) (trace start ++ [Call (Log LogStart)])) eq_refl)
    as [Hc0 Hprep].
  cbn in Hc0.
  destruct (Cli.prepare Cli.scrollCount e _) as [[[]|m0] st0]; cbn [fst snd] in *.
  2:{ destruct (cli_catch_closes m0 e st0) as [Hok Hc].
      unfold released_cli. rewrite Hok, Hc, Hc0.
      destruct Hprep as [(Hbad & -> & _)|(E1 & E2 & ->)]; cbn.
      - split_and!; released_goal.
      - destruct (throws e (Log LogError)) eqn:El; cbn; split_and!; released_goal. }
  destruct Hprep as [(_ & _ & m & [=])|(E1 & E2 & Hb0)].
  destruct (Hmid e st0) as [Hb1 Hc1].
  destruct (mid e st0) as [[[]|m1] st1]; cbn [fst snd] in *.
  2:{ destruct (cli_catch_closes m1 e st1) as [Hok Hc].
      unfold released_cli. rewrite Hok, Hc, Hc1, Hc0, Hb1, Hb0. cbn.
      destruct (throws e (Log LogError)) eqn:El; cbn; split_and!; released_goal. }
  destruct (cli_shoot_closes screenshotPath e st1) as [Hb2 Hshoot].
  destruct (Cli.shoot screenshotPath e st1) as [[p|m2] st2]; cbn [fst snd] in *.
  2:{ destruct (cli_catch_closes m2 e st2) as [Hok Hc].
      unfold released_cli. rewrite Hok, Hc, Hb2, Hb1, Hb0.
      destruct Hshoot as [((? & [=]) & _)|(_ & [->|[Hclose ->]])];
        rewrite Hc1, Hc0; cbn;
        destruct (throws e (Log LogError)) eqn:El; cbn; split_and!; released_goal. }
  destruct Hshoot as [(_ & Hclose & Hc2)|((? & [=]) & _)].
  unfold released_cli. cbn. rewrite Hc2, Hc1, Hc0. cbn.
  split_and!; released_goal.
Qed.

(** X17. The two capture routines of the service release the browser on
    every path: once the launch has succeeded, [browser.close()] is called,
    by the try block or by the catch block; when the directory or the launch
    fails, nothing is closed; a run that tells success has closed the browser
    exactly once, in the try block; and the catch block closes it a second
    time only after the close of the try block has thrown.  The two routines
    of the standalone scheduler do the same provided that the line of their
    catch block is written to the log: when that write throws, the catch
    block does not reach its close, and a browser that the try block has not
    closed is left open; they close the browser a second time also when the
    auto-open block and the line of its catch block have thrown. *)
Theorem browser_released screenshotPath targetDate e :
  released e
    (server_ok (fst (Server.takeScreenshot screenshotPath e start)))
    (trace (snd (Server.takeScreenshot screenshotPath e start))) /\
  released e
    (server_ok (fst (Server.takeScreenshotAtExactTime screenshotPath targetDate e start)))
    (trace (snd (Server.takeScreenshotAtExactTime screenshotPath targetDate e start))) /\
  released_cli e
    (cli_ok (fst (Cli.takeScreenshot screenshotPath e start)))
    (trace (snd (Cli.takeScreenshot screenshotPath e start))) /\
  released_cli e
    (cli_ok (fst (Cli.takeScreenshotAtExactTime screenshotPath targetDate e start)))
    (trace (snd (Cli.takeScreenshotAtExactTime screenshotPath targetDate e start))).
Proof.
  split_and!.
  - apply (routine_released server_ok Server.scrollCount screenshotPath (ret tt)
             (fun shot => ret (succeeded (fst shot) (snd shot)))
             (fun message => ret (failed message)));
      [apply inert_ret|intros; apply inert_ret|intros; eexists; reflexivity
      |intros; apply inert_ret|reflexivity|reflexivity].
  - apply (routine_released server_ok Server.scrollCount screenshotPath
             (wait_for_target targetDate)
             (fun shot => ret (succeeded (fst shot) (snd shot)))
             (fun message => ret (failed message)));
      [apply inert_wait_for_target|intros; apply inert_ret|intros; eexists; reflexivity
      |intros; apply inert_ret|reflexivity|reflexivity].
  - apply (cli_routine_released screenshotPath (ret tt)). apply inert_ret.
  - apply (cli_routine_released screenshotPath (Cli.wait_for_target targetDate)).
    apply inert_cli_wait.
Qed.
End BrowserFacts.

(** ** Scheduling and the jobs listing *)

Section ListingFacts.
Import Server Samples.

Lemma listed_iff st v :
  Api.consistent st ->
  In v (snd (Api.get_jobs st)) <->
  exists info, scheduledJobs st !! Api.v_id v = Some info /\ v = Api.view info.
Proof.
  intros (_ & _ & _ & Hk). unfold Api.get_jobs. cbn [snd].
  rewrite in_map_iff. split.
  - intros (info & <- & Hin). apply in_map_iff in Hin as ([k i] & <- & Hin).
    apply list_elem_of_In, elem_of_map_to_list in Hin. cbn.
    exists i. split; [|reflexivity]. now rewrite (Hk _ _ Hin).
  - intros (info & Hl & ->). exists info. split; [reflexivity|].
    apply in_map_iff. exists (Api.v_id (Api.view info), info). split; [reflexivity|].
    apply list_elem_of_In, elem_of_map_to_list. exact Hl.
Qed.

(** X18. A request that the service accepts shows in the jobs listing at
    once, under the id of the answer, with the instant, the recurring flag
    and the time of scheduling of the request; the listing of the other jobs
    is as before; and once the job is cancelled the listing shows no job of
    that id. *)
Theorem scheduled_job_is_listed parse actions req jobId t :
  fst (post_schedule parse req (after parse actions)) = json (Scheduled jobId t) ->
  In {| Api.v_id := jobId; Api.v_datetime := t;
        Api.v_recurring := req_recurring req; Api.v_scheduled := now_stored req |}
     (snd (Api.get_jobs (snd (post_schedule parse req (after parse actions))))) /\
  (forall v, Api.v_id v <> jobId ->
     (In v (snd (Api.get_jobs (snd (post_schedule parse req (after parse actions)))))
      <-> In v (snd (Api.get_jobs (after parse actions))))) /\
  (forall v,
     In v (snd (Api.get_jobs
                 (snd (delete_jobs jobId
                         (snd (post_schedule parse req (after parse actions))))))) ->
     Api.v_id v <> jobId).
Proof.
  intros Hok.
  pose proof (reachable_consistent parse actions) as H0.
  pose proof (post_schedule_consistent parse req _ H0) as H1.
  pose proof (delete_jobs_consistent jobId _ H1) as H2.
  destruct (scheduled_answer _ _ _ _ _ Hok) as [-> Hst].
  set (st := after parse actions) in *.
  set (st1 := snd (post_schedule parse req st)) in *.
  assert (Hreg : scheduledJobs st1
                 = <[Api.job_id req := Api.entry req t (created st)]> (scheduledJobs st))
    by now rewrite Hst.
  split_and!.
  - apply (listed_iff _ _ H1). cbn. rewrite Hreg, lookup_insert_eq. eauto.
  - intros v Hne. rewrite (listed_iff _ _ H1), (listed_iff _ _ H0), Hreg.
    now rewrite lookup_insert_ne by congruence.
  - intros v Hin Heq. apply (listed_iff _ _ H2) in Hin as (info & Hl & _).
    rewrite Heq in Hl. unfold delete_jobs in Hl.
    rewrite Hreg, lookup_insert_eq in Hl. cbn in Hl.
    rewrite lookup_delete_eq in Hl. discriminate.
Qed.

Lemma scheduled_job_is_listed_witness :
  fst (post_schedule parse_two_pm (request true 1764309000000 true) (after parse_two_pm []))
  = json (Scheduled "job-1764309000000-k3x9q0z1a" two_pm_ms) /\
  In {| Api.v_id := "job-1764309000000-k3x9q0z1a"; Api.v_datetime := two_pm_ms;
        Api.v_recurring := req_recurring (request true 1764309000000 true);
        Api.v_scheduled := now_stored (request true 1764309000000 true) |}
     (snd (Api.get_jobs
             (snd (post_schedule parse_two_pm (request true 1764309000000 true)
                     (after parse_two_pm []))))).
Proof.
  assert (Hok : fst (post_schedule parse_two_pm (request true 1764309000000 true)
                       (after parse_two_pm []))
                = json (Scheduled "job-1764309000000-k3x9q0z1a" two_pm_ms))
    by (vm_compute; reflexivity).
  split; [exact Hok|].
  exact (proj1 (scheduled_job_is_listed parse_two_pm [] (request true 1764309000000 true)
                  "job-1764309000000-k3x9q0z1a" two_pm_ms Hok)).
Defined.
End ListingFacts.

(** ** The capture at the exact time *)

Section ExactTimeFacts.
Import Capture Samples.
Local Open Scope capture_scope.

(** X19. When no call throws, the two exact-time routines do exactly
    this: the preparation; then, when the target is ahead of the clock read
    at that point, one timer for the time that remains (after a line of the
    log in the standalone scheduler), and no timer otherwise; then the
    overlay, the wait for its rendering, the screenshot to the file in the
    output directory that is named after the time stamp, and the close of the
    browser (with the lines of the log and the auto-open in the standalone
    scheduler); and they return that file.  The runtime waits for a timer as
    long as the routine asked whenever that is at most [Js.TIMEOUT_MAX] ms,
    so that the routine goes on at the target; for a longer delay it waits
    1 ms. *)
Theorem exact_time_capture screenshotPath target e :
  (forall c, throws e c = None) ->
  Server.takeScreenshotAtExactTime screenshotPath target e start
  = (Ok (succeeded (Path.join screenshotPath (screenshot_name (stamp e)))
                   (screenshot_name (stamp e))),
     Store true
       ([Call EnsureDir; Call Launch; Call NewContext; Call NewPage; Call GotoPrimary;
         Call Settle; Call SwitchLanguage; Call SelectExchange;
         Call (Scroll 0); Call (ScrollDelay 0); Call ScrollSettle]
        ++ (if 0 <? target - readyAt e then [SetTimeout (target - readyAt e)] else [])
        ++ [Call Overlay; Call OverlayRender;
            Call (Screenshot (Path.join screenshotPath (screenshot_name (stamp e))));
            Call Close])) /\
  Cli.takeScreenshotAtExactTime screenshotPath target e start
  = (Ok (Path.join screenshotPath (screenshot_name (stamp e))),
     Store true
       ([Call (Log LogStart); Call EnsureDir; Call Launch; Call NewContext; Call NewPage;
         Call (Log LogNavigating); Call GotoPrimary; Call Settle; Call SwitchLanguage;
         Call SelectExchange; Call (Log LogScrolling);
         Call (Scroll 0); Call (ScrollDelay 0); Call ScrollSettle]
        ++ (if 0 <? target - readyAt e
            then [Call (Log LogWaiting); SetTimeout (target - readyAt e)] else [])
        ++ [Call (Log LogCapturing); Call Overlay; Call OverlayRender;
            Call (Screenshot (Path.join screenshotPath (screenshot_name (stamp e))));
            Call (Log LogSaved); Call Close;
            Call (AutoOpen (Path.join screenshotPath (screenshot_name (stamp e))))])) /\
  (0 < target - readyAt e <= Js.TIMEOUT_MAX ->
   readyAt e + Js.timer_delay (target - readyAt e) = target) /\
  (Js.TIMEOUT_MAX < target - readyAt e -> Js.timer_delay (target - readyAt e) = 1).
Proof.
  intros Hcalm. split_and!.
  - cbv [Server.takeScreenshotAtExactTime Server.scrollCount prepare wait_for_target shoot
           scroll_loop try_catch bind call emit ret assign_browser read_clock read_stamp
           start Nat.ltb Nat.leb browser trace].
    repeat (rewrite Hcalm; cbn [fst snd app browser trace]).
    destruct (0 <? target - readyAt e); cbn; repeat (rewrite Hcalm; cbn); reflexivity.
  - cbv [Cli.takeScreenshotAtExactTime Cli.scrollCount Cli.prepare Cli.wait_for_target
           Cli.shoot Cli.auto_open Cli.on_error scroll_loop try_catch bind call emit ret
           assign_browser read_clock read_stamp start Nat.ltb Nat.leb browser trace].
    repeat (rewrite Hcalm; cbn [fst snd app browser trace]).
    destruct (0 <? target - readyAt e); cbn; repeat (rewrite Hcalm; cbn); reflexivity.
  - intros [Hpos Hle]. unfold Js.timer_delay.
    destruct (1 <=? target - readyAt e) eqn:H1; [|apply Z.leb_gt in H1; lia].
    destruct (target - readyAt e <=? Js.TIMEOUT_MAX) eqn:H2; [cbn; lia|].
    apply Z.leb_gt in H2. lia.
  - intros Hfar. unfold Js.timer_delay.
    destruct (target - readyAt e <=? Js.TIMEOUT_MAX) eqn:H2;
      [apply Z.leb_le in H2; lia|]. now rewrite andb_false_r.
Qed.

Lemma exact_time_capture_witness :
  (forall c, throws calm c = None) /\
  fst (Cli.takeScreenshotAtExactTime "/home/u/Desktop/screenshots" 1764309600000 calm start)
  = Ok (Path.join "/home/u/Desktop/screenshots" (screenshot_name (stamp calm))) /\
  readyAt calm + Js.timer_delay (1764309600000 - readyAt calm) = 1764309600000.
Proof.
  assert (Hcalm : forall c, throws calm c = None) by reflexivity.
  split; [exact Hcalm|].
  destruct (exact_time_capture "/home/u/Desktop/screenshots" 1764309600000 calm Hcalm)
    as (_ & Hcli & Hexact & _).
  split; [now rewrite Hcli|].
  apply Hexact. vm_compute. split; [reflexivity|discriminate].
Defined.
End ExactTimeFacts.
